(** * clinics-map: normalisation, geocode reconciliation and dataset build

  A shallow embedding of the five pipeline scripts

  - [1_convert_csv_to_json.py]   (text, phone and address normalisation),
  - [2_1_geolocate_locationiq.py], [2_2_geolocate_opencage.py],
    [2_3_geolocate_google.py]    (the three provider passes),
  - [3_build_clinics.py]         (coordinate selection, output records),

  followed by the properties of the specification, each stated against the
  embedded code.

  Conventions.  A Python [str] is a [string]; the character classes of the
  [re] module ([\s], [\d], [\b]) and the case conversions are the ASCII ones,
  so the embedding is exact on ASCII text; a theorem on which a character
  class or a case conversion bears is stated for ASCII text ([ascii_text]).
  A Python exception is a value
  [Raise e] of the result type [res].  A JSON number is a [pynum]:
  a rational, or one of the three non-finite floats that [json.load] and
  [float()] can produce. *)

From Stdlib Require Import String Ascii NArith ZArith QArith Bool Lia.
From stdpp Require Import base option list gmap strings.

Close Scope Q_scope.
Local Open Scope stdpp_scope.

(** ** Results of code that can raise *)

Inductive exn := IndexError | TypeError.

Inductive res (A : Type) :=
| Ok (a : A)
| Raise (e : exn).
Arguments Ok {A} a.
Arguments Raise {A} e.

Definition bind {A B : Type} (m : res A) (f : A -> res B) : res B :=
  match m with
  | Ok a => f a
  | Raise e => Raise e
  end.

Notation "'let*' x ':=' m 'in' k" := (bind m (fun x => k))
  (at level 10, x name, m at level 100, k at level 200).

(** ** Python strings *)

Module Str.

Definition code (a : ascii) : N := N_of_ascii a.

(** [str.isspace] on ASCII: TAB..CR, FS..US and the space. *)
Definition is_space (a : ascii) : bool :=
  let n := code a in
  (N.leb 9 n && N.leb n 13) || (N.leb 28 n && N.leb n 32).

Definition is_digit (a : ascii) : bool :=
  let n := code a in N.leb 48 n && N.leb n 57.

Definition is_upper (a : ascii) : bool :=
  let n := code a in N.leb 65 n && N.leb n 90.

Definition is_lower (a : ascii) : bool :=
  let n := code a in N.leb 97 n && N.leb n 122.

Definition is_alpha (a : ascii) : bool := is_upper a || is_lower a.

(** [\w]: letters, digits and the underscore. *)
Definition is_word (a : ascii) : bool :=
  is_alpha a || is_digit a || N.eqb (code a) 95.

Definition lower_char (a : ascii) : ascii :=
  if is_upper a then ascii_of_N (code a + 32) else a.

Definition upper_char (a : ascii) : ascii :=
  if is_lower a then ascii_of_N (code a - 32) else a.

Fixpoint map (f : ascii -> ascii) (s : string) : string :=
  match s with
  | EmptyString => EmptyString
  | String a s' => String (f a) (map f s')
  end.

Definition lower : string -> string := map lower_char.
Definition upper : string -> string := map upper_char.

(** [str.title]: a letter that follows a letter is lowered, any other
    letter is raised. *)
Fixpoint title_from (after_letter : bool) (s : string) : string :=
  match s with
  | EmptyString => EmptyString
  | String a s' =>
      String (if after_letter then lower_char a else upper_char a)
             (title_from (is_alpha a) s')
  end.

Definition title : string -> string := title_from false.

Fixpoint lstrip_by (p : ascii -> bool) (s : string) : string :=
  match s with
  | EmptyString => EmptyString
  | String a s' => if p a then lstrip_by p s' else s
  end.

(** Drops the trailing run of characters satisfying [p]. *)
Fixpoint rstrip_by (p : ascii -> bool) (s : string) : string :=
  match s with
  | EmptyString => EmptyString
  | String a s' =>
      match rstrip_by p s' with
      | EmptyString => if p a then EmptyString else String a EmptyString
      | r => String a r
      end
  end.

Definition strip (s : string) : string :=
  rstrip_by is_space (lstrip_by is_space s).

Definition lstrip_chars (chars : string) (s : string) : string :=
  lstrip_by (fun a => existsb (Ascii.eqb a) (list_ascii_of_string chars)) s.

Definition startswith (s pre : string) : bool := String.prefix pre s.

(** Truth value of a string: non-empty. *)
Definition truthy (s : string) : bool :=
  match s with EmptyString => false | _ => true end.

(** [s[i]], raising [IndexError] out of range. *)
Definition index (s : string) (i : nat) : res string :=
  match String.get i s with
  | Some a => Ok (String a EmptyString)
  | None => Raise IndexError
  end.

(** [s[i:]] *)
Fixpoint slice_from (i : nat) (s : string) : string :=
  match i, s with
  | O, _ => s
  | S i', String _ s' => slice_from i' s'
  | S _, EmptyString => EmptyString
  end.

(** [s[:n]] *)
Fixpoint slice_to (n : nat) (s : string) : string :=
  match n, s with
  | S n', String a s' => String a (slice_to n' s')
  | _, _ => EmptyString
  end.

(** [sep.join(l)] *)
Fixpoint join (sep : string) (l : list string) : string :=
  match l with
  | [] => EmptyString
  | [x] => x
  | x :: rest => x +:+ sep +:+ join sep rest
  end.

Definition eqb (a b : string) : bool := String.eqb a b.

Definition mem (x : string) (l : list string) : bool := existsb (eqb x) l.




End Str.

(** ** The fragment of Python's [re] that the scripts use

  A backtracking matcher with the priorities of [re]: alternatives are tried
  left to right and the quantifiers are greedy.  Every quantifier of the
  scripts applies to a single character or class, and every pattern has at
  most one capturing group, so [Star], [Plus] and [Opt] take a class and a
  match carries one optional group. *)

Module Re.

Inductive cls :=
| CChar (a : ascii)          (* a literal character *)
| CSpace                     (* \s *)
| CDigit                     (* \d *)
| CUnion (c1 c2 : cls)       (* [c1c2] *)
| CNot (c : cls).            (* [^c] *)

Inductive regex :=
| Eps
| Lit (s : string)           (* a literal run of characters *)
| Cls (c : cls)
| Star (c : cls)             (* c* *)
| Plus (c : cls)             (* c+ *)
| Opt (c : cls)              (* c? *)
| Seq (r1 r2 : regex)
| Alt (r1 r2 : regex)        (* r1|r2 *)
| Group (r : regex)          (* (r), group 1 *)
| Eol                        (* $ *)
| Wordb.                     (* \b *)

(** [[abc]] *)
Fixpoint one_of (s : string) : cls :=
  match s with
  | EmptyString => CNot (CUnion CSpace (CNot CSpace))
  | String a EmptyString => CChar a
  | String a s' => CUnion (CChar a) (one_of s')
  end.

Fixpoint seq (l : list regex) : regex :=
  match l with
  | [] => Eps
  | [r] => r
  | r :: l' => Seq r (seq l')
  end.

Definition char_eq (ic : bool) (a b : ascii) : bool :=
  if ic then Ascii.eqb (Str.lower_char a) (Str.lower_char b)
  else Ascii.eqb a b.

Fixpoint cls_match (ic : bool) (c : cls) (a : ascii) : bool :=
  match c with
  | CChar b => char_eq ic b a
  | CSpace => Str.is_space a
  | CDigit => Str.is_digit a
  | CUnion c1 c2 => cls_match ic c1 a || cls_match ic c2 a
  | CNot c' => negb (cls_match ic c' a)
  end.

Definition word_opt (o : option ascii) : bool :=
  match o with Some a => Str.is_word a | None => false end.

Definition head (s : string) : option ascii :=
  match s with String a _ => Some a | EmptyString => None end.

(** [$]: the end of the text, or just before a final newline. *)
Definition at_eol (s : string) : bool :=
  match s with
  | EmptyString => true
  | String a EmptyString => N.eqb (Str.code a) 10
  | _ => false
  end.

Section Matcher.
Context {R : Type}.
Variable ic : bool.          (* re.IGNORECASE *)

(** A continuation receives the character before the current position,
    the rest of the text and the group captured so far. *)
Definition cont := option ascii -> string -> option string -> option R.

Fixpoint lit (l : string) (prev : option ascii) (s : string)
         (g : option string) (k : cont) : option R :=
  match l with
  | EmptyString => k prev s g
  | String b l' =>
      match s with
      | String a s' => if char_eq ic b a then lit l' (Some a) s' g k else None
      | EmptyString => None
      end
  end.

Fixpoint star (c : cls) (prev : option ascii) (s : string)
         (g : option string) (k : cont) : option R :=
  match s with
  | String a s' =>
      if cls_match ic c a then
        match star c (Some a) s' g k with
        | Some r => Some r
        | None => k prev s g
        end
      else k prev s g
  | EmptyString => k prev s g
  end.

Fixpoint run (r : regex) (prev : option ascii) (s : string)
         (g : option string) (k : cont) : option R :=
  match r with
  | Eps => k prev s g
  | Lit l => lit l prev s g k
  | Cls c =>
      match s with
      | String a s' => if cls_match ic c a then k (Some a) s' g else None
      | EmptyString => None
      end
  | Star c => star c prev s g k
  | Plus c =>
      match s with
      | String a s' => if cls_match ic c a then star c (Some a) s' g k else None
      | EmptyString => None
      end
  | Opt c =>
      match s with
      | String a s' =>
          if cls_match ic c a then
            match k (Some a) s' g with
            | Some r => Some r
            | None => k prev s g
            end
          else k prev s g
      | EmptyString => k prev s g
      end
  | Seq r1 r2 => run r1 prev s g (fun p s' g' => run r2 p s' g' k)
  | Alt r1 r2 =>
      match run r1 prev s g k with
      | Some x => Some x
      | None => run r2 prev s g k
      end
  | Group r' =>
      run r' prev s g
          (fun p s' _ =>
             k p s' (Some (Str.slice_to (String.length s - String.length s') s)))
  | Eol => if at_eol s then k prev s g else None
  | Wordb =>
      if xorb (word_opt prev) (word_opt (head s)) then k prev s g else None
  end.
End Matcher.

(** A match: the text after it and group 1. *)
Definition match_here (ic : bool) (r : regex) (prev : option ascii) (s : string)
  : option (string * option string) :=
  run ic r prev s None (fun _ s' g => Some (s', g)).

(** [re.search]: the leftmost match; yields group 1 ([None] inside when the
    pattern has no group). *)
Fixpoint search_from (ic : bool) (r : regex) (prev : option ascii) (s : string)
  : option (option string) :=
  match match_here ic r prev s with
  | Some (_, g) => Some g
  | None =>
      match s with
      | String a s' => search_from ic r (Some a) s'
      | EmptyString => None
      end
  end.

Definition search (ic : bool) (r : regex) (s : string) : option (option string) :=
  search_from ic r None s.

Definition found (ic : bool) (r : regex) (s : string) : bool :=
  match search ic r s with Some _ => true | None => false end.

(** Replacement templates: literal text and [\1]. *)
Inductive tpl := TLit (s : string) | TGrp.

Fixpoint expand (t : list tpl) (g : option string) : string :=
  match t with
  | [] => EmptyString
  | TLit s :: t' => s +:+ expand t' g
  | TGrp :: t' => default EmptyString g +:+ expand t' g
  end.

(** [re.sub]: all non-overlapping matches, left to right.  [skip] counts the
    characters of the current match that are still to be passed over. *)
Fixpoint sub_go (ic : bool) (r : regex) (t : list tpl)
         (prev : option ascii) (s : string) (skip : nat) : string :=
  match skip with
  | S n =>
      match s with
      | String a s' => sub_go ic r t (Some a) s' n
      | EmptyString => EmptyString
      end
  | O =>
      match match_here ic r prev s with
      | Some (rest, g) =>
          expand t g +:+
          match String.length s - String.length rest, s with
          | S n, String a s' => sub_go ic r t (Some a) s' n
          | O, String a s' => String a (sub_go ic r t (Some a) s' 0)
          | _, EmptyString => EmptyString
          end
      | None =>
          match s with
          | String a s' => String a (sub_go ic r t (Some a) s' 0)
          | EmptyString => EmptyString
          end
      end
  end.

Definition sub (ic : bool) (r : regex) (t : list tpl) (s : string) : string :=
  sub_go ic r t None s 0.

(** [re.split] on a single-character class. *)
Fixpoint split_go (c : cls) (s : string) (cur : string) : list string :=
  match s with
  | EmptyString => [cur]
  | String a s' =>
      if cls_match false c a then cur :: split_go c s' EmptyString
      else split_go c s' (cur +:+ String a EmptyString)
  end.

Definition split (c : cls) (s : string) : list string := split_go c s EmptyString.

End Re.


(** ** [1_convert_csv_to_json.py] *)

Module Convert.
Import Re.

Definition ws : cls := CSpace.
Definition chr (s : string) : cls := one_of s.

(** The bytes of U+FFFD, U+FFFE and U+FFFF: EF BF BD, EF BF BE, EF BF BF. *)
Definition replacement_chars : regex :=
  Seq (Lit (String (ascii_of_N 239) (String (ascii_of_N 191) EmptyString)))
      (Cls (CUnion (CChar (ascii_of_N 189))
                   (CUnion (CChar (ascii_of_N 190)) (CChar (ascii_of_N 191))))).

(** [clean_text].  Line 20 of the script, [text.replace('', '')], replaces the
    empty string by itself and leaves [text] as it is. *)
Definition clean_text (text : string) : string :=
  if negb (Str.truthy text) then "" else
  let text := sub false replacement_chars [] text in
  (* \bABUDHABI\b, IGNORECASE *)
  let text := sub true (seq [Wordb; Lit "ABUDHABI"; Wordb]) [TLit "ABU DHABI"] text in
  (* \s+,   and   ,([^\s]) *)
  let text := sub false (Seq (Plus ws) (Lit ",")) [TLit ","] text in
  let text := sub false (Seq (Lit ",") (Group (Cls (CNot ws)))) [TLit ", "; TGrp] text in
  (* ([^\s(])\s*\( *)
  let text := sub false (seq [Group (Cls (CNot (CUnion ws (chr "(")))); Star ws; Lit "("])
                  [TGrp; TLit " ("] text in
  (* \(\s+   and   \s+\) *)
  let text := sub false (Seq (Lit "(") (Plus ws)) [TLit "("] text in
  let text := sub false (Seq (Plus ws) (Lit ")")) [TLit ")"] text in
  (* \s*-\s*$   and   [,\s]+$ *)
  let text := sub false (seq [Star ws; Lit "-"; Star ws; Eol]) [] text in
  let text := sub false (Seq (Plus (CUnion (chr ",") ws)) Eol) [] text in
  (* \s+ *)
  let text := sub false (Plus ws) [TLit " "] text in
  Str.strip text.

Definition opt_truthy (o : option string) : bool :=
  match o with Some s => Str.truthy s | None => false end.

(** [s[i] in cands]; the script evaluates it only under a guard on [len(s)]. *)
Definition char_in (s : string) (i : nat) (cands : list string) : bool :=
  match String.get i s with
  | Some a => Str.mem (String a EmptyString) cands
  | None => false
  end.

(** The branches of [normalize_single_phone] that split the digits into an
    area code and the rest; [None] is the script's [return None]. *)
Definition split_area (digits_only : string) (inferred_area_code : option string)
  : res (option (string * string)) :=
  let n := String.length digits_only in
  if Str.startswith digits_only "971" then
    let* area_code := Str.index digits_only 3 in
    Ok (Some (area_code, Str.slice_from 4 digits_only))
  else if Str.startswith digits_only "00971" then
    let* area_code := Str.index digits_only 5 in
    Ok (Some (area_code, Str.slice_from 6 digits_only))
  else if Nat.leb 2 n && char_in digits_only 0 ["0"] && char_in digits_only 1 ["2"; "4"; "5"] then
    let* area_code := Str.index digits_only 1 in
    Ok (Some (area_code, Str.slice_from 2 digits_only))
  else if Nat.leb 1 n && char_in digits_only 0 ["2"; "4"; "5"] then
    let* area_code := Str.index digits_only 0 in
    Ok (Some (area_code, Str.slice_from 1 digits_only))
  else if Nat.leb 7 n then
    if opt_truthy inferred_area_code && Nat.eqb n 7 then
      Ok (Some (default "" inferred_area_code, digits_only))
    else if Nat.leb 8 n && char_in digits_only 0 ["2"; "4"; "5"] then
      let* area_code := Str.index digits_only 0 in
      Ok (Some (area_code, Str.slice_from 1 digits_only))
    else if Nat.eqb n 7 && char_in digits_only 0 ["4"] then
      Ok (Some (if opt_truthy inferred_area_code
                then default "" inferred_area_code else "2", digits_only))
    else Ok None
  else Ok None.

Definition normalize_single_phone (phone : string) (inferred_area_code : option string)
  : res (option string) :=
  let phone := Str.strip phone in
  if negb (Str.truthy phone) then Ok None else
  (* [^\d+] *)
  let digits_only := sub false (Cls (CNot (CUnion CDigit (chr "+")))) [] phone in
  let digits_only :=
    if Str.startswith digits_only "+" then Str.slice_from 1 digits_only else digits_only in
  let digits_only := Str.lstrip_chars "0" digits_only in
  if negb (Str.truthy digits_only) then Ok None else
  let* parts := split_area digits_only inferred_area_code in
  match parts with
  | None => Ok None
  | Some (area_code, rest) =>
      let len := String.length rest in
      if Str.mem area_code ["2"; "4"] then
        if Nat.ltb len 7 || Nat.ltb 8 len then Ok None
        else Ok (Some ("+971 " +:+ area_code +:+ rest))
      else if Str.eqb area_code "5" then
        if Nat.ltb len 8 || Nat.ltb 9 len then Ok None
        else Ok (Some ("+971 " +:+ area_code +:+ rest))
      else Ok None
  end.

(** State of the two loops of [normalize_phone]. *)
Record phone_acc := {
  normalized_phones : list string;
  inferred_area_code : option string;
  processed_phones : gset string
}.

(** First pass: every candidate on its own; the area code of a success becomes
    the inferred one. *)
Fixpoint first_pass (phones : list string) (acc : phone_acc) : res phone_acc :=
  match phones with
  | [] => Ok acc
  | phone :: rest =>
      let* normalized := normalize_single_phone phone None in
      match normalized with
      | Some n =>
          if Str.truthy n then
            (* \+971 ([245])\d+ *)
            let m := search false (seq [Lit "+971 "; Group (Cls (chr "245")); Plus CDigit]) n in
            first_pass rest
              {| normalized_phones := normalized_phones acc ++ [n];
                 inferred_area_code :=
                   match m with
                   | Some g => Some (default "" g)
                   | None => inferred_area_code acc
                   end;
                 processed_phones := {[phone]} ∪ processed_phones acc |}
          else first_pass rest acc
      | None => first_pass rest acc
      end
  end.

(** Second pass: the candidates not yet processed, with the inferred code. *)
Fixpoint second_pass (phones : list string) (acc : phone_acc) : res phone_acc :=
  match phones with
  | [] => Ok acc
  | phone :: rest =>
      if bool_decide (phone ∈ processed_phones acc) then second_pass rest acc
      else
        let* normalized := normalize_single_phone phone (inferred_area_code acc) in
        match normalized with
        | Some n =>
            if Str.truthy n && negb (Str.mem n (normalized_phones acc)) then
              second_pass rest
                {| normalized_phones := normalized_phones acc ++ [n];
                   inferred_area_code := inferred_area_code acc;
                   processed_phones := {[phone]} ∪ processed_phones acc |}
            else second_pass rest acc
        | None => second_pass rest acc
        end
  end.

Definition normalize_phone (phone_str : string) : res string :=
  if negb (Str.truthy phone_str) then Ok "" else
  (* [p.strip() for p in re.split(r'[/,;]', phone_str) if p.strip()] *)
  let phones :=
    List.map Str.strip
      (List.filter (fun p => Str.truthy (Str.strip p)) (split (chr "/,;") phone_str)) in
  let* acc := first_pass phones
         {| normalized_phones := []; inferred_area_code := None; processed_phones := ∅ |} in
  let* acc := (if opt_truthy (inferred_area_code acc) then second_pass phones acc else Ok acc) in
  Ok (match normalized_phones acc with
      | [] => ""
      | l => Str.join ", " l
      end).

(** [extract_emirate_from_name] *)

(** The patterns tried on the upper-cased name, in the script's order. *)
Definition name_emirate_patterns : list (regex * string) :=
  let tail := [Star ws; Eol] in
  let after_sep (r : regex) := seq (Cls (chr "- ") :: Group r :: tail) in
  let bare (r : regex) := seq (Group r :: tail) in
  [ (after_sep (Alt (seq [Lit "ABU"; Plus ws; Lit "DHABI"]) (Lit "ABUDHABI")), "ABU DHABI");
    (after_sep (Lit "DUBAI"), "DUBAI");
    (after_sep (Lit "SHARJAH"), "SHARJAH");
    (after_sep (Lit "AJMAN"), "AJMAN");
    (after_sep (seq [Lit "UMM"; Plus ws; Lit "AL"; Plus ws; Lit "QUWAIN"]), "UMM AL QUWAIN");
    (after_sep (seq [Lit "RAS"; Plus ws; Lit "AL"; Plus ws; Lit "KHAIMAH"]), "RAS AL KHAIMAH");
    (after_sep (Lit "FUJAIRAH"), "FUJAIRAH");
    (bare (Lit "DUBAI"), "DUBAI");
    (bare (Lit "SHARJAH"), "SHARJAH");
    (bare (Lit "AJMAN"), "AJMAN") ].

(** The first pattern of the list found in [s]. *)
Fixpoint first_found (ic : bool) (pats : list (regex * string)) (s : string)
  : option string :=
  match pats with
  | [] => None
  | (r, v) :: rest => if found ic r s then Some v else first_found ic rest s
  end.

Definition extract_emirate_from_name (name : string) : option string :=
  if negb (Str.truthy name) then None else
  (* \(([^)]+)\)\s*$ *)
  match search false (seq [Lit "("; Group (Plus (CNot (chr ")"))); Lit ")"; Star ws; Eol]) name with
  | Some g =>
      let emirate := Str.upper (Str.strip (default "" g)) in
      if Str.eqb emirate "GOVERNMENT-DHA" then Some "DUBAI"
      else if Str.mem emirate ["AL AIN"; "ALAIN"] then Some "AL AIN"
      else Some emirate
  | None =>
      let name_upper := Str.strip (Str.upper name) in
      match first_found false name_emirate_patterns name_upper with
      | Some e => Some e
      | None =>
          let not_close := CNot (chr ")") in
          (* an unclosed parenthesis that holds ABU\s*DHABI, up to the end *)
          if found false (seq [Lit "("; Group (seq [Star not_close; Lit "ABU"; Star ws;
                                                      Lit "DHABI"; Star not_close]); Eol])
                   name_upper
          then Some "ABU DHABI"
          (* an unclosed parenthesis that holds DUBAI, up to the end *)
          else if found false (seq [Lit "("; Group (seq [Star not_close; Lit "DUBAI";
                                                           Star not_close]); Eol])
                        name_upper
          then Some "DUBAI"
          else None
      end
  end.

Definition emirate_map : gmap string string :=
  list_to_map
    [ ("ABU DHABI", "Abu Dhabi"); ("DUBAI", "Dubai"); ("SHARJAH", "Sharjah");
      ("AJMAN", "Ajman"); ("UMM AL QUWAIN", "Umm Al Quwain");
      ("RAS AL KHAIMAH", "Ras Al Khaimah"); ("FUJAIRAH", "Fujairah");
      ("ABU - DHABI", "Abu Dhabi"); ("ABU-DHABI", "Abu Dhabi") ].

Definition normalize_emirate_name (emirate : string) : string :=
  if negb (Str.truthy emirate) then "" else
  let emirate_upper := Str.strip (Str.upper emirate) in
  match emirate_map !! emirate_upper with
  | Some v => v
  | None => Str.title emirate
  end.

(** The names of the emirates as the address patterns spell them. *)
Definition abu_dhabi : regex := seq [Lit "ABU"; Plus ws; Lit "DHABI"].
Definition umm_al_quwain : regex := seq [Lit "UMM"; Plus ws; Lit "AL"; Plus ws; Lit "QUWAIN"].
Definition ras_al_khaimah : regex := seq [Lit "RAS"; Plus ws; Lit "AL"; Plus ws; Lit "KHAIMAH"].
(** [U\.?A\.?E\.?] *)
Definition uae : regex :=
  seq [Lit "U"; Opt (chr "."); Lit "A"; Opt (chr "."); Lit "E"; Opt (chr ".")].
Definition united_arab_emirates : regex :=
  seq [Lit "UNITED"; Plus ws; Lit "ARAB"; Plus ws; Lit "EMIRATES"].

Definition whole_word (r : regex) : regex := seq [Wordb; r; Wordb].

Definition extract_emirate_from_address (address : string) : option string :=
  if negb (Str.truthy address) then None else
  first_found true
    [ (whole_word abu_dhabi, "Abu Dhabi"); (whole_word (Lit "DUBAI"), "Dubai");
      (whole_word (Lit "SHARJAH"), "Sharjah"); (whole_word (Lit "AJMAN"), "Ajman");
      (whole_word umm_al_quwain, "Umm Al Quwain");
      (whole_word ras_al_khaimah, "Ras Al Khaimah");
      (whole_word (Lit "FUJAIRAH"), "Fujairah") ]
    address.

Definition extract_country_from_address (address : string) : option string :=
  if negb (Str.truthy address) then None else
  first_found true
    [ (whole_word uae, "UAE"); (whole_word united_arab_emirates, "UAE") ]
    address.

(** The two substitutions the script applies for one name [n]:
    [[, ]\s*n\s*([, -]|$)] and [-\s*n\s*([, -]|$)], each replaced by [\1]. *)
Definition strip_mention (n : regex) (address : string) : string :=
  let tail := [Star ws; Group (Alt (Cls (chr ", -")) Eol)] in
  let address := sub true (seq (Cls (chr ", ") :: Star ws :: n :: tail)) [TGrp] address in
  sub true (seq (Lit "-" :: Star ws :: n :: tail)) [TGrp] address.

Definition remove_emirate_and_country_from_address (address : string)
  : string * option string * option string :=
  if negb (Str.truthy address) then (address, None, None) else
  let emirate := extract_emirate_from_address address in
  let country := extract_country_from_address address in
  let address :=
    fold_left (fun a n => strip_mention n a)
      [ abu_dhabi; Lit "DUBAI"; Lit "SHARJAH"; Lit "AJMAN"; umm_al_quwain;
        ras_al_khaimah; Lit "FUJAIRAH"; uae; united_arab_emirates ]
      address in
  (* ,\s*,+   -\s*-+   \s+ *)
  let address := sub false (seq [Lit ","; Star ws; Plus (chr ",")]) [TLit ","] address in
  let address := sub false (seq [Lit "-"; Star ws; Plus (chr "-")]) [TLit "-"] address in
  let address := sub false (Plus ws) [TLit " "] address in
  (* ,\s*-\s*   -\s*,\s* *)
  let address := sub false (seq [Lit ","; Star ws; Lit "-"; Star ws]) [TLit " - "] address in
  let address := sub false (seq [Lit "-"; Star ws; Lit ","; Star ws]) [TLit " - "] address in
  (* ,\s*$   -\s*$   \s+$ *)
  let address := sub false (seq [Lit ","; Star ws; Eol]) [] address in
  let address := sub false (seq [Lit "-"; Star ws; Eol]) [] address in
  let address := sub false (Seq (Plus ws) Eol) [] address in
  (Str.strip address, emirate, country).

Definition add_emirate_to_address (address name : string) : string :=
  if negb (Str.truthy address) || negb (Str.truthy (Str.strip address)) then
    match extract_emirate_from_name name with
    | Some emirate_raw =>
        if Str.truthy emirate_raw then
          if Str.eqb emirate_raw "AL AIN" then "Al Ain, Abu Dhabi, UAE"
          else
            let emirate := normalize_emirate_name emirate_raw in
            if Str.truthy emirate then emirate +:+ ", UAE" else address
        else address
    | None => address
    end
  else
    let '(cleaned_address, found_emirate, found_country) :=
      remove_emirate_and_country_from_address address in
    let country := if opt_truthy found_country then default "" found_country else "UAE" in
    let finish (emirate : option string) : string :=
      if negb (opt_truthy emirate) then cleaned_address
      else cleaned_address +:+ ", " +:+ default "" emirate +:+ ", " +:+ country in
    if opt_truthy found_emirate then finish found_emirate
    else
      match extract_emirate_from_name name with
      | Some emirate_raw =>
          if Str.truthy emirate_raw then
            if Str.eqb emirate_raw "AL AIN" then
              (* \bAl\s+Ain\b, IGNORECASE *)
              let cleaned_address :=
                if negb (found true (whole_word (seq [Lit "Al"; Plus ws; Lit "Ain"])) cleaned_address)
                then cleaned_address +:+ ", Al Ain" else cleaned_address in
              cleaned_address +:+ ", Abu Dhabi, " +:+ country
            else finish (Some (normalize_emirate_name emirate_raw))
          else finish found_emirate
      | None => finish found_emirate
      end.

End Convert.

(** ** Records of the located file

    The objects of [network-amber.json] and [network-amber-located.json]: the
    four fields written by stage 1, and the provider entries
    ([locationiq], [opencage], [google]) as a dictionary from the key to the
    JSON value stored under it.  A key that is absent was never attempted. *)

Inductive pynum :=
| Fin (q : Q)
| PosInf
| NegInf
| NaN.

#[warnings="-register-all"]
Inductive jval :=
| JNull
| JBool (b : bool)
| JNum (x : pynum)
| JStr (s : string)
| JList (l : list jval)
| JObj (fields : list (string * jval)).

Record clinic := {
  id : Z;
  name : string;
  address : string;
  phone : string;
  attempts : gmap string jval
}.

(** [clinic[key] = v] *)
Definition set_attempt (key : string) (v : jval) (c : clinic) : clinic :=
  {| id := id c; name := name c; address := address c; phone := phone c;
     attempts := <[key := v]> (attempts c) |}.

(** [key in clinic] *)
Definition has_attempt (key : string) (c : clinic) : bool :=
  match attempts c !! key with Some _ => true | None => false end.

(** A record as stage 1 writes it: no provider entry. *)
Definition normalized (c : clinic) : Prop := attempts c = ∅.

(** [a <= b] on floats. *)
Definition num_le (a b : pynum) : bool :=
  match a, b with
  | NaN, _ | _, NaN => false
  | NegInf, _ => true
  | _, PosInf => true
  | Fin x, Fin y => Qle_bool x y
  | _, _ => false
  end.

(** The operand of a comparison with a float: a number, or a boolean read as
    0 or 1; anything else raises [TypeError]. *)
Definition as_num (v : jval) : res pynum :=
  match v with
  | JNum x => Ok x
  | JBool b => Ok (Fin (if b then 1 else 0)%Q)
  | _ => Raise TypeError
  end.

(** [is_valid_uae_coordinates]:
    [22.5 <= lat <= 26.5 and 52.0 <= lng <= 57.0], evaluated left to right. *)
Definition is_valid_uae_coordinates (lat lng : jval) : res bool :=
  let* a := as_num lat in
  if num_le (Fin (45 # 2)) a && num_le a (Fin (53 # 2)) then
    let* b := as_num lng in
    Ok (num_le (Fin (52 # 1)) b && num_le b (Fin (57 # 1)))
  else Ok false.

(** ** The provider passes: [2_1_geolocate_locationiq.py],
    [2_2_geolocate_opencage.py], [2_3_geolocate_google.py] *)

Module Geo.

(** What one run leaves behind: the list written by the final save, the
    records a lookup was issued for (as they were when it was issued), and
    the lists written by the saves every tenth request. *)
Record run := {
  final : list clinic;
  lookups : list clinic;
  checkpoints : list (list clinic)
}.

(** The three scripts have the same [main] up to four places, gathered here:
    the provider's key, the write that initialises a record taken from the
    input, the test that selects a record for a lookup, and the write (if
    any) made on a selected record before the request cap is tested. *)
Record provider := {
  key : string;
  init : clinic -> clinic;
  should_geocode : clinic -> bool;
  mark : clinic -> clinic
}.

(** [{clinic["id"]: clinic for clinic in l}] as the set of its keys with
    their values; only membership is ever asked of [located_dict]. *)
Definition dict_by_id (l : list clinic) : gmap Z clinic :=
  fold_left (fun d c => <[id c := c]> d) l ∅.

(** The same comprehension with the order of [items()]: a key keeps the
    position of its first occurrence and the value of its last. *)
Fixpoint dict_set (k : Z) (v : clinic) (d : list (Z * clinic)) : list (Z * clinic) :=
  match d with
  | [] => [(k, v)]
  | (k', v') :: d' => if Z.eqb k k' then (k, v) :: d' else (k', v') :: dict_set k v d'
  end.

Definition input_items (clinics : list clinic) : list (Z * clinic) :=
  fold_left (fun d c => dict_set (id c) c d) clinics [].

(** Merge step: the records of the input whose id the located file lacks. *)
Fixpoint merge_new (p : provider) (items : list (Z * clinic))
         (located_clinics : list clinic) (located_dict : gmap Z clinic) : list clinic :=
  match items with
  | [] => located_clinics
  | (clinic_id, c) :: rest =>
      match located_dict !! clinic_id with
      | Some _ => merge_new p rest located_clinics located_dict
      | None =>
          let clinic_copy := init p c in
          merge_new p rest (located_clinics ++ [clinic_copy])
                    (<[clinic_id := clinic_copy]> located_dict)
      end
  end.

(** Revalidation of one record: a stored two-element list under the
    provider's key is checked again and cleared when it fails. *)
Definition revalidate (k : string) (c : clinic) : res clinic :=
  match attempts c !! k with
  | Some (JList [lat; lng]) =>
      let* ok := is_valid_uae_coordinates lat lng in
      Ok (if ok then c else set_attempt k (JList []) c)
  | _ => Ok c
  end.

Fixpoint validate (k : string) (l : list clinic) : res (list clinic) :=
  match l with
  | [] => Ok ([] : list clinic)
  | c :: rest =>
      let* c' := revalidate k c in
      let* rest' := validate k rest in
      Ok (c' :: rest')
  end.

(** The list the main loop starts from. *)
Definition prepare (p : provider) (clinics located_clinics : list clinic)
  : res (list clinic) :=
  match located_clinics with
  | [] => Ok (init p <$> clinics)
  | _ =>
      validate (key p)
        (merge_new p (input_items clinics) located_clinics (dict_by_id located_clinics))
  end.

(** The value stored for the answer of a lookup. *)
Definition stored (result : option (pynum * pynum)) : res jval :=
  match result with
  | Some (lat, lng) =>
      let* ok := is_valid_uae_coordinates (JNum lat) (JNum lng) in
      Ok (if ok then JList [JNum lat; JNum lng] else JList [])
  | None => Ok (JList [])
  end.

Definition cap_reached (max_requests : option Z) (total_requests : nat) : bool :=
  match max_requests with
  | Some m => Z.leb m (Z.of_nat total_requests)
  | None => false
  end.

Definition query (c : clinic) : string := name c +:+ ", " +:+ address c.

(** The main loop.  [done] are the records already passed, [todo] those to
    come; the list on disk at a save is [done] followed by [todo].  The
    geocoder is given the number of requests made before its query. *)
Fixpoint loop (p : provider) (max_requests : option Z)
         (geocode : nat -> string -> option (pynum * pynum))
         (done todo : list clinic) (total_requests : nat)
         (looked : list clinic) (saves : list (list clinic)) : res run :=
  match todo with
  | [] => Ok {| final := done; lookups := looked; checkpoints := saves |}
  | c :: rest =>
      if negb (should_geocode p c) then
        loop p max_requests geocode (done ++ [c]) rest total_requests looked saves
      else
        let c := mark p c in
        if cap_reached max_requests total_requests then
          Ok {| final := done ++ c :: rest; lookups := looked; checkpoints := saves |}
        else
          let* v := stored (geocode total_requests (query c)) in
          let c' := set_attempt (key p) v c in
          let total_requests := S total_requests in
          let saves :=
            if Nat.eqb (total_requests mod 10) 0
            then saves ++ [done ++ c' :: rest] else saves in
          loop p max_requests geocode (done ++ [c']) rest total_requests
               (looked ++ [c]) saves
  end.

Definition main (p : provider) (max_requests : option Z)
           (geocode : nat -> string -> option (pynum * pynum))
           (clinics located_clinics : list clinic) : res run :=
  let* located := prepare p clinics located_clinics in
  loop p max_requests geocode [] located 0 [] [].

(** *** [2_1_geolocate_locationiq.py] *)

Definition locationiq : provider :=
  {| key := "locationiq";
     init := set_attempt "locationiq" (JList []);
     should_geocode := fun c => negb (has_attempt "locationiq" c);
     mark := set_attempt "locationiq" (JList []) |}.

(** *** [2_2_geolocate_opencage.py] *)

Definition init_if_missing (c : clinic) : clinic :=
  if has_attempt "locationiq" c then c else set_attempt "locationiq" (JList []) c.

Definition opencage_should_geocode (c : clinic) : bool :=
  match attempts c !! "locationiq" with
  | None => false
  | Some (JList l) =>
      if Nat.ltb 0 (length l) then false
      else if has_attempt "opencage" c then false
      else true
  | Some _ => false
  end.

Definition opencage : provider :=
  {| key := "opencage";
     init := init_if_missing;
     should_geocode := opencage_should_geocode;
     mark := fun c => c |}.

(** *** [2_3_geolocate_google.py] *)

Definition google_should_geocode (c : clinic) : bool :=
  if has_attempt "google" c then false else true.

Definition google : provider :=
  {| key := "google";
     init := init_if_missing;
     should_geocode := google_should_geocode;
     mark := fun c => c |}.

End Geo.

(** ** [3_build_clinics.py] *)

Module Build.
Import Re.

(** Truth value of a JSON value. *)
Definition truthy (v : jval) : bool :=
  match v with
  | JNull => false
  | JBool b => b
  | JNum (Fin q) => negb (Qeq_bool q 0)
  | JNum _ => true
  | JStr s => Str.truthy s
  | JList l => match l with [] => false | _ => true end
  | JObj f => match f with [] => false | _ => true end
  end.

(** [clean_name]: a parenthesis with its content at the end is removed. *)
Definition clean_name (name : string) : string :=
  sub false
      (seq [Star CSpace; Lit "("; Plus (CNot (CChar ")")); Lit ")"; Star CSpace; Eol])
      [] name.

(** [\bw\b] searched in [s]. *)
Definition has_word (w s : string) : bool := found false (seq [Wordb; Lit w; Wordb]) s.

Definition tag_if (b : bool) (tag : string) : list string := if b then [tag] else [].

Definition extract_tags (name : string) : option (list string) :=
  if negb (Str.truthy name) then None else
  let name_lower := Str.lower name in
  let has_pharmacy := has_word "pharmacy" name_lower in
  let tags :=
    tag_if has_pharmacy "pharmacy"
    ++ tag_if (negb has_pharmacy
               && (has_word "hospital" name_lower || has_word "hospitals" name_lower))
              "hospital"
    ++ tag_if (negb has_pharmacy
               && (has_word "clinic" name_lower || has_word "clinics" name_lower
                   || has_word "polyclinic" name_lower
                   || has_word "medical center" name_lower
                   || has_word "medical centre" name_lower))
              "clinic"
    ++ tag_if (has_word "optical" name_lower || has_word "optics" name_lower
               || has_word "eye" name_lower)
              "optical"
    ++ tag_if (has_word "dental" name_lower) "dental"
    ++ tag_if (has_word "laboratory" name_lower || has_word "laboratories" name_lower
               || has_word "diagnostic" name_lower || has_word "diagnostics" name_lower
               || has_word "lab" name_lower)
              "lab" in
  match tags with
  | [] => None
  | _ => Some tags
  end.

(** One step of [get_coordinates]: the key is present, its value is true,
    and it is a list of length two. *)
Definition pair_under (k : string) (record : clinic) : option (jval * jval) :=
  match attempts record !! k with
  | Some loc =>
      if truthy loc then
        match loc with
        | JList [lat; lon] => Some (lat, lon)
        | _ => None
        end
      else None
  | None => None
  end.

Definition get_coordinates (record : clinic) : option (jval * jval) :=
  match pair_under "locationiq" record with
  | Some coords => Some coords
  | None =>
      match pair_under "google" record with
      | Some coords => Some coords
      | None => pair_under "opencage" record
      end
  end.

Definition build_address (address phone : string) : string :=
  if Str.truthy phone then address +:+ ", " +:+ phone else address.

(** An object of the output; [tags] is the optional key. *)
Record out := {
  out_name : string;
  out_address : string;
  lat : jval;
  lon : jval;
  tags : option (list string)
}.

Definition process_record (record : clinic) : option out :=
  match get_coordinates record with
  | None => None
  | Some (lat, lon) =>
      Some {| out_name := clean_name (name record);
              out_address := build_address (address record) (phone record);
              lat := lat;
              lon := lon;
              tags := extract_tags (name record) |}
  end.

(** The loop of [main]: the records that give an object, in order. *)
Definition build (source_data : list clinic) : list out :=
  omap process_record source_data.

End Build.

(** ** [convert_csv_to_json] of [1_convert_csv_to_json.py] *)

Module Csv.
Import Convert.

(** A row of [csv.DictReader]: the columns of the header.  A line with fewer
    fields than the header has [None] in the columns it does not reach. *)
Definition row := gmap string (option string).

(** [row.get(key, '')] *)
Definition get (r : row) (key : string) : option string :=
  match r !! key with
  | Some v => v
  | None => Some EmptyString
  end.

(** What ends the conversion before the output is written. *)
Inductive stop :=
| AttributeError            (* [None.strip()] *)
| Raised (e : exn).         (* out of [normalize_phone] *)

Inductive conv (A : Type) :=
| Converted (a : A)
| Stopped (s : stop).
Arguments Converted {A} a.
Arguments Stopped {A} s.

(** [int(s)] on a string, base 10: surrounding whitespace, one optional sign,
    then digits, with single underscores between digits; [None] stands for
    [ValueError].  CPython refuses more than 4300 digits. *)
Definition max_str_digits : nat := 4300.

Fixpoint int_digits (acc : Z) (after_digit : bool) (s : string) : option Z :=
  match s with
  | EmptyString => if after_digit then Some acc else None
  | String a s' =>
      if Str.is_digit a
      then int_digits (10 * acc + Z.of_N (Str.code a - 48)) true s'
      else if Ascii.eqb a "_" && after_digit then int_digits acc false s'
      else None
  end.

Fixpoint count_digits (s : string) : nat :=
  match s with
  | EmptyString => 0
  | String a s' => (if Str.is_digit a then 1 else 0) + count_digits s'
  end.

Definition py_int (s : string) : option Z :=
  let s := Str.strip s in
  let signed :=
    match s with
    | String a body =>
        if Ascii.eqb a "-" then (true, body)
        else if Ascii.eqb a "+" then (false, body)
        else (false, s)
    | EmptyString => (false, s)
    end in
  if Nat.ltb max_str_digits (count_digits signed.2) then None
  else
    match int_digits 0 false signed.2 with
    | Some n => Some (if signed.1 then (- n)%Z else n)
    | None => None
    end.

(** The body of the loop over the rows: [Converted None] is [continue].
    [clean_text] and [normalize_phone] answer [None] as they answer [''],
    by their first test. *)
Definition convert_row (r : row) : conv (option clinic) :=
  match get r "PROVIDER NUMBER" with
  | None => Stopped AttributeError
  | Some number =>
      let provider_number := Str.strip number in
      let provider_name := clean_text (default EmptyString (get r "PROVIDER NAME")) in
      let address := clean_text (default EmptyString (get r "ADDRESS")) in
      match normalize_phone (default EmptyString (get r "Phone No")) with
      | Raise e => Stopped (Raised e)
      | Ok phone =>
          let address := add_emirate_to_address address provider_name in
          match py_int provider_number with
          | None => Converted None
          | Some provider_id =>
              Converted (Some {| id := provider_id; name := provider_name;
                                 address := address; phone := phone;
                                 attempts := ∅ |})
          end
      end
  end.

Fixpoint convert_loop (rows : list row) (results : list clinic)
  : conv (list clinic) :=
  match rows with
  | [] => Converted results
  | r :: rows' =>
      match convert_row r with
      | Stopped s => Stopped s
      | Converted None => convert_loop rows' results
      | Converted (Some result) => convert_loop rows' (results ++ [result])
      end
  end.

(** The list written to the JSON file; nothing is written when the loop
    stops on an exception. *)
Definition convert_csv_to_json (rows : list row) : conv (list clinic) :=
  convert_loop rows [].

End Csv.


(** * Properties *)

Import Convert Geo Build.

(** ** Definitions used by the statements *)

(** A JSON number with a finite value. *)
Definition num (q : Q) : jval := JNum (Fin q).

(** The bounding box: latitude in [22.5, 26.5], longitude in [52.0, 57.0]. *)
Definition in_box (lat lng : jval) : Prop :=
  exists a b : Q,
    lat = num a /\ lng = num b /\
    (45 # 2 <= a)%Q /\ (a <= 53 # 2)%Q /\ (52 # 1 <= b)%Q /\ (b <= 57 # 1)%Q.

(** Every two-element list stored in a record lies in the box. *)
Definition bounded (c : clinic) : Prop :=
  forall k lat lng, attempts c !! k = Some (JList [lat; lng]) -> in_box lat lng.

(** The three passes. *)
Definition is_pass (p : provider) : Prop :=
  p = locationiq \/ p = opencage \/ p = google.

(** The lists a run writes to the located file, in order: the checkpoints,
    then the final save. *)
Definition saved (r : run) : list (list clinic) := checkpoints r ++ [final r].

(** The contents the located file can have: absent (read as the empty list)
    at first, then whatever a save of some pass wrote, the pass having been
    started on an earlier content, with any cap, any answers of the
    geocoder and any normalized input. *)
Inductive persisted : list clinic -> Prop :=
| persisted_absent : persisted []
| persisted_save p max_requests geocode clinics located_clinics r s :
    persisted located_clinics ->
    is_pass p ->
    Forall normalized clinics ->
    main p max_requests geocode clinics located_clinics = Ok r ->
    s ∈ saved r ->
    persisted s.

(** An entry that is absent or the empty list. *)
Definition empty_or_absent (o : option jval) : Prop :=
  o = None \/ o = Some (JList []).

(** The selection of the dataset builder in the words of the specification:
    a key counts when it holds a list of two elements. *)
Definition two_elements (o : option jval) : option (jval * jval) :=
  match o with
  | Some (JList [a; b]) => Some (a, b)
  | _ => None
  end.

Definition by_priority (record : clinic) : option (jval * jval) :=
  match two_elements (attempts record !! "locationiq") with
  | Some coords => Some coords
  | None =>
      match two_elements (attempts record !! "google") with
      | Some coords => Some coords
      | None => two_elements (attempts record !! "opencage")
      end
  end.

(** Records and geocoders of the examples. *)
Definition clinic_a : clinic :=
  {| id := 1; name := "ABC Clinic"; address := "Al Wahda Mall Area, Abu Dhabi, UAE";
     phone := "+971 26435555"; attempts := ∅ |}.

Definition clinic_b : clinic :=
  {| id := 2; name := "XYZ Pharmacy"; address := "Sheikh Zayed Road, Dubai, UAE";
     phone := ""; attempts := ∅ |}.

(** A geocoder that always answers (24.45, 54.37), inside the box. *)
Definition in_abu_dhabi (n : nat) (q : string) : option (pynum * pynum) :=
  Some (Fin (2445 # 100), Fin (5437 # 100)).

(** A geocoder that always answers (40.7, -74.0), outside the box. *)
Definition in_new_york (n : nat) (q : string) : option (pynum * pynum) :=
  Some (Fin (407 # 10), Fin (-74 # 1)).

(** The provider's entry of a record passes the bounds test whenever it is a
    list of two elements. *)
Definition key_valid (k : string) (c : clinic) : Prop :=
  forall lat lng,
    attempts c !! k = Some (JList [lat; lng]) ->
    is_valid_uae_coordinates lat lng = Ok true.

(** The values the main loop writes: the empty list, or an accepted pair. *)
Definition stored_value (v : jval) : Prop :=
  v = JList [] \/
  exists x y, v = JList [JNum x; JNum y] /\
              is_valid_uae_coordinates (JNum x) (JNum y) = Ok true.

(** How the main loop can leave a record: as it was; marked, when the cap
    stopped the run at it; or with the stored answer of its lookup. *)
Inductive left_as (p : provider) (c : clinic) : clinic -> Prop :=
| left_alone : left_as p c c
| left_marked : should_geocode p c = true -> left_as p c (mark p c)
| left_looked v :
    should_geocode p c = true -> stored_value v ->
    left_as p c (set_attempt (key p) v (mark p c)).

(** How a run without cap leaves a record: skipped, or looked up. *)
Inductive completed (p : provider) (c : clinic) : clinic -> Prop :=
| completed_skipped : should_geocode p c = false -> completed p c c
| completed_looked v :
    should_geocode p c = true -> stored_value v ->
    completed p c (set_attempt (key p) v (mark p c)).

(** What the proofs use of a pass: the writes that initialise or mark a
    record either leave it or set its locationiq entry to the empty list; a
    record that was looked up is not selected again; and a record of the
    input, once initialised, has no pair under the provider's key. *)
Record pass_ok (p : provider) : Prop := {
  init_shape : forall c,
    init p c = c \/ init p c = set_attempt "locationiq" (JList []) c;
  mark_shape : forall c,
    mark p c = c \/ mark p c = set_attempt "locationiq" (JList []) c;
  written_done : forall c v,
    should_geocode p (set_attempt (key p) v (mark p c)) = false;
  init_key_valid : forall c, normalized c -> key_valid (key p) (init p c)
}.

(** The located file after an uncapped opencage run on the two records of
    the examples, from an absent file, every answer being (24.45, 54.37). *)
Definition after_opencage : list clinic :=
  [ set_attempt "opencage" (JList [num (2445 # 100); num (5437 # 100)])
      (set_attempt "locationiq" (JList []) clinic_a);
    set_attempt "opencage" (JList [num (2445 # 100); num (5437 # 100)])
      (set_attempt "locationiq" (JList []) clinic_b) ].

Definition first_opencage_run : run :=
  {| final := after_opencage;
     lookups := [set_attempt "locationiq" (JList []) clinic_a;
                 set_attempt "locationiq" (JList []) clinic_b];
     checkpoints := [] |}.

(** A record whose only coordinates are google's. *)
Definition located_by_google : clinic :=
  set_attempt "locationiq" (JList [])
    (set_attempt "opencage" (JList [])
       (set_attempt "google" (JList [num (241 # 10); num (543 # 10)]) clinic_a)).

(** A record that locationiq located. *)
Definition located_by_locationiq : clinic :=
  set_attempt "locationiq" (JList [num (2445 # 100); num (5437 # 100)]) clinic_a.

(** The two records of the examples after locationiq failed on both. *)
Definition both_failed : list clinic :=
  [set_attempt "locationiq" (JList []) clinic_a;
   set_attempt "locationiq" (JList []) clinic_b].

Definition capped_opencage_run : run :=
  {| final := [set_attempt "opencage"
                 (JList [num (2445 # 100); num (5437 # 100)])
                 (set_attempt "locationiq" (JList []) clinic_a);
               set_attempt "locationiq" (JList []) clinic_b];
     lookups := [set_attempt "locationiq" (JList []) clinic_a];
     checkpoints := [] |}.

(** How a fallback run leaves a record: untouched, or with a stored value
    under the provider's key, a lookup having been issued for it. *)
Definition untouched_or_asked (p : provider) (r : run) (c c' : clinic) : Prop :=
  c' = c \/ (c ∈ lookups r /\ exists v, c' = set_attempt (key p) v c).

(** The four fields stage 1 writes. *)
Definition fields (c : clinic) : Z * string * string * string :=
  (id c, name c, address c, phone c).

(** A record of the located file and the record saved in its place agree
    on the four fields and on every entry but the provider's own. *)
Definition same_but (k : string) (c c' : clinic) : Prop :=
  fields c' = fields c /\
  forall k', k' <> k -> attempts c' !! k' = attempts c !! k'.

(** A located file with a pair under the opencage key that is not made of
    numbers, and one with a valid pair. *)
(** A located file after a locationiq pass that located nothing, in which
    the first record then got an opencage pair in New York. *)
Definition misplaced_file : list clinic :=
  [set_attempt "opencage" (JList [num (407 # 10); num (-74 # 1)])
     (set_attempt "locationiq" (JList []) clinic_a);
   set_attempt "locationiq" (JList []) clinic_b].

(** The opencage run on it, every answer being (24.45, 54.37). *)
Definition healed_run : run :=
  {| final := [set_attempt "opencage" (JList [])
                 (set_attempt "locationiq" (JList []) clinic_a);
               set_attempt "opencage" (JList [num (2445 # 100); num (5437 # 100)])
                 (set_attempt "locationiq" (JList []) clinic_b)];
     lookups := [set_attempt "locationiq" (JList []) clinic_b];
     checkpoints := [] |}.

(** The opencage run on [both_failed], every answer being (40.7, -74.0). *)
Definition new_york_run : run :=
  {| final := [set_attempt "opencage" (JList [])
                 (set_attempt "locationiq" (JList []) clinic_a);
               set_attempt "opencage" (JList [])
                 (set_attempt "locationiq" (JList []) clinic_b)];
     lookups := both_failed;
     checkpoints := [] |}.

Definition text_pair : clinic :=
  set_attempt "opencage" (JList [JStr "24.45"; JStr "54.37"]) clinic_a.

Definition tenth_checkpoint_input : list clinic :=
  [clinic_a; clinic_b].

(** The six tags, in the order [extract_tags] appends them. *)
Definition all_tags : list string :=
  ["pharmacy"; "hospital"; "clinic"; "optical"; "dental"; "lab"].

(** The coordinates of an output object. *)
Definition coordinates (o : out) : jval * jval := (lat o, lon o).

(** The digits [normalize_single_phone] works on: the phone stripped, every
    character but digits and [+] removed, a leading [+] dropped, leading
    zeros dropped. *)
Definition cleaned_digits (phone : string) : string :=
  let phone := Str.strip phone in
  let digits_only :=
    Re.sub false (Re.Cls (Re.CNot (Re.CUnion Re.CDigit (chr "+")))) [] phone in
  let digits_only :=
    if Str.startswith digits_only "+" then Str.slice_from 1 digits_only
    else digits_only in
  Str.lstrip_chars "0" digits_only.

(** The last step of [normalize_single_phone]: the length test and the
    formatting. *)
Definition check_parts (parts : option (string * string)) : res (option string) :=
  match parts with
  | None => Ok None
  | Some (area_code, rest) =>
      let len := String.length rest in
      if Str.mem area_code ["2"; "4"] then
        if Nat.ltb len 7 || Nat.ltb 8 len then Ok None
        else Ok (Some ("+971 " +:+ area_code +:+ rest))
      else if Str.eqb area_code "5" then
        if Nat.ltb len 8 || Nat.ltb 9 len then Ok None
        else Ok (Some ("+971 " +:+ area_code +:+ rest))
      else Ok None
  end.

Definition digit_or_plus (a : ascii) : bool := Str.is_digit a || Ascii.eqb "+" a.

Fixpoint all_chars (p : ascii -> bool) (s : string) : bool :=
  match s with
  | EmptyString => true
  | String a s' => p a && all_chars p s'
  end.

(** A text of ASCII characters only: every byte is below 128.  On such a
    text [\s], [\d], [\w], [\b], [re.IGNORECASE], [str.strip], [str.upper],
    [str.lower], [str.title] and [int] are the ASCII ones of the embedding. *)
Definition ascii_text (s : string) : bool :=
  all_chars (fun a => N.ltb (Str.code a) 128) s.

(** The shape of a number [normalize_single_phone] returns: ["+971 "], an
    area code 2, 4 or 5, and 7 to 8 (area 2 and 4) or 8 to 9 (area 5)
    characters, each a digit or a plus sign. *)
Definition canonical (s : string) : Prop :=
  exists area rest,
    s = "+971 " +:+ area +:+ rest /\
    all_chars digit_or_plus rest = true /\
    (((area = "2" \/ area = "4") /\ 7 <= String.length rest <= 8) \/
     (area = "5" /\ 8 <= String.length rest <= 9)).

(** The candidates of a phone field: the pieces between [/], [,] and [;],
    stripped, the empty ones left out. *)
Definition candidates (phone_str : string) : list string :=
  List.map Str.strip
    (List.filter (fun p => Str.truthy (Str.strip p))
                 (Re.split (chr "/,;") phone_str)).

(** The number a candidate gives on its own, in the first pass. *)
Definition first_number (c : string) : option string :=
  match normalize_single_phone c None with
  | Ok (Some n) => Some n
  | _ => None
  end.

(** The area code read off a number: group 1 of the pattern
    [+971 ], one of 2, 4, 5, digits. *)
Definition area_of (n : string) : option string :=
  match Re.search false
          (Re.seq [Re.Lit "+971 "; Re.Group (Re.Cls (chr "245")); Re.Plus Re.CDigit])
          n with
  | Some g => Some (default EmptyString g)
  | None => None
  end.

(** The inferred area code after the first pass: that of the last number
    that shows one. *)
Definition inferred_from (firsts : list string) : option string :=
  fold_left (fun o n => match area_of n with Some a => Some a | None => o end)
            firsts None.

(** The number a candidate gives in the second pass: none when the first
    pass took it. *)
Definition second_number (inferred : option string) (c : string) : option string :=
  match first_number c with
  | Some _ => None
  | None =>
      match normalize_single_phone c inferred with
      | Ok (Some n) => Some n
      | _ => None
      end
  end.

(** The elements of [l] that are not in [seen], each once, in order. *)
Fixpoint add_new (seen l : list string) : list string :=
  match l with
  | [] => []
  | x :: l' =>
      if Str.mem x seen then add_new seen l'
      else x :: add_new (seen ++ [x]) l'
  end.

(** The numbers of the two passes over a field, in the words of the
    script's comments: every candidate on its own; then, when an area code
    was inferred, the candidates the first pass left, with that code. *)
Definition first_numbers (phone_str : string) : list string :=
  omap first_number (candidates phone_str).

Definition second_numbers (phone_str : string) : list string :=
  let inferred := inferred_from (first_numbers phone_str) in
  if opt_truthy inferred
  then add_new (first_numbers phone_str)
               (omap (second_number inferred) (candidates phone_str))
  else [].

Definition starts_with_space (s : string) : bool :=
  match s with
  | String a _ => Str.is_space a
  | EmptyString => false
  end.

(** Every whitespace character of [s] is a space that no whitespace
    follows. *)
Fixpoint single_spaced (s : string) : bool :=
  match s with
  | EmptyString => true
  | String a s' =>
      (if Str.is_space a then Ascii.eqb a " " && negb (starts_with_space s')
       else true)
      && single_spaced s'
  end.

(** The seven localities as [extract_emirate_from_address] names them. *)
Definition localities : list string :=
  ["Abu Dhabi"; "Dubai"; "Sharjah"; "Ajman"; "Umm Al Quwain"; "Ras Al Khaimah";
   "Fujairah"].

(** The last character of a text. *)
Fixpoint last_char (s : string) : option ascii :=
  match s with
  | EmptyString => None
  | String a EmptyString => Some a
  | String _ s' => last_char s'
  end.

(** [s] ends in a character that satisfies [p]. *)
Definition ends_in (p : ascii -> bool) (s : string) : bool :=
  match last_char s with Some a => p a | None => false end.

Definition comma_or_space (a : ascii) : bool := Ascii.eqb a "," || Str.is_space a.

Import Csv.

(** The id a row gets: its provider number, stripped, as [int] reads it. *)
Definition provider_id (r : row) : option Z :=
  match get r "PROVIDER NUMBER" with
  | Some number => py_int (Str.strip number)
  | None => None
  end.

Definition phone_field (r : row) : string :=
  default EmptyString (get r "Phone No").

(** A row the loop gets past: its line reaches the provider number column,
    and no candidate of its phone field comes down to the digits ["971"]. *)
Definition passable (r : row) : Prop :=
  r !! "PROVIDER NUMBER" <> Some None /\
  forall c, c ∈ candidates (phone_field r) -> cleaned_digits c <> "971".

(** A row whose four columns hold ASCII text. *)
Definition ascii_row (r : row) : Prop :=
  Forall (fun k => from_option ascii_text true (get r k) = true)
         ["PROVIDER NUMBER"; "PROVIDER NAME"; "ADDRESS"; "Phone No"].

Definition row_of (number name address phone : string) : row :=
  <["PROVIDER NUMBER" := Some number]>
    (<["PROVIDER NAME" := Some name]>
       (<["ADDRESS" := Some address]> (<["Phone No" := Some phone]> ∅))).

Definition sample_rows : list row :=
  [row_of "101" "City  Clinic (Dubai)" "Al Wasl Rd ,Jumeirah" "04-3456789";
   row_of "n/a" "No Number Pharmacy" "Main St, Ajman" "";
   row_of " 7_0 " "Eye Centre" "Corniche, Abu Dhabi, UAE" "02 6123456 / 050 1234567";
   row_of "101" "City Clinic Branch" "Sharjah" "+971 6 5123456"].

Definition sample_results : list clinic :=
  [{| id := 101; name := "City Clinic (Dubai)";
      address := "Al Wasl Rd, Jumeirah, Dubai, UAE"; phone := "+971 43456789";
      attempts := ∅ |};
   {| id := 70; name := "Eye Centre"; address := "Corniche, Abu Dhabi, UAE";
      phone := "+971 26123456, +971 501234567"; attempts := ∅ |};
   {| id := 101; name := "City Clinic Branch"; address := "Sharjah, Sharjah, UAE";
      phone := ""; attempts := ∅ |}].

(** [not address or not address.strip()] *)
Definition blank (address : string) : bool :=
  negb (Str.truthy address) || negb (Str.truthy (Str.strip address)).







(** ** Text and phone normalisation *)

(** C4 (the code departs from it).  [clean_text] is not idempotent: on
    ["a-,"] the trailing comma is removed after the trailing dash was looked
    for, so a dash is left at the end, and a second application removes it. *)
Theorem clean_text_not_idempotent :
  clean_text "a-," = "a-" /\
  clean_text (clean_text "a-,") = "a" /\
  clean_text "a--" = "a-" /\
  clean_text (clean_text "a--") = "a".
Proof. vm_compute. repeat split. Qed.

(** C5 (the code departs from it).  The first two documented examples hold;
    the seven digits ["2223344"] with the inferred area code ["4"] give no
    number, because a first digit 2, 4 or 5 is taken as the area code before
    the inferred one is looked at; an 11-digit string and a string without
    digits give no number. *)
Theorem normalize_single_phone_examples :
  normalize_single_phone "00 971 2 6435555" None = Ok (Some "+971 26435555") /\
  normalize_single_phone "04-2223333" None = Ok (Some "+971 42223333") /\
  normalize_single_phone "2223344" (Some "4") = Ok None /\
  normalize_single_phone "12345678901" None = Ok None /\
  normalize_single_phone "abc" None = Ok None.
Proof. vm_compute. repeat split. Qed.

(** The same through the field: the partial number is lost. *)
Lemma normalize_phone_partial_lost :
  normalize_phone "04-2223333 / 2223344" = Ok "+971 42223333".
Proof. vm_compute. reflexivity. Qed.

(** A partial number whose first digit is not 2, 4 or 5 does get the
    inferred code. *)
Lemma normalize_phone_partial_kept :
  normalize_phone "02 6435556 / 6435555" = Ok "+971 26435556, +971 26435555".
Proof. vm_compute. reflexivity. Qed.

(** After the leading zeros the digits ["971"] alone make the script read
    past the end of the string. *)
Lemma normalize_single_phone_raises :
  normalize_single_phone "00971" None = Raise IndexError.
Proof. vm_compute. reflexivity. Qed.

(** A first digit 2, 4 or 5 is always taken as the area code: for such
    digits the inferred area code is never looked at, and so the branches
    of the script for seven digits with an inferred code, and for seven
    digits starting with 4, are never taken. *)
Lemma split_area_ignores_inferred (digits_only : string) (inferred : option string) :
  char_in digits_only 0 ["2"; "4"; "5"] = true ->
  split_area digits_only inferred = split_area digits_only None.
Proof.
  intros H. unfold split_area.
  destruct (Str.startswith digits_only "971"); [reflexivity|].
  destruct (Str.startswith digits_only "00971"); [reflexivity|].
  destruct (Nat.leb 2 _ && _ && _); [reflexivity|].
  rewrite H.
  assert (Hlen : Nat.leb 1 (String.length digits_only) = true)
    by (destruct digits_only; [discriminate H|reflexivity]).
  now rewrite Hlen.
Qed.

Lemma split_area_ignores_inferred_witness :
  split_area "2223344" (Some "4") = split_area "2223344" None.
Proof.
  apply (split_area_ignores_inferred "2223344" (Some "4")).
  vm_compute. reflexivity.
Defined.

(** C6 (the code departs from it).  Two spellings of one number in a field
    both succeed in the first pass, which does not look for duplicates: the
    canonical number is written twice. *)
Theorem normalize_phone_duplicate :
  normalize_phone "04-2223333, 04 2223333" = Ok "+971 42223333, +971 42223333".
Proof. vm_compute. reflexivity. Qed.

(** ** Address suffix *)

Lemma first_found_value (ic : bool) (pats : list (Re.regex * string)) (s v w : string) :
  Forall (fun rv => rv.2 = w) pats -> first_found ic pats s = Some v -> v = w.
Proof.
  induction 1 as [|[r u] pats Hu _ IH]; simpl; [discriminate|].
  destruct (Re.found ic r s); [|exact IH].
  intros [= <-]. exact Hu.
Qed.

(** The only country the address search can report is ["UAE"]. *)
Lemma extract_country_uae (address c : string) :
  extract_country_from_address address = Some c -> c = "UAE".
Proof.
  unfold extract_country_from_address.
  destruct (negb (Str.truthy address)); [discriminate|].
  apply first_found_value. repeat constructor.
Qed.

Lemma extract_emirate_nonempty (address e : string) :
  extract_emirate_from_address address = Some e -> Str.truthy address = true.
Proof. destruct address; [discriminate|reflexivity]. Qed.


(** ** Dataset build *)

Lemma pair_under_two_elements (k : string) (record : clinic) :
  pair_under k record = two_elements (attempts record !! k).
Proof.
  unfold pair_under, two_elements.
  destruct (attempts record !! k) as [[| | | |[|a [|b [|]]]|]|];
    try reflexivity; now destruct (truthy _).
Qed.

Lemma two_elements_empty (o : option jval) :
  empty_or_absent o -> two_elements o = None.
Proof. intros [->| ->]; reflexivity. Qed.

(** C10.  [get_coordinates] takes the locationiq entry when it is a list of
    two elements, otherwise the google entry under the same condition,
    otherwise the opencage entry, otherwise nothing; and a record gives an
    output object exactly when it gives coordinates. *)
Theorem get_coordinates_priority (record : clinic) :
  get_coordinates record = by_priority record /\
  (process_record record = None <-> by_priority record = None).
Proof.
  assert (H : get_coordinates record = by_priority record).
  { unfold get_coordinates, by_priority. now rewrite !pair_under_two_elements. }
  split; [exact H|].
  unfold process_record. rewrite H.
  destruct (by_priority record) as [[a b]|]; split; intros; congruence.
Qed.

(** C8.  With the locationiq and opencage entries empty (or absent), a
    google entry [[a, b]] gives an output object with [lat = a] and
    [lon = b], and an empty or absent google entry gives no object. *)
Theorem process_record_google (record : clinic) (g : option jval) (a b : jval) :
  empty_or_absent (attempts record !! "locationiq") ->
  empty_or_absent (attempts record !! "opencage") ->
  attempts record !! "google" = g ->
  (g = Some (JList [a; b]) ->
   exists o, process_record record = Some o /\ lat o = a /\ lon o = b) /\
  (empty_or_absent g -> process_record record = None).
Proof.
  intros Hl Ho Hg.
  unfold process_record, get_coordinates. rewrite !pair_under_two_elements.
  rewrite (two_elements_empty _ Hl), (two_elements_empty _ Ho), Hg.
  split.
  - intros ->. simpl. eexists. split; [reflexivity|]. split; reflexivity.
  - intros He. now rewrite (two_elements_empty _ He).
Qed.

Lemma process_record_google_witness :
  exists o, process_record located_by_google = Some o /\
            lat o = num (241 # 10) /\ lon o = num (543 # 10).
Proof.
  apply (process_record_google located_by_google
           (Some (JList [num (241 # 10); num (543 # 10)]))
           (num (241 # 10)) (num (543 # 10)));
    first [ right; vm_compute; reflexivity | vm_compute; reflexivity | reflexivity ].
Defined.

(** The same record, evaluated. *)
Lemma process_record_google_example :
  process_record located_by_google
  = Some {| out_name := "ABC Clinic";
            out_address := "Al Wahda Mall Area, Abu Dhabi, UAE, +971 26435555";
            lat := num (241 # 10); lon := num (543 # 10);
            tags := Some ["clinic"] |}.
Proof. vm_compute. reflexivity. Qed.

(** ** The provider passes *)

(** *** The bounding box *)

Lemma num_le_fin_l (q : Q) (x : pynum) :
  num_le (Fin q) x = true -> x = PosInf \/ exists a, x = Fin a /\ (q <= a)%Q.
Proof.
  destruct x as [a| | |]; simpl; try discriminate; [|now left].
  intros H. right. exists a. split; [reflexivity|]. apply Qle_bool_iff in H. exact H.
Qed.

Lemma num_le_fin_r (q : Q) (x : pynum) :
  num_le x (Fin q) = true -> x = NegInf \/ exists a, x = Fin a /\ (a <= q)%Q.
Proof.
  destruct x as [a| | |]; simpl; try discriminate; [|now left].
  intros H. right. exists a. split; [reflexivity|]. apply Qle_bool_iff in H. exact H.
Qed.

(** A number between two finite bounds is finite. *)
Lemma num_between (lo hi : Q) (x : pynum) :
  num_le (Fin lo) x && num_le x (Fin hi) = true ->
  exists a, x = Fin a /\ (lo <= a)%Q /\ (a <= hi)%Q.
Proof.
  intros [H1 H2]%andb_true_iff.
  apply num_le_fin_l in H1 as [->|(a & -> & Ha)]; [discriminate|].
  apply num_le_fin_r in H2 as [?|(b & [= <-] & Hb)]; [discriminate|].
  now exists a.
Qed.

Lemma as_num_bool_low (b : bool) (x : pynum) :
  as_num (JBool b) = Ok x -> num_le (Fin (45 # 2)) x = false.
Proof. intros [= <-]. now destruct b. Qed.

(** What [is_valid_uae_coordinates] accepts lies in the box. *)
Lemma is_valid_in_box (lat lng : jval) :
  is_valid_uae_coordinates lat lng = Ok true -> in_box lat lng.
Proof.
  unfold is_valid_uae_coordinates, bind.
  destruct (as_num lat) as [x|] eqn:Hx; [|discriminate].
  destruct (num_le (Fin (45 # 2)) x && num_le x (Fin (53 # 2))) eqn:Hlat;
    [|discriminate].
  destruct (as_num lng) as [y|] eqn:Hy; [|discriminate].
  intros [= Hlng].
  apply num_between in Hlat as (a & -> & Ha1 & Ha2).
  apply num_between in Hlng as (b & -> & Hb1 & Hb2).
  destruct lat as [|bl|x| | |]; try discriminate.
  { apply as_num_bool_low in Hx. simpl in Hx.
    apply Qle_bool_iff in Ha1. congruence. }
  destruct lng as [|bl|y| | |]; try discriminate.
  { injection Hy as <-. apply Qle_bool_iff in Hb1.
    destruct bl; vm_compute in Hb1; discriminate. }
  injection Hx as ->. injection Hy as ->.
  exists a, b. unfold num. auto 10.
Qed.

(** And everything in the box is accepted. *)
Lemma in_box_is_valid (lat lng : jval) :
  in_box lat lng -> is_valid_uae_coordinates lat lng = Ok true.
Proof.
  intros (a & b & -> & -> & Ha1 & Ha2 & Hb1 & Hb2).
  unfold is_valid_uae_coordinates, num. simpl.
  apply Qle_bool_iff in Ha1, Ha2, Hb1, Hb2.
  now rewrite Ha1, Ha2, Hb1, Hb2.
Qed.

(** On two numbers the test never raises. *)
Lemma is_valid_num (x y : pynum) :
  exists ok, is_valid_uae_coordinates (JNum x) (JNum y) = Ok ok.
Proof.
  unfold is_valid_uae_coordinates. simpl.
  destruct (_ && _); eauto.
Qed.

(** *** What a lookup stores *)

Lemma stored_total (result : option (pynum * pynum)) :
  exists v, stored result = Ok v.
Proof.
  destruct result as [[x y]|]; simpl; [|eauto].
  destruct (is_valid_num x y) as [ok ->]. simpl. eauto.
Qed.

Lemma stored_spec (result : option (pynum * pynum)) (v : jval) :
  stored result = Ok v -> stored_value v.
Proof.
  destruct result as [[x y]|]; simpl; [|intros [= <-]; now left].
  destruct (is_valid_uae_coordinates (JNum x) (JNum y)) as [[|]|] eqn:H; simpl;
    intros [= <-]; [right; eauto|now left].
Qed.

(** A result outside the box is stored as the empty list. *)
Lemma stored_outside (x y : pynum) :
  ~ in_box (JNum x) (JNum y) -> stored (Some (x, y)) = Ok (JList []).
Proof.
  intros Hout. simpl.
  destruct (is_valid_uae_coordinates (JNum x) (JNum y)) as [[|]|] eqn:H; simpl;
    [|reflexivity|].
  - now apply is_valid_in_box in H.
  - destruct (is_valid_num x y) as [ok Hok]. congruence.
Qed.

Lemma stored_value_pair (v lat lng : jval) :
  stored_value v -> v = JList [lat; lng] -> in_box lat lng.
Proof.
  intros [->|(x & y & -> & H)]; [discriminate|].
  intros [= <- <-]. now apply is_valid_in_box.
Qed.

(** *** The main loop *)

Lemma left_as_refl (p : provider) (l : list clinic) : Forall2 (left_as p) l l.
Proof. apply Forall_Forall2_diag, Forall_true. intros c. apply left_alone. Qed.

(** What the loop returns, record by record: the final list, the list of a
    run without cap, the checkpoints and the lookups. *)
Lemma loop_spec (p : provider) (max_requests : option Z)
      (geocode : nat -> string -> option (pynum * pynum)) (todo : list clinic) :
  forall done n looked saves r,
    loop p max_requests geocode done todo n looked saves = Ok r ->
    exists todo',
      final r = done ++ todo' /\
      Forall2 (left_as p) todo todo' /\
      (max_requests = None -> Forall2 (completed p) todo todo') /\
      (forall s, s ∈ checkpoints r ->
                 s ∈ saves \/ exists t, s = done ++ t /\ Forall2 (left_as p) todo t) /\
      (forall c, c ∈ lookups r ->
                 c ∈ looked \/
                 exists c0, c0 ∈ todo /\ should_geocode p c0 = true /\ c = mark p c0).
Proof.
  induction todo as [|c rest IH]; intros done n looked saves r H; simpl in H.
  - injection H as <-. exists []. simpl. rewrite app_nil_r.
    split; [reflexivity|]. split; [constructor|]. split; [constructor|].
    split; intros; now left.
  - destruct (should_geocode p c) eqn:Hs; simpl in H.
    + destruct (cap_reached max_requests n) eqn:Hcap.
      * injection H as <-. exists (mark p c :: rest). simpl.
        split; [reflexivity|].
        split; [constructor; [now apply left_marked|apply left_as_refl]|].
        split; [intros ->; discriminate|].
        split; intros; now left.
      * unfold bind in H.
        destruct (stored (geocode n (query (mark p c)))) as [v|] eqn:Hv;
          [|discriminate].
        apply stored_spec in Hv.
        apply IH in H as (t & Hfin & Hleft & Hfull & Hsaves & Hlook).
        exists (set_attempt (key p) v (mark p c) :: t).
        split; [now rewrite Hfin, <- app_assoc|].
        split; [constructor; [now apply left_looked|exact Hleft]|].
        split; [intros Hn; constructor; [now apply completed_looked|auto]|].
        split.
        -- intros s Hin. destruct (Hsaves s Hin) as [Hold|(t' & -> & Ht')].
           ++ destruct (Nat.eqb _ _); [|now left].
              apply elem_of_app in Hold as [Hold|Hnew%list_elem_of_singleton];
                [now left|].
              right. exists (set_attempt (key p) v (mark p c) :: rest).
              split; [exact Hnew|].
              constructor; [now apply left_looked|apply left_as_refl].
           ++ right. exists (set_attempt (key p) v (mark p c) :: t').
              split; [now rewrite <- app_assoc|].
              constructor; [now apply left_looked|exact Ht'].
        -- intros c1 Hin. destruct (Hlook c1 Hin) as [Hold|(c0 & Hc0 & Hs0 & ->)].
           ++ apply elem_of_app in Hold as [Hold|Hnew%list_elem_of_singleton];
                [now left|].
              subst c1. right. exists c. split; [left|]. auto.
           ++ right. exists c0. split; [now right|]. auto.
    + apply IH in H as (t & Hfin & Hleft & Hfull & Hsaves & Hlook).
      exists (c :: t).
      split; [now rewrite Hfin, <- app_assoc|].
      split; [constructor; [apply left_alone|exact Hleft]|].
      split; [intros Hn; constructor; [now apply completed_skipped|auto]|].
      split.
      * intros s Hin. destruct (Hsaves s Hin) as [Hold|(t' & -> & Ht')];
          [now left|].
        right. exists (c :: t'). split; [now rewrite <- app_assoc|].
        constructor; [apply left_alone|exact Ht'].
      * intros c1 Hin. destruct (Hlook c1 Hin) as [Hold|(c0 & Hc0 & Hs0 & ->)];
          [now left|].
        right. exists c0. split; [now right|]. auto.
Qed.

(** The loop never raises. *)
Lemma loop_total (p : provider) (max_requests : option Z)
      (geocode : nat -> string -> option (pynum * pynum)) (todo : list clinic) :
  forall done n looked saves,
    exists r, loop p max_requests geocode done todo n looked saves = Ok r.
Proof.
  induction todo as [|c rest IH]; intros done n looked saves; simpl; [eauto|].
  destruct (should_geocode p c); simpl; [|apply IH].
  destruct (cap_reached max_requests n); [eauto|].
  destruct (stored_total (geocode n (query (mark p c)))) as [v ->]. simpl.
  apply IH.
Qed.

(** With no record selected the loop changes nothing and asks nothing. *)
Lemma loop_idle (p : provider) (max_requests : option Z)
      (geocode : nat -> string -> option (pynum * pynum)) (todo : list clinic) :
  Forall (fun c => should_geocode p c = false) todo ->
  forall done n looked saves,
    loop p max_requests geocode done todo n looked saves
    = Ok {| final := done ++ todo; lookups := looked; checkpoints := saves |}.
Proof.
  induction 1 as [|c rest Hc _ IH]; intros done n looked saves; simpl.
  - now rewrite app_nil_r.
  - rewrite Hc. simpl. rewrite IH. now rewrite <- app_assoc.
Qed.

(** *** The three passes *)

Lemma has_attempt_set (k : string) (v : jval) (c : clinic) :
  has_attempt k (set_attempt k v c) = true.
Proof. unfold has_attempt, set_attempt. simpl. now rewrite lookup_insert_eq. Qed.

Lemma has_attempt_normalized (k : string) (c : clinic) :
  normalized c -> has_attempt k c = false.
Proof. unfold has_attempt, normalized. intros ->. now rewrite lookup_empty. Qed.

Lemma init_if_missing_shape (c : clinic) :
  init_if_missing c = c \/ init_if_missing c = set_attempt "locationiq" (JList []) c.
Proof. unfold init_if_missing. destruct (has_attempt _ c); auto. Qed.

Lemma init_if_missing_other (k : string) (c : clinic) :
  normalized c -> k <> "locationiq" -> key_valid k (init_if_missing c).
Proof.
  intros Hn Hk lat lng. unfold init_if_missing.
  rewrite (has_attempt_normalized _ _ Hn). simpl.
  rewrite lookup_insert_ne by congruence. rewrite Hn, lookup_empty. discriminate.
Qed.

Lemma locationiq_ok : pass_ok locationiq.
Proof.
  split; simpl; auto.
  - intros c v. now rewrite has_attempt_set.
  - intros c _ lat lng. simpl. rewrite lookup_insert_eq. discriminate.
Qed.

Lemma opencage_ok : pass_ok opencage.
Proof.
  split; simpl; auto using init_if_missing_shape.
  - intros c v. unfold opencage_should_geocode.
    rewrite has_attempt_set. simpl.
    destruct (<[_:=_]> _ !! "locationiq") as [[| | | |l|]|]; try reflexivity.
    now destruct (Nat.ltb 0 (length l)).
  - intros c Hn. now apply init_if_missing_other.
Qed.

Lemma google_ok : pass_ok google.
Proof.
  split; simpl; auto using init_if_missing_shape.
  - intros c v. unfold google_should_geocode. now rewrite has_attempt_set.
  - intros c Hn. now apply init_if_missing_other.
Qed.

Lemma is_pass_ok (p : provider) : is_pass p -> pass_ok p.
Proof.
  intros [->|[->| ->]]; auto using locationiq_ok, opencage_ok, google_ok.
Qed.

Lemma init_id (p : provider) (c : clinic) : pass_ok p -> id (init p c) = id c.
Proof. intros Hp. now destruct (init_shape p Hp c) as [-> | ->]. Qed.

Lemma mark_id (p : provider) (c : clinic) : pass_ok p -> id (mark p c) = id c.
Proof. intros Hp. now destruct (mark_shape p Hp c) as [-> | ->]. Qed.

(** *** Records within the box *)

Lemma bounded_normalized (c : clinic) : normalized c -> bounded c.
Proof. intros Hn k lat lng. rewrite Hn, lookup_empty. discriminate. Qed.

Lemma bounded_set_stored (k : string) (v : jval) (c : clinic) :
  bounded c -> stored_value v -> bounded (set_attempt k v c).
Proof.
  intros Hc Hv k' lat lng. simpl.
  destruct (decide (k = k')) as [<-|Hne].
  - rewrite lookup_insert_eq. intros [= ->]. now apply (stored_value_pair _ _ _ Hv).
  - rewrite lookup_insert_ne by exact Hne. apply Hc.
Qed.

Lemma bounded_set_empty (k : string) (c : clinic) :
  bounded c -> bounded (set_attempt k (JList []) c).
Proof. intros Hc. apply bounded_set_stored; [exact Hc|now left]. Qed.

Lemma bounded_init (p : provider) (c : clinic) :
  pass_ok p -> bounded c -> bounded (init p c).
Proof.
  intros Hp Hc. destruct (init_shape p Hp c) as [-> | ->];
    auto using bounded_set_empty.
Qed.

Lemma bounded_mark (p : provider) (c : clinic) :
  pass_ok p -> bounded c -> bounded (mark p c).
Proof.
  intros Hp Hc. destruct (mark_shape p Hp c) as [-> | ->];
    auto using bounded_set_empty.
Qed.

Lemma bounded_left_as (p : provider) (c c' : clinic) :
  pass_ok p -> left_as p c c' -> bounded c -> bounded c'.
Proof.
  intros Hp [| |v _ Hv] Hc; auto using bounded_mark, bounded_set_stored.
Qed.

Lemma key_valid_set_stored (k : string) (v : jval) (c : clinic) :
  stored_value v -> key_valid k (set_attempt k v c).
Proof.
  intros Hv lat lng. simpl. rewrite lookup_insert_eq. intros [= ->].
  destruct Hv as [Hv|(x & y & [= -> ->] & Hv)]; [discriminate|exact Hv].
Qed.

(** *** Merge and revalidation *)

Lemma dict_fold_lookup (l : list clinic) :
  forall (d : gmap Z clinic) (k : Z),
    is_Some (fold_left (fun d c => <[id c := c]> d) l d !! k)
    <-> is_Some (d !! k) \/ k ∈ id <$> l.
Proof.
  induction l as [|c l IH]; intros d k; simpl.
  - split; [now left|]. intros [H|H]; [exact H|]. now apply elem_of_nil in H.
  - rewrite IH, lookup_insert_is_Some, elem_of_cons.
    destruct (decide (id c = k)) as [<-|Hne]; intuition congruence.
Qed.

Lemma dict_by_id_lookup (l : list clinic) (k : Z) :
  is_Some (dict_by_id l !! k) <-> k ∈ id <$> l.
Proof.
  unfold dict_by_id. rewrite dict_fold_lookup, lookup_empty.
  split; [intros [[? [=]]|H]; exact H|now right].
Qed.

Lemma dict_set_elem (k : Z) (v : clinic) (d : list (Z * clinic)) (kc : Z * clinic) :
  kc ∈ dict_set k v d -> kc = (k, v) \/ kc ∈ d.
Proof.
  induction d as [|[k' v'] d IH]; simpl.
  - intros H%list_elem_of_singleton. now left.
  - destruct (Z.eqb k k').
    + intros [->|H]%elem_of_cons; [now left|right; now right].
    + intros [->|H]%elem_of_cons; [right; now left|].
      destruct (IH H) as [->|H']; [now left|right; now right].
Qed.

Lemma dict_set_keys (k : Z) (v : clinic) (d : list (Z * clinic)) (k' : Z) :
  k' = k \/ k' ∈ d.*1 -> k' ∈ (dict_set k v d).*1.
Proof.
  induction d as [|[k0 v0] d IH]; simpl.
  - intros [->|H]; [now left|now apply elem_of_nil in H].
  - destruct (Z.eqb k k0) eqn:E; simpl.
    + apply Z.eqb_eq in E. subst k0. rewrite !elem_of_cons. intuition congruence.
    + rewrite !elem_of_cons. intuition congruence.
Qed.

Lemma input_fold_sound (clinics : list clinic) :
  forall d kc,
    kc ∈ fold_left (fun d c => dict_set (id c) c d) clinics d ->
    kc ∈ d \/ (kc.2 ∈ clinics /\ id kc.2 = kc.1).
Proof.
  induction clinics as [|c l IH]; intros d kc; simpl; [now left|].
  intros H. destruct (IH _ _ H) as [H'|[H1 H2]].
  - destruct (dict_set_elem _ _ _ _ H') as [->|H'']; [|now left].
    right. split; [now left|reflexivity].
  - right. split; [now right|exact H2].
Qed.

Lemma input_fold_complete (clinics : list clinic) :
  forall d k,
    k ∈ d.*1 \/ k ∈ id <$> clinics ->
    k ∈ (fold_left (fun d c => dict_set (id c) c d) clinics d).*1.
Proof.
  induction clinics as [|c l IH]; intros d k; simpl.
  - intros [H|H]; [exact H|now apply elem_of_nil in H].
  - intros H. apply IH. rewrite elem_of_cons in H.
    destruct H as [H|[->|H]]; [left|left|now right];
      apply dict_set_keys; auto.
Qed.

(** The items of the input: each is a record of the input under its own id,
    and every id of the input is a key. *)
Lemma input_items_sound (clinics : list clinic) (k : Z) (c : clinic) :
  (k, c) ∈ input_items clinics -> c ∈ clinics /\ id c = k.
Proof.
  intros H. apply input_fold_sound in H as [H|H]; [|exact H].
  now apply elem_of_nil in H.
Qed.

Lemma input_items_complete (clinics : list clinic) (k : Z) :
  k ∈ id <$> clinics -> exists c, (k, c) ∈ input_items clinics.
Proof.
  intros H.
  assert (Hk : k ∈ (input_items clinics).*1)
    by (apply input_fold_complete; now right).
  apply list_elem_of_fmap in Hk as ([k' c] & -> & Hin). now exists c.
Qed.

(** The merge appends initialised records of the input, and afterwards every
    key of the items is an id of the list. *)
Lemma merge_new_spec (p : provider) (items : list (Z * clinic)) :
  pass_ok p ->
  forall l d,
    (forall k c, (k, c) ∈ items -> id c = k) ->
    (forall k, is_Some (d !! k) -> k ∈ id <$> l) ->
    exists extra,
      merge_new p items l d = l ++ extra /\
      Forall (fun c => exists k c0, (k, c0) ∈ items /\ c = init p c0) extra /\
      (forall k c, (k, c) ∈ items -> k ∈ id <$> (l ++ extra)).
Proof.
  intros Hp. induction items as [|[k c] items IH]; intros l d Hid Hd; simpl.
  - exists []. rewrite app_nil_r. split; [reflexivity|]. split; [constructor|].
    intros k c H. now apply elem_of_nil in H.
  - destruct (d !! k) as [c1|] eqn:Hk.
    + destruct (IH l d) as (extra & Heq & Hex & Hcov).
      { intros k' c' H. apply Hid. now right. }
      { exact Hd. }
      exists extra. split; [exact Heq|]. split.
      * eapply Forall_impl; [exact Hex|]. intros c' (k' & c0 & H & ->).
        exists k', c0. split; [now right|reflexivity].
      * intros k' c' [[= -> ->]|H]%elem_of_cons; [|eauto].
        rewrite fmap_app. apply elem_of_app. left. apply Hd. now rewrite Hk.
    + destruct (IH (l ++ [init p c]) (<[k := init p c]> d))
        as (extra & Heq & Hex & Hcov).
      { intros k' c' H. apply Hid. now right. }
      { intros k' [->|[_ H]]%lookup_insert_is_Some; rewrite fmap_app, elem_of_app.
        - right. simpl. rewrite (init_id p c Hp), (Hid k' c); [now left|now left].
        - left. now apply Hd. }
      exists (init p c :: extra). rewrite <- app_assoc in Heq. simpl in Heq.
      split; [exact Heq|]. split.
      * constructor; [exists k, c; split; [now left|reflexivity]|].
        eapply Forall_impl; [exact Hex|]. intros c' (k' & c0 & H & ->).
        exists k', c0. split; [now right|reflexivity].
      * intros k' c' [[= -> ->]|H]%elem_of_cons.
        -- rewrite fmap_app, elem_of_app. right. simpl.
           rewrite (init_id p c Hp), (Hid k c); [now left|now left].
        -- specialize (Hcov k' c' H). now rewrite <- app_assoc in Hcov.
Qed.

(** With every key already known the merge adds nothing. *)
Lemma merge_new_known (p : provider) (items : list (Z * clinic))
      (l : list clinic) (d : gmap Z clinic) :
  (forall k c, (k, c) ∈ items -> is_Some (d !! k)) ->
  merge_new p items l d = l.
Proof.
  induction items as [|[k c] items IH]; intros H; simpl; [reflexivity|].
  destruct (H k c) as [c1 ->]; [now left|].
  apply IH. intros k' c' Hin. apply (H k' c'). now right.
Qed.

Lemma revalidate_spec (k : string) (c c' : clinic) :
  revalidate k c = Ok c' ->
  (c' = c \/ c' = set_attempt k (JList []) c) /\ key_valid k c'.
Proof.
  unfold revalidate.
  destruct (attempts c !! k) as [v|] eqn:E.
  2: { intros [= <-]. split; [now left|]. intros lat lng. rewrite E. discriminate. }
  assert (Hsame : Ok c = Ok c' ->
                  (forall lat lng, v <> JList [lat; lng]) ->
                  (c' = c \/ c' = set_attempt k (JList []) c) /\ key_valid k c').
  { intros [= <-] Hv. split; [now left|]. intros lat lng. rewrite E.
    intros [= ->]. now destruct (Hv lat lng). }
  destruct v as [| | | |[|lat [|lng [|]]]|]; try (intros H; now apply Hsame).
  unfold bind. destruct (is_valid_uae_coordinates lat lng) as [[|]|] eqn:Hv;
    [| |discriminate]; intros [= <-].
  - split; [now left|]. intros a b. rewrite E. now intros [= <- <-].
  - split; [now right|]. apply key_valid_set_stored. now left.
Qed.

Lemma revalidate_valid (k : string) (c : clinic) :
  key_valid k c -> revalidate k c = Ok c.
Proof.
  unfold revalidate, key_valid. intros H.
  destruct (attempts c !! k) as [[| | | |[|lat [|lng [|]]]|]|]; try reflexivity.
  now rewrite (H lat lng eq_refl).
Qed.

Lemma validate_spec (k : string) (l : list clinic) :
  forall l',
    validate k l = Ok l' ->
    Forall2 (fun c c' => c' = c \/ c' = set_attempt k (JList []) c) l l' /\
    Forall (key_valid k) l'.
Proof.
  induction l as [|c l IH]; intros l'; simpl.
  - intros [= <-]. split; constructor.
  - unfold bind. destruct (revalidate k c) as [c'|] eqn:Hc; [|discriminate].
    destruct (validate k l) as [r|]; [|discriminate].
    intros [= <-]. destruct (IH r eq_refl) as [H1 H2].
    apply revalidate_spec in Hc as [Hc1 Hc2].
    split; constructor; assumption.
Qed.

Lemma validate_valid (k : string) (l : list clinic) :
  Forall (key_valid k) l -> validate k l = Ok l.
Proof.
  induction 1 as [|c l Hc _ IH]; simpl; [reflexivity|].
  now rewrite (revalidate_valid k c Hc), IH.
Qed.

(** *** The list the loop starts from *)

Lemma revalidated_ids (k : string) (l l' : list clinic) :
  Forall2 (fun c c' => c' = c \/ c' = set_attempt k (JList []) c) l l' ->
  id <$> l' = id <$> l.
Proof.
  induction 1 as [|c c' l l' Hc _ IH]; [reflexivity|].
  rewrite !fmap_cons, IH. now destruct Hc as [-> | ->].
Qed.

Lemma revalidated_bounded (k : string) (l l' : list clinic) :
  Forall2 (fun c c' => c' = c \/ c' = set_attempt k (JList []) c) l l' ->
  Forall bounded l -> Forall bounded l'.
Proof.
  induction 1 as [|c c' l l' Hc _ IH]; intros Hb; [constructor|].
  apply Forall_cons in Hb as [Hb1 Hb2]. constructor; [|now apply IH].
  destruct Hc as [-> | ->]; auto using bounded_set_empty.
Qed.

Lemma prepare_spec (p : provider) (clinics located_clinics located : list clinic) :
  pass_ok p ->
  Forall normalized clinics ->
  prepare p clinics located_clinics = Ok located ->
  Forall (key_valid (key p)) located /\
  (forall k, k ∈ id <$> clinics -> k ∈ id <$> located) /\
  (located = [] -> clinics = [] /\ located_clinics = []) /\
  (Forall bounded located_clinics -> Forall bounded located).
Proof.
  intros Hp Hn. unfold prepare.
  destruct located_clinics as [|c0 st].
  - intros [= <-]. split; [|split; [|split]].
    + apply Forall_fmap. eapply Forall_impl; [exact Hn|].
      intros c Hc. now apply (init_key_valid p Hp).
    + intros k (c & -> & Hc)%list_elem_of_fmap.
      apply list_elem_of_fmap. exists (init p c).
      split; [now rewrite (init_id p c Hp)|]. now apply list_elem_of_fmap_2.
    + intros H%fmap_nil_inv. now split.
    + intros _. apply Forall_fmap. eapply Forall_impl; [exact Hn|].
      intros c Hc. now apply bounded_init, bounded_normalized.
  - intros Hv.
    destruct (merge_new_spec p (input_items clinics) Hp (c0 :: st)
                (dict_by_id (c0 :: st))) as (extra & Hm & Hex & Hcov).
    { intros k c H. now apply input_items_sound in H. }
    { intros k H. now apply dict_by_id_lookup. }
    rewrite Hm in Hv. apply validate_spec in Hv as [Hrel Hkv].
    split; [exact Hkv|]. split; [|split].
    + intros k (c & Hc)%input_items_complete.
      rewrite (revalidated_ids _ _ _ Hrel). now apply (Hcov k c).
    + intros ->. apply Forall2_length in Hrel. discriminate.
    + intros Hb. apply (revalidated_bounded _ _ _ Hrel).
      apply Forall_app. split; [exact Hb|].
      eapply Forall_impl; [exact Hex|].
      intros c (k & c1 & Hin & ->). apply bounded_init; [exact Hp|].
      apply bounded_normalized. apply input_items_sound in Hin as [Hin _].
      rewrite Forall_forall in Hn. now apply Hn.
Qed.

(** *** Records stay within the box *)

Lemma left_as_bounded (p : provider) (l l' : list clinic) :
  pass_ok p -> Forall2 (left_as p) l l' -> Forall bounded l -> Forall bounded l'.
Proof.
  intros Hp. induction 1 as [|c c' l l' Hc _ IH]; intros Hb; [constructor|].
  apply Forall_cons in Hb as [Hb1 Hb2].
  constructor; [now apply (bounded_left_as p c c')|now apply IH].
Qed.

Lemma persisted_all_bounded (s : list clinic) : persisted s -> Forall bounded s.
Proof.
  induction 1 as [|p cap geocode clinics st r s _ IH Hpass Hn Hmain Hs];
    [constructor|].
  apply is_pass_ok in Hpass. unfold main, bind in Hmain.
  destruct (prepare p clinics st) as [located|] eqn:Hprep; [|discriminate].
  destruct (prepare_spec _ _ _ _ Hpass Hn Hprep) as (_ & _ & _ & Hb).
  specialize (Hb IH).
  apply loop_spec in Hmain as (t & Hfin & Hleft & _ & Hsaves & _).
  unfold saved in Hs. apply elem_of_app in Hs as [Hs|Hs%list_elem_of_singleton].
  - destruct (Hsaves s Hs) as [Hnil|(t' & -> & Ht')];
      [now apply elem_of_nil in Hnil|].
    now apply (left_as_bounded p located).
  - subst s. rewrite Hfin. now apply (left_as_bounded p located).
Qed.

(** The answer to each lookup is what the run saves: the record of the
    [i]-th lookup is in the final list with, under the provider's key, the
    value stored for the geocoder's [i]-th answer. *)
Lemma loop_answers (p : provider) (max_requests : option Z)
      (geocode : nat -> string -> option (pynum * pynum)) (todo : list clinic) :
  forall done n looked saves r,
    loop p max_requests geocode done todo n looked saves = Ok r ->
    length looked = n ->
    (exists t, final r = done ++ t) /\
    (exists more, lookups r = looked ++ more) /\
    (forall i c, lookups r !! i = Some c -> length looked <= i ->
                 exists v, stored (geocode i (query c)) = Ok v /\
                           set_attempt (key p) v c ∈ final r).
Proof.
  induction todo as [|c rest IH]; intros done n looked saves r H Hn; simpl in H.
  - injection H as <-. simpl. split; [exists []; now rewrite app_nil_r|].
    split; [exists []; now rewrite app_nil_r|].
    intros i c Hi Hle. apply lookup_lt_Some in Hi. lia.
  - destruct (should_geocode p c); simpl in H.
    + destruct (cap_reached max_requests n).
      * injection H as <-. simpl. split; [eauto|].
        split; [exists []; now rewrite app_nil_r|].
        intros i c0 Hi Hle. apply lookup_lt_Some in Hi. lia.
      * unfold bind in H.
        destruct (stored (geocode n (query (mark p c)))) as [v|] eqn:Hv;
          [|discriminate].
        apply IH in H as ([t Hfin] & [more Hlook] & Hans);
          [|rewrite length_app; simpl; lia].
        split; [exists (set_attempt (key p) v (mark p c) :: t);
                now rewrite Hfin, <- app_assoc|].
        split; [exists (mark p c :: more); now rewrite Hlook, <- app_assoc|].
        intros i c0 Hi Hle.
        destruct (decide (i = length looked)) as [->|Hne].
        -- rewrite Hlook, <- app_assoc in Hi.
           rewrite lookup_app_r, Nat.sub_diag in Hi by lia.
           injection Hi as <-. exists v. rewrite Hn. split; [exact Hv|].
           rewrite Hfin. apply elem_of_app. left. apply elem_of_app. right.
           now left.
        -- apply Hans; [exact Hi|]. rewrite length_app. simpl. lia.
    + apply IH in H as ([t Hfin] & Hlook & Hans); [|exact Hn].
      split; [exists (c :: t); now rewrite Hfin, <- app_assoc|].
      split; [exact Hlook|exact Hans].
Qed.

(** C1.  In every content the located file can have, starting from an absent
    file, every two-element list stored in a record lies in the box; and
    whenever a run started on such a content gets, for a lookup, an answer
    outside the box, the record of that lookup is saved with the empty list
    under the key of the pass: it keeps its four fields and holds no
    pair there. *)
Theorem persisted_pairs_in_box (s : list clinic) :
  persisted s ->
  (forall c k lat lng,
      c ∈ s -> attempts c !! k = Some (JList [lat; lng]) -> in_box lat lng) /\
  (forall p max_requests geocode clinics r i c x y,
      main p max_requests geocode clinics s = Ok r ->
      lookups r !! i = Some c ->
      geocode i (query c) = Some (x, y) ->
      ~ in_box (JNum x) (JNum y) ->
      exists c',
        c' ∈ final r /\ fields c' = fields c /\
        attempts c' !! key p = Some (JList [])).
Proof.
  intros Hs. split.
  - intros c k lat lng Hc. apply persisted_all_bounded in Hs.
    rewrite Forall_forall in Hs. now apply (Hs c Hc).
  - intros p max_requests geocode clinics r i c x y Hmain Hi Hgeo Hout.
    unfold main, bind in Hmain.
    destruct (prepare p clinics s) as [located|]; [|discriminate].
    apply loop_answers in Hmain as (_ & _ & Hans); [|reflexivity].
    destruct (Hans i c Hi) as (v & Hv & Hin); [simpl; lia|].
    rewrite Hgeo, (stored_outside x y Hout) in Hv. injection Hv as <-.
    exists (set_attempt (key p) (JList []) c).
    split; [exact Hin|]. split; [reflexivity|].
    simpl. apply lookup_insert_eq.
Qed.

Lemma first_opencage_run_eq :
  main opencage None in_abu_dhabi [clinic_a; clinic_b] [] = Ok first_opencage_run.
Proof. vm_compute. reflexivity. Qed.

Lemma persisted_pairs_in_box_witness :
  (forall c k lat lng,
      c ∈ both_failed -> attempts c !! k = Some (JList [lat; lng]) ->
      in_box lat lng) /\
  (exists c',
      c' ∈ final new_york_run /\
      fields c' = fields (set_attempt "locationiq" (JList []) clinic_a) /\
      attempts c' !! "opencage" = Some (JList [])).
Proof.
  assert (Hp : persisted both_failed).
  { apply (persisted_save locationiq None in_abu_dhabi [clinic_a; clinic_b] []
             {| final := both_failed; lookups := []; checkpoints := [] |}).
    - apply persisted_absent.
    - left. reflexivity.
    - repeat constructor.
    - vm_compute. reflexivity.
    - left. }
  split; [apply (persisted_pairs_in_box both_failed Hp)|].
  apply (proj2 (persisted_pairs_in_box both_failed Hp)
               opencage None in_new_york [clinic_a; clinic_b] new_york_run 0
               (set_attempt "locationiq" (JList []) clinic_a)
               (Fin (407 # 10)) (Fin (-74 # 1))).
  - vm_compute. reflexivity.
  - reflexivity.
  - reflexivity.
  - intros H%in_box_is_valid. vm_compute in H. discriminate.
Defined.

(** *** A second run *)

Lemma completed_facts (p : provider) (l l' : list clinic) :
  pass_ok p ->
  Forall2 (completed p) l l' ->
  Forall (key_valid (key p)) l ->
  Forall (fun c => should_geocode p c = false) l' /\
  Forall (key_valid (key p)) l' /\
  id <$> l' = id <$> l.
Proof.
  intros Hp. induction 1 as [|c c' l l' Hc _ IH]; intros Hkv.
  - repeat split; constructor.
  - apply Forall_cons in Hkv as [Hk1 Hk2].
    destruct (IH Hk2) as (H1 & H2 & H3). rewrite !fmap_cons, H3.
    destruct Hc as [Hskip|v Hsel Hv].
    + split; [now constructor|]. split; [now constructor|reflexivity].
    + split; [constructor; [apply (written_done p Hp)|exact H1]|].
      split; [constructor; [now apply key_valid_set_stored|exact H2]|].
      simpl. now rewrite (mark_id p c Hp).
Qed.

(** C3.  For each of the three passes: after a run without cap that
    completed, a second run without cap on the same input issues no lookup
    and writes, in its single save, the list the first run left. *)
Theorem second_run_idle (p : provider) (clinics located_clinics : list clinic)
        (geocode geocode' : nat -> string -> option (pynum * pynum)) (r : run) :
  is_pass p ->
  Forall normalized clinics ->
  main p None geocode clinics located_clinics = Ok r ->
  main p None geocode' clinics (final r)
  = Ok {| final := final r; lookups := []; checkpoints := [] |}.
Proof.
  intros Hp%is_pass_ok Hn Hmain. unfold main, bind in Hmain.
  destruct (prepare p clinics located_clinics) as [located|] eqn:Hprep;
    [|discriminate].
  destruct (prepare_spec _ _ _ _ Hp Hn Hprep) as (Hkv & Hids & Hnil & _).
  apply loop_spec in Hmain as (t & Hfin & _ & Hfull & _ & _).
  simpl in Hfin. specialize (Hfull eq_refl).
  destruct (completed_facts p located t Hp Hfull Hkv) as (Hdone & Hkv' & Hid').
  rewrite Hfin. unfold main.
  assert (Hprep' : prepare p clinics t = Ok t).
  { destruct t as [|c t'].
    - apply Forall2_nil_inv_r in Hfull. destruct (Hnil Hfull) as [-> _].
      reflexivity.
    - unfold prepare. rewrite merge_new_known; [now apply validate_valid|].
      intros k c1 [Hin Hk]%input_items_sound.
      apply dict_by_id_lookup. rewrite Hid'. apply Hids.
      subst k. now apply list_elem_of_fmap_2. }
  rewrite Hprep'. simpl. now rewrite (loop_idle p None geocode' t Hdone).
Qed.

Lemma second_run_idle_witness :
  main opencage None in_new_york [clinic_a; clinic_b] (final first_opencage_run)
  = Ok {| final := final first_opencage_run; lookups := []; checkpoints := [] |}.
Proof.
  apply (second_run_idle opencage [clinic_a; clinic_b] [] in_abu_dhabi in_new_york
                         first_opencage_run).
  - right. left. reflexivity.
  - repeat constructor.
  - vm_compute. reflexivity.
Defined.

(** *** Selection by the fallback passes *)

(** The opencage test, as its docstring says it: the locationiq entry is
    the empty list and there is no opencage entry. *)
Lemma opencage_should_geocode_true (c : clinic) :
  opencage_should_geocode c = true <->
  attempts c !! "locationiq" = Some (JList []) /\ attempts c !! "opencage" = None.
Proof.
  unfold opencage_should_geocode, has_attempt.
  destruct (attempts c !! "locationiq") as [[| | | |[|x l]|]|]; simpl;
    try (split; [discriminate|intros [[=] _]]).
  destruct (attempts c !! "opencage"); split; try discriminate; auto.
  now intros [_ [=]].
Qed.

(** Every lookup of an opencage run is for a record that locationiq tried
    and failed and that opencage never tried. *)
Lemma opencage_lookups_selected (max_requests : option Z)
      (geocode : nat -> string -> option (pynum * pynum))
      (clinics located_clinics : list clinic) (r : run) (c : clinic) :
  main opencage max_requests geocode clinics located_clinics = Ok r ->
  c ∈ lookups r ->
  attempts c !! "locationiq" = Some (JList []) /\ attempts c !! "opencage" = None.
Proof.
  unfold main, bind.
  destruct (prepare opencage clinics located_clinics) as [located|]; [|discriminate].
  intros (_ & _ & _ & _ & _ & Hlook)%loop_spec Hc.
  destruct (Hlook c Hc) as [Hnil|(c0 & _ & Hsel & ->)];
    [now apply elem_of_nil in Hnil|].
  now apply opencage_should_geocode_true.
Qed.

(** C2 (the code departs from it).  The google test looks at the google
    entry only: a record that locationiq located is selected, and the google
    pass issues a lookup for it; the opencage test rejects the same
    record. *)
Theorem google_looks_up_located_record :
  google_should_geocode located_by_locationiq = true /\
  opencage_should_geocode located_by_locationiq = false /\
  main google None in_abu_dhabi [clinic_a] [located_by_locationiq]
  = Ok {| final := [set_attempt "google"
                      (JList [num (2445 # 100); num (5437 # 100)])
                      located_by_locationiq];
          lookups := [located_by_locationiq];
          checkpoints := [] |}.
Proof. vm_compute. repeat split. Qed.

(** *** The request cap *)

(** C7 (the code departs from it).  The locationiq loop writes the empty
    list before it tests the cap.  With a cap of one request and two records
    without entry, the first is looked up and the second, for which no
    lookup is issued, is saved with an empty entry. *)
Theorem locationiq_cap_marks_unasked_record :
  main locationiq (Some 1%Z) in_abu_dhabi [clinic_a; clinic_b] [clinic_a; clinic_b]
  = Ok {| final := [set_attempt "locationiq"
                      (JList [num (2445 # 100); num (5437 # 100)]) clinic_a;
                    set_attempt "locationiq" (JList []) clinic_b];
          lookups := [set_attempt "locationiq" (JList []) clinic_a];
          checkpoints := [] |}.
Proof. vm_compute. reflexivity. Qed.

(** The opencage and google loops test the cap first: on the same two
    records, once locationiq failed on both, the second is left without
    entry. *)
Lemma fallback_cap_leaves_unasked_record :
  let failed c := set_attempt "locationiq" (JList []) c in
  main opencage (Some 1%Z) in_abu_dhabi [clinic_a; clinic_b]
       [failed clinic_a; failed clinic_b]
  = Ok {| final := [set_attempt "opencage"
                      (JList [num (2445 # 100); num (5437 # 100)]) (failed clinic_a);
                    failed clinic_b];
          lookups := [failed clinic_a];
          checkpoints := [] |} /\
  main google (Some 1%Z) in_abu_dhabi [clinic_a; clinic_b]
       [failed clinic_a; failed clinic_b]
  = Ok {| final := [set_attempt "google"
                      (JList [num (2445 # 100); num (5437 # 100)]) (failed clinic_a);
                    failed clinic_b];
          lookups := [failed clinic_a];
          checkpoints := [] |}.
Proof. vm_compute. split; reflexivity. Qed.

(** From an absent file the locationiq pass gives every record of the input
    an empty entry, issues no lookup and saves once. *)
Lemma locationiq_fresh_run (max_requests : option Z)
      (geocode : nat -> string -> option (pynum * pynum)) (clinics : list clinic) :
  main locationiq max_requests geocode clinics []
  = Ok {| final := set_attempt "locationiq" (JList []) <$> clinics;
          lookups := [];
          checkpoints := [] |}.
Proof.
  unfold main. simpl. apply loop_idle.
  apply Forall_fmap, Forall_true. intros c.
  simpl. now rewrite has_attempt_set.
Qed.

(** The lookups of the loop only grow, and a loop that does not mark changes
    no record but those it issued a lookup for. *)
Lemma loop_asked (p : provider) (max_requests : option Z)
      (geocode : nat -> string -> option (pynum * pynum)) (todo : list clinic) :
  (forall c, mark p c = c) ->
  forall done n looked saves r,
    loop p max_requests geocode done todo n looked saves = Ok r ->
    (forall c, c ∈ looked -> c ∈ lookups r) /\
    exists todo',
      final r = done ++ todo' /\ Forall2 (untouched_or_asked p r) todo todo'.
Proof.
  intros Hmark.
  induction todo as [|c rest IH]; intros done n looked saves r H; simpl in H.
  - injection H as <-. simpl. split; [auto|]. exists [].
    rewrite app_nil_r. split; [reflexivity|constructor].
  - destruct (should_geocode p c) eqn:Hs; simpl in H.
    + rewrite Hmark in H. destruct (cap_reached max_requests n).
      * injection H as <-. simpl. split; [auto|]. exists (c :: rest).
        split; [reflexivity|]. apply Forall_Forall2_diag, Forall_true.
        intros c'. now left.
      * unfold bind in H.
        destruct (stored (geocode n (query c))) as [v|]; [|discriminate].
        apply IH in H as (Hmono & t & Hfin & Hrel).
        split; [intros c' Hc'; apply Hmono, elem_of_app; now left|].
        exists (set_attempt (key p) v c :: t).
        split; [now rewrite Hfin, <- app_assoc|].
        constructor; [|exact Hrel].
        right. split; [|now exists v].
        apply Hmono, elem_of_app. right. now left.
    + apply IH in H as (Hmono & t & Hfin & Hrel).
      split; [exact Hmono|]. exists (c :: t).
      split; [now rewrite Hfin, <- app_assoc|].
      constructor; [now left|exact Hrel].
Qed.

(** For the opencage and google passes, with or without cap: every record of
    the list the loop starts from is either saved as it was, or a lookup was
    issued for it.  So a record without entry for which no lookup was issued
    still has no entry. *)
Theorem fallback_unasked_untouched (p : provider) (max_requests : option Z)
        (geocode : nat -> string -> option (pynum * pynum))
        (clinics located_clinics located : list clinic) (r : run) :
  p = opencage \/ p = google ->
  prepare p clinics located_clinics = Ok located ->
  main p max_requests geocode clinics located_clinics = Ok r ->
  Forall2 (untouched_or_asked p r) located (final r).
Proof.
  intros Hp Hprep. unfold main. rewrite Hprep. simpl. intros Hloop.
  apply loop_asked in Hloop as (_ & t & -> & Hrel); [exact Hrel|].
  now destruct Hp as [-> | ->].
Qed.

Lemma fallback_unasked_untouched_witness :
  Forall2 (untouched_or_asked opencage capped_opencage_run)
          both_failed (final capped_opencage_run).
Proof.
  apply (fallback_unasked_untouched opencage (Some 1%Z) in_abu_dhabi
           [clinic_a; clinic_b] both_failed both_failed capped_opencage_run).
  - left. reflexivity.
  - vm_compute. reflexivity.
  - vm_compute. reflexivity.
Defined.

Lemma opencage_lookups_selected_witness :
  attempts (set_attempt "locationiq" (JList []) clinic_a) !! "locationiq"
    = Some (JList []) /\
  attempts (set_attempt "locationiq" (JList []) clinic_a) !! "opencage" = None.
Proof.
  apply (opencage_lookups_selected (Some 1%Z) in_abu_dhabi [clinic_a; clinic_b]
           both_failed capped_opencage_run).
  - vm_compute. reflexivity.
  - left.
Defined.

(** *** Examples of the specification *)

(** The bounds: (24.45, 54.37) is valid, (40.7, -74.0) is not and is stored
    as the empty list. *)
Lemma bounds_examples :
  is_valid_uae_coordinates (num (2445 # 100)) (num (5437 # 100)) = Ok true /\
  is_valid_uae_coordinates (num (407 # 10)) (num (-74 # 1)) = Ok false /\
  stored (Some (Fin (407 # 10), Fin (-74 # 1))) = Ok (JList []) /\
  stored (Some (NaN, Fin (5437 # 100))) = Ok (JList []).
Proof. vm_compute. repeat split. Qed.

(** A stored entry that is not made of numbers makes the revalidation
    raise. *)
Lemma revalidation_raises :
  main opencage None in_abu_dhabi []
       [set_attempt "opencage" (JList [JStr "24.45"; JStr "54.37"]) clinic_a]
  = Raise TypeError.
Proof. vm_compute. reflexivity. Qed.

(** Tags: a pharmacy suppresses the clinic tag; optical and dental add up. *)
Lemma extract_tags_examples :
  extract_tags "XYZ Medical Center Pharmacy" = Some ["pharmacy"] /\
  extract_tags "XYZ Eye and Dental Clinic" = Some ["clinic"; "optical"; "dental"] /\
  extract_tags "XYZ Trading" = None.
Proof. vm_compute. repeat split. Qed.

(** *** What a run keeps *)

Lemma validate_pointwise (k : string) (l : list clinic) :
  forall l', validate k l = Ok l' ->
             Forall2 (fun c c' => revalidate k c = Ok c') l l'.
Proof.
  induction l as [|c l IH]; intros l'; simpl.
  - intros [= <-]. constructor.
  - unfold bind. destruct (revalidate k c) as [c'|] eqn:Hc; [|discriminate].
    destruct (validate k l) as [r|]; [|discriminate].
    intros [= <-]. constructor; [exact Hc|now apply IH].
Qed.

Lemma selected_has_no_entry (p : provider) (c : clinic) :
  is_pass p -> should_geocode p c = true -> attempts c !! key p = None.
Proof.
  intros [->|[->| ->]]; simpl.
  - unfold has_attempt. now destruct (attempts c !! "locationiq").
  - now intros [_ H]%opencage_should_geocode_true.
  - unfold google_should_geocode, has_attempt.
    now destruct (attempts c !! "google").
Qed.

Lemma same_but_refl (k : string) (c : clinic) : same_but k c c.
Proof. now split. Qed.

Lemma same_but_set (k : string) (v : jval) (c : clinic) :
  same_but k c (set_attempt k v c).
Proof.
  split; [reflexivity|]. intros k' Hk. simpl. now rewrite lookup_insert_ne.
Qed.

Lemma same_but_trans (k : string) (c1 c2 c3 : clinic) :
  same_but k c1 c2 -> same_but k c2 c3 -> same_but k c1 c3.
Proof.
  intros [H1 H2] [H3 H4]. split; [congruence|].
  intros k' Hk. now rewrite H4, H2.
Qed.

(** The mark of a pass writes under the pass's own key only. *)
Lemma same_but_mark (p : provider) (c : clinic) :
  is_pass p -> same_but (key p) c (mark p c).
Proof.
  intros [->|[->| ->]]; simpl;
    auto using same_but_refl, same_but_set.
Qed.

Lemma same_but_left_as (p : provider) (c c' : clinic) :
  is_pass p -> left_as p c c' -> same_but (key p) c c'.
Proof.
  intros Hp [| |v _ _]; auto using same_but_refl, same_but_mark.
  eapply same_but_trans; [now apply same_but_mark|apply same_but_set].
Qed.

Lemma same_but_revalidate (k : string) (c c' : clinic) :
  revalidate k c = Ok c' -> same_but k c c'.
Proof.
  intros [[-> | ->] _]%revalidate_spec; auto using same_but_refl, same_but_set.
Qed.

(** The list the loop starts from begins with the records of the located
    file, revalidated; the records after them are initialised records of
    the input, revalidated as well. *)
Lemma prepare_prefix (p : provider) (clinics located_clinics located : list clinic) :
  pass_ok p ->
  prepare p clinics located_clinics = Ok located ->
  located_clinics <> [] ->
  exists old new,
    located = old ++ new /\
    Forall2 (fun c c' => revalidate (key p) c = Ok c') located_clinics old /\
    Forall (fun c' => exists c, c ∈ clinics /\ revalidate (key p) (init p c) = Ok c')
           new.
Proof.
  intros Hp Hprep Hne. unfold prepare in Hprep.
  destruct located_clinics as [|c0 st]; [congruence|].
  destruct (merge_new_spec p (input_items clinics) Hp (c0 :: st)
              (dict_by_id (c0 :: st))) as (extra & Hm & Hex & _).
  { intros k c H. now apply input_items_sound in H. }
  { intros k H. now apply dict_by_id_lookup. }
  rewrite Hm in Hprep. apply validate_pointwise in Hprep.
  apply Forall2_app_inv_l in Hprep as (old & new & Hold & Hnew & ->).
  exists old, new. split; [reflexivity|]. split; [exact Hold|].
  clear Hold Hm. induction Hnew as [|c c' l l' Hc _ IH]; [constructor|].
  apply Forall_cons in Hex as [(k & c1 & Hin & ->) Hex].
  apply input_items_sound in Hin as [Hin _].
  constructor; [|now apply IH].
  now exists c1.
Qed.

Lemma has_entry_not_selected (p : provider) (c : clinic) :
  is_pass p -> is_Some (attempts c !! key p) -> should_geocode p c = false.
Proof.
  intros Hp [v Hv]. destruct (should_geocode p c) eqn:Hs; [|reflexivity].
  apply (selected_has_no_entry p c Hp) in Hs. congruence.
Qed.

Lemma left_as_not_selected (p : provider) (c c' : clinic) :
  left_as p c c' -> should_geocode p c = false -> c' = c.
Proof. intros [| |v Hs _]; congruence. Qed.

(** Whatever the cap and the answers of the geocoder, a run saves every
    record of the located file at its position, with its four fields and
    the entries of the other providers as they were; and a record that has
    an entry of the pass's own provider which passes revalidation (the empty
    list of a failure, or a pair inside the box) is saved as it was. *)
Theorem located_record_kept (p : provider) (max_requests : option Z)
        (geocode : nat -> string -> option (pynum * pynum))
        (clinics located_clinics : list clinic) (r : run) (i : nat) (c : clinic) :
  is_pass p ->
  main p max_requests geocode clinics located_clinics = Ok r ->
  located_clinics !! i = Some c ->
  exists c',
    final r !! i = Some c' /\
    same_but (key p) c c' /\
    (is_Some (attempts c !! key p) -> key_valid (key p) c -> c' = c).
Proof.
  intros Hpass Hmain Hi. pose proof (is_pass_ok p Hpass) as Hp.
  unfold main, bind in Hmain.
  destruct (prepare p clinics located_clinics) as [located|] eqn:Hprep;
    [|discriminate].
  assert (Hne : located_clinics <> []) by (intros ->; discriminate).
  destruct (prepare_prefix _ _ _ _ Hp Hprep Hne) as (old & new & -> & Hold & _).
  apply loop_spec in Hmain as (t & Hfin & Hleft & _). simpl in Hfin.
  destruct (Forall2_lookup_l _ _ _ _ _ Hold Hi) as (c1 & Hc1 & Hre).
  assert (Hi1 : (old ++ new) !! i = Some c1)
    by (apply lookup_app_l_Some; exact Hc1).
  destruct (Forall2_lookup_l _ _ _ _ _ Hleft Hi1) as (c' & Hc' & Hl).
  exists c'. rewrite Hfin. split; [exact Hc'|]. split.
  - apply (same_but_trans _ c c1 c');
      [now apply same_but_revalidate|now apply same_but_left_as].
  - intros Hsome Hkv. rewrite (revalidate_valid _ _ Hkv) in Hre.
    injection Hre as <-.
    apply (left_as_not_selected p c c' Hl).
    now apply has_entry_not_selected.
Qed.

Lemma located_record_kept_witness :
  exists c',
    final capped_opencage_run !! 1%nat = Some c' /\
    same_but "opencage" (set_attempt "locationiq" (JList []) clinic_b) c' /\
    (is_Some (attempts (set_attempt "locationiq" (JList []) clinic_b) !! "opencage") ->
     key_valid "opencage" (set_attempt "locationiq" (JList []) clinic_b) ->
     c' = set_attempt "locationiq" (JList []) clinic_b).
Proof.
  apply (located_record_kept opencage (Some 1%Z) in_abu_dhabi [clinic_a; clinic_b]
           both_failed capped_opencage_run 1
           (set_attempt "locationiq" (JList []) clinic_b)).
  - right. left. reflexivity.
  - vm_compute. reflexivity.
  - reflexivity.
Defined.

Lemma fields_init (p : provider) (c : clinic) :
  pass_ok p -> fields (init p c) = fields c.
Proof. intros Hp. now destruct (init_shape p Hp c) as [-> | ->]. Qed.

Lemma fields_id (c c' : clinic) : fields c' = fields c -> id c' = id c.
Proof. unfold fields. now intros [= -> _ _ _]. Qed.

Lemma left_as_fields (p : provider) (l l' : list clinic) :
  is_pass p -> Forall2 (left_as p) l l' -> fields <$> l' = fields <$> l.
Proof.
  intros Hp. induction 1 as [|c c' l l' Hc _ IH]; [reflexivity|].
  rewrite !fmap_cons, IH. f_equal. now apply (same_but_left_as p c c' Hp).
Qed.

Lemma revalidated_fields (k : string) (l l' : list clinic) :
  Forall2 (fun c c' => c' = c \/ c' = set_attempt k (JList []) c) l l' ->
  fields <$> l' = fields <$> l.
Proof.
  induction 1 as [|c c' l l' Hc _ IH]; [reflexivity|].
  rewrite !fmap_cons, IH. now destruct Hc as [-> | ->].
Qed.

(** Where the records of the list the loop starts from come from, and that
    they cover the input. *)
Lemma prepare_origin (p : provider) (clinics located_clinics located : list clinic) :
  pass_ok p ->
  prepare p clinics located_clinics = Ok located ->
  (forall c', c' ∈ located -> fields c' ∈ fields <$> (located_clinics ++ clinics)) /\
  (forall c, c ∈ clinics -> id c ∈ id <$> located).
Proof.
  intros Hp. unfold prepare. destruct located_clinics as [|c0 st].
  - intros [= <-]. split.
    + intros c' (c & -> & Hc)%list_elem_of_fmap. simpl.
      rewrite (fields_init p c Hp). now apply list_elem_of_fmap_2.
    + intros c Hc. apply list_elem_of_fmap. exists (init p c).
      split; [now rewrite (init_id p c Hp)|now apply list_elem_of_fmap_2].
  - intros Hv.
    destruct (merge_new_spec p (input_items clinics) Hp (c0 :: st)
                (dict_by_id (c0 :: st))) as (extra & Hm & Hex & Hcov).
    { intros k c H. now apply input_items_sound in H. }
    { intros k H. now apply dict_by_id_lookup. }
    rewrite Hm in Hv. apply validate_spec in Hv as [Hrel _].
    split.
    + intros c' Hc'. apply (list_elem_of_fmap_2 fields) in Hc'.
      rewrite (revalidated_fields _ _ _ Hrel) in Hc'.
      rewrite fmap_app in Hc'. rewrite fmap_app.
      apply elem_of_app in Hc' as [Hc'|Hc']; apply elem_of_app; [now left|right].
      apply list_elem_of_fmap in Hc' as (c1 & -> & Hc1).
      rewrite Forall_forall in Hex.
      destruct (Hex c1 Hc1) as (k & c2 & Hin & ->).
      rewrite (fields_init p c2 Hp). apply list_elem_of_fmap_2.
      now apply input_items_sound in Hin.
    + intros c Hc. rewrite (revalidated_ids _ _ _ Hrel).
      apply (list_elem_of_fmap_2 id) in Hc.
      apply input_items_complete in Hc as (c1 & Hc1). now apply (Hcov _ c1).
Qed.

(** Every saved record has the four fields of a record of the located file
    or of the input, and every id of the input is the id of a saved
    record. *)
Theorem saved_records_origin (p : provider) (max_requests : option Z)
        (geocode : nat -> string -> option (pynum * pynum))
        (clinics located_clinics : list clinic) (r : run) :
  is_pass p ->
  main p max_requests geocode clinics located_clinics = Ok r ->
  (forall c', c' ∈ final r -> fields c' ∈ fields <$> (located_clinics ++ clinics)) /\
  (forall c, c ∈ clinics -> id c ∈ id <$> final r).
Proof.
  intros Hpass Hmain. pose proof (is_pass_ok p Hpass) as Hp.
  unfold main, bind in Hmain.
  destruct (prepare p clinics located_clinics) as [located|] eqn:Hprep;
    [|discriminate].
  destruct (prepare_origin _ _ _ _ Hp Hprep) as [Horig Hcov].
  apply loop_spec in Hmain as (t & Hfin & Hleft & _). simpl in Hfin.
  pose proof (left_as_fields p located t Hpass Hleft) as Hf.
  rewrite Hfin. split.
  - intros c' Hc'. apply (list_elem_of_fmap_2 fields) in Hc'.
    rewrite Hf in Hc'. apply list_elem_of_fmap in Hc' as (c1 & -> & Hc1).
    now apply Horig.
  - intros c Hc. specialize (Hcov c Hc).
    apply list_elem_of_fmap in Hcov as (c1 & Hid & Hc1).
    apply (list_elem_of_fmap_2 fields) in Hc1. rewrite <- Hf in Hc1.
    apply list_elem_of_fmap in Hc1 as (c2 & Hf2 & Hc2).
    apply list_elem_of_fmap. exists c2. split; [|exact Hc2].
    rewrite Hid. symmetry. now apply fields_id.
Qed.

Lemma saved_records_origin_witness :
  (forall c', c' ∈ final capped_opencage_run ->
              fields c' ∈ fields <$> (both_failed ++ [clinic_a; clinic_b])) /\
  (forall c, c ∈ [clinic_a; clinic_b] -> id c ∈ id <$> final capped_opencage_run).
Proof.
  apply (saved_records_origin opencage (Some 1%Z) in_abu_dhabi [clinic_a; clinic_b]
           both_failed capped_opencage_run).
  - right. left. reflexivity.
  - vm_compute. reflexivity.
Defined.

(** *** Cap and checkpoints *)

Lemma loop_cap (p : provider) (m : Z)
      (geocode : nat -> string -> option (pynum * pynum)) (todo : list clinic) :
  forall done n looked saves r,
    loop p (Some m) geocode done todo n looked saves = Ok r ->
    length (lookups r) <= length looked + Z.to_nat (m - Z.of_nat n).
Proof.
  induction todo as [|c rest IH]; intros done n looked saves r H; simpl in H.
  - injection H as <-. simpl. lia.
  - destruct (should_geocode p c); simpl in H; [|now apply IH in H].
    destruct (Z.leb m (Z.of_nat n)) eqn:Hcap.
    + injection H as <-. simpl. lia.
    + unfold bind in H.
      destruct (stored _) as [v|]; [|discriminate].
      apply IH in H. rewrite length_app in H. simpl in H.
      apply Z.leb_gt in Hcap. lia.
Qed.

(** With [--max-requests m] a run issues at most [m] lookups (none when
    [m] is zero or negative). *)
Theorem cap_honoured (p : provider) (m : Z)
        (geocode : nat -> string -> option (pynum * pynum))
        (clinics located_clinics : list clinic) (r : run) :
  main p (Some m) geocode clinics located_clinics = Ok r ->
  length (lookups r) <= Z.to_nat m.
Proof.
  unfold main, bind.
  destruct (prepare p clinics located_clinics) as [located|]; [|discriminate].
  intros H%loop_cap. simpl in H. lia.
Qed.

Lemma cap_honoured_witness : length (lookups capped_opencage_run) <= Z.to_nat 1.
Proof.
  apply (cap_honoured opencage 1 in_abu_dhabi [clinic_a; clinic_b] both_failed
                      capped_opencage_run).
  vm_compute. reflexivity.
Defined.

Lemma div10_succ (n : nat) :
  S n / 10 = n / 10 + (if Nat.eqb (S n mod 10) 0 then 1 else 0).
Proof.
  pose proof (Nat.div_mod_eq n 10) as Hn.
  pose proof (Nat.mod_upper_bound n 10) as Hb.
  pose proof (Nat.div_mod_eq (S n) 10) as Hs.
  pose proof (Nat.mod_upper_bound (S n) 10) as Hbs.
  destruct (Nat.eqb (S n mod 10) 0) eqn:E.
  - apply Nat.eqb_eq in E. lia.
  - apply Nat.eqb_neq in E. lia.
Qed.

#[local] Arguments Nat.modulo : simpl never.
#[local] Arguments Nat.div : simpl never.

Lemma loop_checkpoints (p : provider) (max_requests : option Z)
      (geocode : nat -> string -> option (pynum * pynum)) (todo : list clinic) :
  forall done n looked saves r,
    loop p max_requests geocode done todo n looked saves = Ok r ->
    exists k,
      length (lookups r) = length looked + k /\
      length (checkpoints r) + n / 10 = length saves + (n + k) / 10.
Proof.
  induction todo as [|c rest IH]; intros done n looked saves r H; simpl in H.
  - injection H as <-. exists 0. simpl. split; [lia|]. now rewrite Nat.add_0_r.
  - destruct (should_geocode p c); simpl in H; [|now apply IH in H].
    destruct (cap_reached max_requests n).
    + injection H as <-. exists 0. simpl. split; [lia|]. now rewrite Nat.add_0_r.
    + unfold bind in H.
      destruct (stored _) as [v|]; [|discriminate].
      apply IH in H as (k & Hk1 & Hk2).
      exists (S k). rewrite length_app in Hk1. simpl in Hk1.
      split; [lia|].
      replace (n + S k) with (S (n + k)) by lia. simpl in Hk2.
      pose proof (div10_succ n) as Hd.
      destruct (Nat.eqb (S n mod 10) 0); cbn iota in Hd;
        [rewrite length_app in Hk2; simpl in Hk2|]; lia.
Qed.

(** A run saves a checkpoint at every tenth lookup: the number of
    checkpoints is the number of lookups divided by ten. *)
Theorem checkpoint_every_tenth (p : provider) (max_requests : option Z)
        (geocode : nat -> string -> option (pynum * pynum))
        (clinics located_clinics : list clinic) (r : run) :
  main p max_requests geocode clinics located_clinics = Ok r ->
  length (checkpoints r) = length (lookups r) / 10.
Proof.
  unfold main, bind.
  destruct (prepare p clinics located_clinics) as [located|]; [|discriminate].
  intros (k & Hk1 & Hk2)%loop_checkpoints. simpl in Hk1, Hk2.
  change (0 / 10) with 0 in Hk2. rewrite Hk1. lia.
Qed.

Lemma checkpoint_every_tenth_witness :
  length (checkpoints capped_opencage_run) = length (lookups capped_opencage_run) / 10.
Proof.
  apply (checkpoint_every_tenth opencage (Some 1%Z) in_abu_dhabi [clinic_a; clinic_b]
           both_failed capped_opencage_run).
  vm_compute. reflexivity.
Defined.

(** *** Revalidation *)

Lemma key_valid_left_as (p : provider) (c c' : clinic) :
  pass_ok p -> left_as p c c' -> key_valid (key p) c -> key_valid (key p) c'.
Proof.
  intros Hp [|_|v _ Hv] Hc; [exact Hc| |now apply key_valid_set_stored].
  destruct (mark_shape p Hp c) as [-> | ->]; [exact Hc|].
  intros lat lng. simpl.
  destruct (decide ("locationiq" = key p)) as [<-|Hne].
  - rewrite lookup_insert_eq. discriminate.
  - rewrite lookup_insert_ne by exact Hne. apply Hc.
Qed.

Lemma left_as_key_valid (p : provider) (l l' : list clinic) :
  pass_ok p -> Forall2 (left_as p) l l' ->
  Forall (key_valid (key p)) l -> Forall (key_valid (key p)) l'.
Proof.
  intros Hp. induction 1 as [|c c' l l' Hc _ IH]; intros Hk; [constructor|].
  apply Forall_cons in Hk as [Hk1 Hk2].
  constructor; [now apply (key_valid_left_as p c c')|now apply IH].
Qed.

(** Self-healing: whatever the located file held when the run started, in
    every list the run saves, a two-element list under the pass's own key
    lies in the box. *)
Theorem run_heals_own_entries (p : provider) (max_requests : option Z)
        (geocode : nat -> string -> option (pynum * pynum))
        (clinics located_clinics : list clinic) (r : run) :
  is_pass p ->
  Forall normalized clinics ->
  main p max_requests geocode clinics located_clinics = Ok r ->
  forall s c lat lng,
    s ∈ saved r -> c ∈ s ->
    attempts c !! key p = Some (JList [lat; lng]) -> in_box lat lng.
Proof.
  intros Hp%is_pass_ok Hn Hmain s c lat lng Hs Hc Hpair.
  unfold main, bind in Hmain.
  destruct (prepare p clinics located_clinics) as [located|] eqn:Hprep;
    [|discriminate].
  destruct (prepare_spec _ _ _ _ Hp Hn Hprep) as (Hkv & _).
  apply loop_spec in Hmain as (t & Hfin & Hleft & _ & Hsaves & _).
  assert (Hall : Forall (key_valid (key p)) s).
  { unfold saved in Hs.
    apply elem_of_app in Hs as [Hs|Hs%list_elem_of_singleton].
    - destruct (Hsaves s Hs) as [Hnil|(t' & -> & Ht')];
        [now apply elem_of_nil in Hnil|].
      now apply (left_as_key_valid p located).
    - subst s. rewrite Hfin. now apply (left_as_key_valid p located). }
  rewrite Forall_forall in Hall.
  apply is_valid_in_box. now apply (Hall c Hc).
Qed.

Lemma run_heals_own_entries_witness :
  main opencage None in_abu_dhabi [clinic_a; clinic_b] misplaced_file
  = Ok healed_run /\
  Forall (Forall (fun c => forall lat lng,
                      attempts c !! "opencage" = Some (JList [lat; lng]) ->
                      in_box lat lng))
         (saved healed_run).
Proof.
  split; [vm_compute; reflexivity|].
  apply Forall_forall. intros s Hs. apply Forall_forall. intros c Hc lat lng.
  apply (fun Hp Hn Hm =>
           run_heals_own_entries opencage None in_abu_dhabi [clinic_a; clinic_b]
             misplaced_file healed_run Hp Hn Hm s c lat lng Hs Hc).
  - right. left. reflexivity.
  - repeat constructor.
  - vm_compute. reflexivity.
Defined.

Lemma as_num_raises (v : jval) (e : exn) : as_num v = Raise e -> e = TypeError.
Proof. destruct v; simpl; congruence. Qed.

Lemma is_valid_raises (lat lng : jval) (e : exn) :
  is_valid_uae_coordinates lat lng = Raise e -> e = TypeError.
Proof.
  unfold is_valid_uae_coordinates, bind.
  destruct (as_num lat) as [a|e1] eqn:Ha.
  - destruct (_ && _); [|discriminate].
    destruct (as_num lng) as [b|e2] eqn:Hb; [discriminate|].
    intros [= <-]. now apply as_num_raises in Hb.
  - intros [= <-]. now apply as_num_raises in Ha.
Qed.

Lemma revalidate_raises (k : string) (c : clinic) (e : exn) :
  revalidate k c = Raise e -> e = TypeError.
Proof.
  unfold revalidate.
  destruct (attempts c !! k) as [[| | | |[|lat [|lng [|]]]|]|]; try discriminate.
  unfold bind.
  destruct (is_valid_uae_coordinates lat lng) as [ok|e1] eqn:Hv; [discriminate|].
  intros [= <-]. now apply is_valid_raises in Hv.
Qed.

Lemma validate_raises (k : string) (l : list clinic) (c : clinic) :
  c ∈ l -> revalidate k c = Raise TypeError -> validate k l = Raise TypeError.
Proof.
  induction l as [|c0 l IH]; intros Hin Hc; [now apply elem_of_nil in Hin|].
  simpl. unfold bind.
  destruct (revalidate k c0) as [c0'|e] eqn:H0.
  - apply elem_of_cons in Hin as [->|Hin]; [congruence|].
    now rewrite (IH Hin Hc).
  - now apply revalidate_raises in H0 as ->.
Qed.

(** A located file in which some record holds, under the pass's own key, a
    two-element list on which the bounds test raises (a latitude that is a
    string, say) makes the run raise [TypeError] before any lookup or
    save. *)
Theorem unreadable_pair_raises (p : provider) (max_requests : option Z)
        (geocode : nat -> string -> option (pynum * pynum))
        (clinics located_clinics : list clinic) (c : clinic) (lat lng : jval) :
  is_pass p ->
  c ∈ located_clinics ->
  attempts c !! key p = Some (JList [lat; lng]) ->
  is_valid_uae_coordinates lat lng = Raise TypeError ->
  main p max_requests geocode clinics located_clinics = Raise TypeError.
Proof.
  intros Hp%is_pass_ok Hin Hpair Hraise. unfold main, prepare.
  destruct located_clinics as [|c0 st]; [now apply elem_of_nil in Hin|].
  destruct (merge_new_spec p (input_items clinics) Hp (c0 :: st)
              (dict_by_id (c0 :: st))) as (extra & -> & _).
  { intros k c1 H. now apply input_items_sound in H. }
  { intros k H. now apply dict_by_id_lookup. }
  rewrite (validate_raises (key p) _ c); [reflexivity| |].
  - apply elem_of_app. now left.
  - unfold revalidate. rewrite Hpair. now rewrite Hraise.
Qed.

Lemma unreadable_pair_raises_witness :
  main opencage None in_abu_dhabi [clinic_a] [clinic_b; text_pair] = Raise TypeError.
Proof.
  apply (unreadable_pair_raises opencage None in_abu_dhabi [clinic_a]
           [clinic_b; text_pair] text_pair (JStr "24.45") (JStr "54.37")).
  - right. left. reflexivity.
  - right. left.
  - reflexivity.
  - reflexivity.
Defined.

(** *** The bounds test *)

(** The bounds test answers true exactly on two finite numbers in the box:
    booleans, NaN, infinities and numbers outside are not accepted. *)
Theorem is_valid_iff_in_box (lat lng : jval) :
  is_valid_uae_coordinates lat lng = Ok true <-> in_box lat lng.
Proof. split; [apply is_valid_in_box|apply in_box_is_valid]. Qed.

(** ** Tags and output objects *)

(** The tags of a name, when there are any: a non-empty selection of the six
    tags in their fixed order, each at most once; and with [pharmacy] there
    is neither [hospital] nor [clinic]. *)
Theorem extract_tags_shape (name : string) (tags : list string) :
  extract_tags name = Some tags ->
  tags <> [] /\
  sublist tags all_tags /\
  ("pharmacy" ∈ tags -> ("hospital" ∉ tags) /\ ("clinic" ∉ tags)).
Proof.
  unfold extract_tags.
  destruct (negb (Str.truthy name)); [discriminate|].
  cbv zeta.
  generalize (has_word "pharmacy" (Str.lower name)).
  generalize (has_word "hospital" (Str.lower name)
              || has_word "hospitals" (Str.lower name)).
  generalize (has_word "clinic" (Str.lower name)
              || has_word "clinics" (Str.lower name)
              || has_word "polyclinic" (Str.lower name)
              || has_word "medical center" (Str.lower name)
              || has_word "medical centre" (Str.lower name)).
  generalize (has_word "optical" (Str.lower name)
              || has_word "optics" (Str.lower name)
              || has_word "eye" (Str.lower name)).
  generalize (has_word "dental" (Str.lower name)).
  generalize (has_word "laboratory" (Str.lower name)
              || has_word "laboratories" (Str.lower name)
              || has_word "diagnostic" (Str.lower name)
              || has_word "diagnostics" (Str.lower name)
              || has_word "lab" (Str.lower name)).
  intros b6 b5 b4 b3 b2 b1.
  destruct b1, b2, b3, b4, b5, b6; simpl; intros [= <-];
    (split; [discriminate|]);
    (split;
     [unfold all_tags;
      repeat first [apply sublist_nil | apply sublist_skip | apply sublist_cons]|]);
    intros Hp; try (split; intros Hx); 
    repeat match goal with
           | H : _ ∈ (_ :: _) |- _ => apply elem_of_cons in H as [H|H]; try discriminate H
           | H : _ ∈ [] |- _ => now apply elem_of_nil in H
           end.
Qed.

Lemma extract_tags_shape_witness :
  ["clinic"; "optical"; "dental"] <> [] /\
  sublist ["clinic"; "optical"; "dental"] all_tags /\
  ("pharmacy" ∈ ["clinic"; "optical"; "dental"] ->
   ("hospital" ∉ ["clinic"; "optical"; "dental"]) /\
   ("clinic" ∉ ["clinic"; "optical"; "dental"])).
Proof.
  apply (extract_tags_shape "XYZ Eye and Dental Clinic").
  vm_compute. reflexivity.
Defined.

(** The builder emits one object for each record that has a list of two
    elements under locationiq, google or opencage, in the order of the
    records, with the pair chosen by that priority; the other records give
    nothing. *)
Theorem build_coordinates (source_data : list clinic) :
  coordinates <$> build source_data = omap by_priority source_data.
Proof.
  unfold build. induction source_data as [|record l IH]; [reflexivity|].
  change (omap process_record (record :: l))
    with (match process_record record with
          | Some o => o :: omap process_record l
          | None => omap process_record l
          end).
  change (omap by_priority (record :: l))
    with (match by_priority record with
          | Some ab => ab :: omap by_priority l
          | None => omap by_priority l
          end).
  rewrite <- IH. unfold process_record, get_coordinates, by_priority.
  rewrite !pair_under_two_elements.
  destruct (two_elements (attempts record !! "locationiq")) as [[a b]|];
    [reflexivity|].
  destruct (two_elements (attempts record !! "google")) as [[a b]|];
    [reflexivity|].
  now destruct (two_elements (attempts record !! "opencage")) as [[a b]|].
Qed.

(** ** Phone numbers *)

Lemma normalize_single_phone_eq (phone : string) (inferred : option string) :
  normalize_single_phone phone inferred
  = if negb (Str.truthy (Str.strip phone)) then Ok None
    else if negb (Str.truthy (cleaned_digits phone)) then Ok None
    else bind (split_area (cleaned_digits phone) inferred) check_parts.
Proof. reflexivity. Qed.

Lemma all_chars_slice_from (p : ascii -> bool) (k : nat) :
  forall s, all_chars p s = true -> all_chars p (Str.slice_from k s) = true.
Proof.
  induction k as [|k IH]; intros [|a s]; simpl; try reflexivity; auto.
  intros [_ H]%andb_true_iff. now apply IH.
Qed.

Lemma all_chars_lstrip_by (p q : ascii -> bool) (s : string) :
  all_chars p s = true -> all_chars p (Str.lstrip_by q s) = true.
Proof.
  induction s as [|a s IH]; simpl; [reflexivity|].
  intros H. destruct (q a); [|exact H].
  apply andb_true_iff in H as [_ H]. now apply IH.
Qed.

(** Substituting the empty string for a class leaves only characters
    outside the class. *)
Lemma sub_class_removes (c : Re.cls) (s : string) :
  forall prev,
    all_chars (fun a => negb (Re.cls_match false c a))
              (Re.sub_go false (Re.Cls c) [] prev s 0) = true.
Proof.
  induction s as [|a s IH]; intros prev; [reflexivity|].
  cbn [Re.sub_go]. unfold Re.match_here. cbn [Re.run].
  destruct (Re.cls_match false c a) eqn:Hc.
  - cbn [Re.expand]. cbn [String.length].
    replace (S (String.length s) - String.length s) with 1 by lia.
    apply IH.
  - cbn [all_chars]. rewrite Hc. apply IH.
Qed.

Lemma all_chars_ext (p q : ascii -> bool) (s : string) :
  (forall a, p a = q a) -> all_chars p s = all_chars q s.
Proof. intros H. induction s as [|a s IH]; simpl; [reflexivity|]. now rewrite H, IH. Qed.

Lemma cleaned_digits_chars (phone : string) :
  all_chars digit_or_plus (cleaned_digits phone) = true.
Proof.
  unfold cleaned_digits. cbv zeta.
  apply all_chars_lstrip_by.
  assert (H : all_chars digit_or_plus
                (Re.sub false (Re.Cls (Re.CNot (Re.CUnion Re.CDigit (chr "+")))) []
                        (Str.strip phone)) = true).
  { pose proof (sub_class_removes (Re.CNot (Re.CUnion Re.CDigit (chr "+")))
                  (Str.strip phone) None) as H.
    unfold Re.sub. erewrite all_chars_ext; [exact H|].
    intros a. simpl. now rewrite negb_involutive. }
  destruct (Str.startswith _ "+"); [now apply all_chars_slice_from|exact H].
Qed.

Lemma index_in_range (s : string) (i : nat) :
  i < String.length s -> exists x, Str.index s i = Ok x.
Proof.
  revert i. induction s as [|a s IH]; intros i Hi; simpl in Hi; [lia|].
  destruct i as [|i]; [now eexists|].
  unfold Str.index. simpl. apply IH. lia.
Qed.

(** The rest that [split_area] returns is a tail of the digits. *)
Lemma split_area_rest (digits_only : string) (inferred : option string)
      (area rest : string) :
  split_area digits_only inferred = Ok (Some (area, rest)) ->
  exists k, rest = Str.slice_from k digits_only.
Proof.
  unfold split_area, bind.
  repeat match goal with
         | |- context [if ?b then _ else _] => destruct b
         | |- context [match Str.index ?s ?i with _ => _ end] =>
             destruct (Str.index s i)
         end;
    intros [= _ <-] || discriminate;
    first [now exists 0 | now exists 1 | now exists 2 | now exists 4 | now exists 6].
Qed.

Lemma mem_2_4 (x : string) : Str.mem x ["2"; "4"] = true -> x = "2" \/ x = "4".
Proof.
  unfold Str.mem, Str.eqb. simpl.
  intros [H|[H|H]%orb_true_iff]%orb_true_iff;
    [left|right|discriminate]; now apply String.eqb_eq.
Qed.

Lemma check_parts_shape (area rest s : string) :
  check_parts (Some (area, rest)) = Ok (Some s) ->
  s = "+971 " +:+ area +:+ rest /\
  (((area = "2" \/ area = "4") /\ 7 <= String.length rest <= 8) \/
   (area = "5" /\ 8 <= String.length rest <= 9)).
Proof.
  unfold check_parts. cbv zeta.
  destruct (Str.mem area ["2"; "4"]) eqn:Hm.
  - destruct (_ || _) eqn:Hl; [discriminate|]. intros [= <-].
    apply orb_false_iff in Hl as [H1%Nat.ltb_ge H2%Nat.ltb_ge].
    split; [reflexivity|]. left. split; [now apply mem_2_4|lia].
  - destruct (Str.eqb area "5") eqn:H5; [|discriminate].
    destruct (_ || _) eqn:Hl; [discriminate|]. intros [= <-].
    apply orb_false_iff in Hl as [H1%Nat.ltb_ge H2%Nat.ltb_ge].
    split; [reflexivity|]. right. split; [now apply String.eqb_eq|lia].
Qed.

Lemma single_phone_canonical (phone : string) (inferred : option string) (s : string) :
  normalize_single_phone phone inferred = Ok (Some s) -> canonical s.
Proof.
  rewrite normalize_single_phone_eq.
  destruct (negb (Str.truthy (Str.strip phone))); [discriminate|].
  destruct (negb (Str.truthy (cleaned_digits phone))); [discriminate|].
  unfold bind.
  destruct (split_area (cleaned_digits phone) inferred) as [[[area rest]|]|] eqn:Hs;
    try discriminate.
  intros [-> Hshape]%check_parts_shape.
  apply split_area_rest in Hs as [k ->].
  exists area, (Str.slice_from k (cleaned_digits phone)).
  split; [reflexivity|]. split; [|exact Hshape].
  apply all_chars_slice_from, cleaned_digits_chars.
Qed.

Lemma canonical_length (s : string) :
  canonical s -> 13 <= String.length s <= 15.
Proof.
  intros (area & rest & -> & _ & [[[-> | ->] H]|[-> H]]);
    change (String.length ("+971 " +:+ _ +:+ rest))
      with (S (S (S (S (S (S (String.length rest))))))); lia.
Qed.

(** Whatever the ASCII input and the inferred area code, a number returned by
    [normalize_single_phone] is ["+971 "], then 2, 4 or 5, then 7 to 8
    (after 2 and 4) or 8 to 9 (after 5) characters that are digits or plus
    signs: 13 to 15 characters in all. *)
Theorem normalize_single_phone_canonical
        (phone : string) (inferred : option string) (s : string) :
  ascii_text phone = true ->
  normalize_single_phone phone inferred = Ok (Some s) ->
  canonical s /\ 13 <= String.length s <= 15.
Proof.
  intros _ H%single_phone_canonical. split; [exact H|now apply canonical_length].
Qed.

Lemma normalize_single_phone_canonical_witness :
  canonical "+971 4+2223333" /\ 13 <= String.length "+971 4+2223333" <= 15.
Proof.
  apply (normalize_single_phone_canonical "04 +222 3333" None);
    vm_compute; reflexivity.
Defined.

(** *** When the phone functions raise *)

Lemma prefix_971_short (d : string) :
  Str.startswith d "971" = true -> String.get 3 d = None -> d = "971".
Proof.
  unfold Str.startswith.
  destruct d as [|a d]; cbn [String.prefix]; [discriminate|].
  destruct (ascii_dec "9" a) as [<-|]; [|discriminate].
  destruct d as [|b d]; cbn [String.prefix]; [discriminate|].
  destruct (ascii_dec "7" b) as [<-|]; [|discriminate].
  destruct d as [|c d]; cbn [String.prefix]; [discriminate|].
  destruct (ascii_dec "1" c) as [<-|]; [|discriminate].
  destruct d as [|x d]; cbn [String.prefix String.get]; [reflexivity|].
  intros _. discriminate.
Qed.

Lemma lstrip_zero_head (s : string) :
  char_in (Str.lstrip_chars "0" s) 0 ["0"] = false.
Proof.
  unfold Str.lstrip_chars, char_in.
  induction s as [|a s IH]; [reflexivity|].
  cbn [Str.lstrip_by list_ascii_of_string existsb].
  destruct (Ascii.eqb a "0") eqn:E; [exact IH|].
  cbn. unfold Str.eqb. cbn. now rewrite E.
Qed.

Lemma prefix_head (d pre : string) (a : ascii) :
  String.prefix (String a pre) d = true -> String.get 0 d = Some a.
Proof.
  destruct d as [|b d]; cbn [String.prefix String.get]; [discriminate|].
  destruct (ascii_dec a b) as [->|]; [reflexivity|discriminate].
Qed.

(** On digits without leading zero, [split_area] raises only on ["971"]. *)
Lemma split_area_raises (d : string) (inferred : option string) (e : exn) :
  char_in d 0 ["0"] = false ->
  split_area d inferred = Raise e -> e = IndexError /\ d = "971".
Proof.
  intros Hz. unfold split_area, bind.
  destruct (Str.startswith d "971") eqn:H971.
  { unfold Str.index. destruct (String.get 3 d) eqn:Hg; [discriminate|].
    intros [= <-]. split; [reflexivity|now apply prefix_971_short]. }
  destruct (Str.startswith d "00971") eqn:H00.
  { apply prefix_head in H00. unfold char_in in Hz. rewrite H00 in Hz.
    discriminate Hz. }
  rewrite Hz, andb_false_r. cbn [andb].
  destruct (Nat.leb 1 (String.length d) && _) eqn:H1.
  { apply andb_true_iff in H1 as [H1%Nat.leb_le _].
    destruct (index_in_range d 0) as [x ->]; [lia|discriminate]. }
  destruct (Nat.leb 7 (String.length d)); [|discriminate].
  destruct (_ && Nat.eqb _ 7); [discriminate|].
  destruct (Nat.leb 8 (String.length d) && _) eqn:H8.
  { apply andb_true_iff in H8 as [H8%Nat.leb_le _].
    destruct (index_in_range d 0) as [x ->]; [lia|discriminate]. }
  destruct (Nat.eqb (String.length d) 7 && _); discriminate.
Qed.

Lemma check_parts_ok (parts : option (string * string)) :
  exists o, check_parts parts = Ok o.
Proof.
  destruct parts as [[area rest]|]; simpl; [|eauto].
  repeat match goal with |- context [if ?b then _ else _] => destruct b end; eauto.
Qed.

Lemma single_phone_raises (phone : string) (inferred : option string) (e : exn) :
  normalize_single_phone phone inferred = Raise e <->
  e = IndexError /\ cleaned_digits phone = "971".
Proof.
  rewrite normalize_single_phone_eq. split.
  - destruct (negb (Str.truthy (Str.strip phone))); [discriminate|].
    destruct (negb (Str.truthy (cleaned_digits phone))); [discriminate|].
    unfold bind.
    destruct (split_area (cleaned_digits phone) inferred) as [parts|e1] eqn:Hs.
    + destruct (check_parts_ok parts) as [o ->]. discriminate.
    + intros [= <-]. apply (split_area_raises _ inferred); [|exact Hs].
      apply lstrip_zero_head.
  - intros [-> Hd].
    destruct (Str.strip phone) as [|a s] eqn:Hp.
    { exfalso. unfold cleaned_digits in Hd. rewrite Hp in Hd. discriminate Hd. }
    rewrite Hd. reflexivity.
Qed.

(** On ASCII input [normalize_single_phone] raises exactly when the digits
    it works on are
    ["971"] and nothing more (the country code alone, as in ["+971"] or
    ["00971"]); the exception is [IndexError], whatever the inferred code. *)
Theorem normalize_single_phone_raises_iff
        (phone : string) (inferred : option string) (e : exn) :
  ascii_text phone = true ->
  normalize_single_phone phone inferred = Raise e <->
  e = IndexError /\ cleaned_digits phone = "971".
Proof. intros _. apply single_phone_raises. Qed.

Lemma normalize_single_phone_raises_iff_witness :
  normalize_single_phone "+971" (Some "2") = Raise IndexError <->
  IndexError = IndexError /\ cleaned_digits "+971" = "971".
Proof.
  apply (normalize_single_phone_raises_iff "+971" (Some "2") IndexError).
  reflexivity.
Defined.

Lemma first_pass_raises (phones : list string) :
  forall acc e,
    first_pass phones acc = Raise e <->
    e = IndexError /\ exists c, c ∈ phones /\ cleaned_digits c = "971".
Proof.
  induction phones as [|phone rest IH]; intros acc e; simpl.
  - split; [discriminate|]. intros [_ (c & Hc & _)]. now apply elem_of_nil in Hc.
  - unfold bind.
    destruct (normalize_single_phone phone None) as [o|e1] eqn:Hn.
    + assert (Hnot : cleaned_digits phone <> "971").
      { intros Hd.
        assert (Hr : normalize_single_phone phone None = Raise IndexError)
          by now apply single_phone_raises.
        congruence. }
      assert (Hstep : forall acc1,
                 first_pass rest acc1 = Raise e <->
                 e = IndexError /\
                 exists c, c ∈ phone :: rest /\ cleaned_digits c = "971").
      { intros acc1. rewrite IH. split; intros [He (c & Hc & Hd)];
          (split; [exact He|]); exists c; (split; [|exact Hd]).
        - now right.
        - apply elem_of_cons in Hc as [->|Hc]; [contradiction|exact Hc]. }
      destruct o as [n|]; [destruct (Str.truthy n)|]; apply Hstep.
    + apply single_phone_raises in Hn as [-> Hd]. split.
      * intros [= <-]. split; [reflexivity|]. exists phone. split; [now left|exact Hd].
      * now intros [-> _].
Qed.

Lemma second_pass_ok (phones : list string) :
  (forall c, c ∈ phones -> cleaned_digits c <> "971") ->
  forall acc, exists acc', second_pass phones acc = Ok acc'.
Proof.
  induction phones as [|phone rest IH]; intros Hno acc; simpl; [eauto|].
  assert (Hrest : forall c, c ∈ rest -> cleaned_digits c <> "971")
    by (intros c Hc; apply Hno; now right).
  destruct (bool_decide _); [now apply IH|].
  unfold bind.
  destruct (normalize_single_phone phone (inferred_area_code acc)) as [o|e] eqn:Hn.
  - destruct o as [n|]; [destruct (_ && _)|]; now apply IH.
  - apply single_phone_raises in Hn as [_ Hd]. destruct (Hno phone); [now left|exact Hd].
Qed.

Lemma normalize_phone_eq (phone_str : string) :
  normalize_phone phone_str
  = if negb (Str.truthy phone_str) then Ok ""
    else
      let* acc := first_pass (candidates phone_str)
                    {| normalized_phones := []; inferred_area_code := None;
                       processed_phones := ∅ |} in
      let* acc := (if opt_truthy (inferred_area_code acc)
                   then second_pass (candidates phone_str) acc else Ok acc) in
      Ok (match normalized_phones acc with
          | [] => ""
          | l => Str.join ", " l
          end).
Proof. reflexivity. Qed.

(** On an ASCII field [normalize_phone] raises exactly when one candidate
    comes
    down to the digits ["971"]; the exception is [IndexError].  No other
    field makes it raise. *)
Theorem normalize_phone_raises_iff (phone_str : string) (e : exn) :
  ascii_text phone_str = true ->
  normalize_phone phone_str = Raise e <->
  e = IndexError /\
  exists c, c ∈ candidates phone_str /\ cleaned_digits c = "971".
Proof.
  intros _. rewrite normalize_phone_eq.
  destruct (negb (Str.truthy phone_str)) eqn:Hempty.
  { split; [discriminate|]. intros [_ (c & Hc & _)].
    destruct phone_str; [|discriminate]. now apply elem_of_nil in Hc. }
  unfold bind at 1.
  destruct (first_pass _ _) as [acc|e1] eqn:Hf.
  - assert (Hno : forall c, c ∈ candidates phone_str -> cleaned_digits c <> "971").
    { intros c Hc Hd.
      assert (Hr : first_pass (candidates phone_str)
                     {| normalized_phones := []; inferred_area_code := None;
                        processed_phones := ∅ |} = Raise IndexError)
        by (apply first_pass_raises; eauto).
      congruence. }
    split.
    + unfold bind.
      destruct (opt_truthy (inferred_area_code acc)); [|discriminate].
      destruct (second_pass_ok _ Hno acc) as [acc' ->]. discriminate.
    + intros [_ (c & Hc & Hd)]. destruct (Hno c Hc Hd).
  - rewrite <- (first_pass_raises (candidates phone_str)
                  {| normalized_phones := []; inferred_area_code := None;
                     processed_phones := ∅ |} e).
    rewrite Hf. split; intros [= <-]; reflexivity.
Qed.

Lemma normalize_phone_raises_iff_witness :
  normalize_phone "04-3456789 / 00971" = Raise IndexError <->
  IndexError = IndexError /\
  exists c, c ∈ candidates "04-3456789 / 00971" /\ cleaned_digits c = "971".
Proof.
  apply (normalize_phone_raises_iff "04-3456789 / 00971" IndexError).
  reflexivity.
Defined.

(** *** The two passes over a field *)

Lemma mem_false (x : string) (l : list string) : Str.mem x l = false -> x ∉ l.
Proof.
  unfold Str.mem, Str.eqb. induction l as [|y l IH]; simpl.
  - intros _ H. now apply elem_of_nil in H.
  - intros [Hxy Hl]%orb_false_iff [->|H]%elem_of_cons.
    + now rewrite String.eqb_refl in Hxy.
    + now apply IH.
Qed.

Lemma first_pass_canonical (phones : list string) :
  forall acc acc',
    Forall canonical (normalized_phones acc) ->
    first_pass phones acc = Ok acc' ->
    Forall canonical (normalized_phones acc').
Proof.
  induction phones as [|phone rest IH]; intros acc acc' Hacc; simpl.
  - now intros [= <-].
  - unfold bind.
    destruct (normalize_single_phone phone None) as [[n|]|] eqn:Hn;
      [|now apply IH|discriminate].
    destruct (Str.truthy n); [|now apply IH].
    apply IH. simpl. apply Forall_app. split; [exact Hacc|].
    constructor; [|constructor]. now apply (single_phone_canonical phone None).
Qed.

(** What the second pass appends: canonical numbers, distinct from each
    other and from the numbers already in the list. *)
Lemma second_pass_spec (phones : list string) :
  forall acc acc',
    second_pass phones acc = Ok acc' ->
    exists extra,
      normalized_phones acc' = normalized_phones acc ++ extra /\
      Forall canonical extra /\
      NoDup extra /\
      (forall x, x ∈ extra -> x ∉ normalized_phones acc).
Proof.
  induction phones as [|phone rest IH]; intros acc acc'; simpl.
  - intros [= <-]. exists []. rewrite app_nil_r.
    split; [reflexivity|]. split; [constructor|]. split; [constructor|].
    intros x Hx. now apply elem_of_nil in Hx.
  - destruct (bool_decide _); [apply IH|].
    unfold bind.
    destruct (normalize_single_phone phone (inferred_area_code acc))
      as [[n|]|] eqn:Hn; [|apply IH|discriminate].
    destruct (Str.truthy n && negb (Str.mem n (normalized_phones acc))) eqn:Hc;
      [|apply IH].
    apply andb_true_iff in Hc as [_ Hmem%negb_true_iff].
    intros (extra & Heq & Hcan & Hnd & Hnew)%IH. simpl in Heq, Hnew.
    exists (n :: extra). rewrite <- app_assoc in Heq.
    split; [exact Heq|]. split.
    { constructor; [now apply (single_phone_canonical phone _ n Hn)|exact Hcan]. }
    split.
    { constructor; [|exact Hnd]. intros Hin. apply (Hnew n Hin).
      apply elem_of_app. right. now left. }
    intros x [->|Hx]%elem_of_cons; [now apply mem_false|].
    intros Hin. apply (Hnew x Hx). apply elem_of_app. now left.
Qed.

Lemma mem_true (x : string) (l : list string) : x ∈ l -> Str.mem x l = true.
Proof.
  unfold Str.mem, Str.eqb. induction l as [|y l IH]; simpl.
  - intros H. now apply elem_of_nil in H.
  - intros [->|H]%elem_of_cons; [now rewrite String.eqb_refl|].
    rewrite (IH H). apply orb_true_r.
Qed.

Lemma canonical_truthy (s : string) : canonical s -> Str.truthy s = true.
Proof. intros (area & rest & -> & _). reflexivity. Qed.

Lemma omap_cons_eq {A B : Type} (f : A -> option B) (x : A) (l : list A) :
  omap f (x :: l) = match f x with Some y => y :: omap f l | None => omap f l end.
Proof. reflexivity. Qed.

(** The first pass, candidate by candidate. *)
Lemma first_pass_exact (phones : list string) :
  forall acc acc',
    first_pass phones acc = Ok acc' ->
    normalized_phones acc' = normalized_phones acc ++ omap first_number phones /\
    inferred_area_code acc'
    = fold_left (fun o n => match area_of n with Some a => Some a | None => o end)
                (omap first_number phones) (inferred_area_code acc) /\
    (forall c, c ∈ processed_phones acc' <->
               c ∈ processed_phones acc \/ (c ∈ phones /\ is_Some (first_number c))).
Proof.
  induction phones as [|phone rest IH]; intros acc acc'.
  - simpl. intros [= <-]. rewrite app_nil_r. split; [reflexivity|].
    split; [reflexivity|]. intros c. split; [now left|].
    intros [H|[H _]]; [exact H|now apply elem_of_nil in H].
  - cbn [first_pass]. unfold bind. rewrite omap_cons_eq.
    assert (Hfn : first_number phone
                  = match normalize_single_phone phone None with
                    | Ok o => o
                    | Raise _ => None
                    end)
      by (unfold first_number; now destruct (normalize_single_phone phone None) as [[?|]|]).
    rewrite Hfn. clear Hfn.
    destruct (normalize_single_phone phone None) as [[n|]|] eqn:Hn;
      [| |discriminate].
    + rewrite (canonical_truthy n (single_phone_canonical _ _ _ Hn)).
      intros (H1 & H2 & H3)%IH.
      cbn [normalized_phones inferred_area_code processed_phones] in H1, H2, H3.
      split; [now rewrite H1, <- app_assoc|].
      split; [rewrite H2; cbn [fold_left]; unfold area_of;
              now destruct (Re.search _ _ n)|].
      intros c. rewrite H3, elem_of_union, elem_of_singleton, elem_of_cons.
      split.
      * intros [[->|H]|[H Hs]]; [right; split; [now left|]|now left|
                                 right; split; [now right|exact Hs]].
        unfold first_number. rewrite Hn. eauto.
      * intros [H|[[->|H] Hs]]; [left; now right|left; now left|right; now split].
    + intros (H1 & H2 & H3)%IH.
      split; [exact H1|]. split; [exact H2|].
      intros c. rewrite H3, elem_of_cons. split.
      * intros [H|[H Hs]]; [now left|right; split; [now right|exact Hs]].
      * intros [H|[[->|H] Hs]]; [now left| |right; now split].
        unfold first_number in Hs. rewrite Hn in Hs. now destruct Hs.
Qed.

(** The second pass, candidate by candidate. *)
Lemma second_pass_exact (phones : list string) :
  forall acc acc',
    second_pass phones acc = Ok acc' ->
    (forall c, c ∈ processed_phones acc ->
               is_Some (first_number c) \/
               exists n, normalize_single_phone c (inferred_area_code acc) = Ok (Some n) /\
                         n ∈ normalized_phones acc) ->
    (forall c, c ∈ phones -> is_Some (first_number c) -> c ∈ processed_phones acc) ->
    normalized_phones acc'
    = normalized_phones acc
      ++ add_new (normalized_phones acc)
                 (omap (second_number (inferred_area_code acc)) phones).
Proof.
  induction phones as [|phone rest IH]; intros acc acc'.
  - simpl. intros [= <-] _ _. now rewrite app_nil_r.
  - cbn [second_pass]. intros H Hinv Hpre. rewrite omap_cons_eq.
    assert (Hrest : forall c, c ∈ rest -> is_Some (first_number c) ->
                              c ∈ processed_phones acc)
      by (intros c Hc; apply Hpre; now right).
    destruct (bool_decide (phone ∈ processed_phones acc)) eqn:Hproc.
    + apply bool_decide_eq_true in Hproc. specialize (IH _ _ H Hinv Hrest).
      unfold second_number at 1.
      destruct (Hinv phone Hproc) as [[n Hn]|(n & Hn & Hin)].
      * now rewrite Hn.
      * destruct (first_number phone); [exact IH|].
        rewrite Hn. cbn [add_new]. now rewrite (mem_true n _ Hin).
    + apply bool_decide_eq_false in Hproc.
      assert (Hfirst : first_number phone = None).
      { destruct (first_number phone) eqn:E; [|reflexivity].
        destruct Hproc. apply Hpre; [now left|]. rewrite E. eauto. }
      unfold second_number at 1. rewrite Hfirst.
      unfold bind in H.
      destruct (normalize_single_phone phone (inferred_area_code acc))
        as [[n|]|] eqn:Hn; [| |discriminate].
      * rewrite (canonical_truthy n (single_phone_canonical _ _ _ Hn)) in H.
        cbn [andb add_new] in H |- *.
        destruct (Str.mem n (normalized_phones acc)) eqn:Hmem; cbn [negb] in H.
        -- now apply IH.
        -- apply IH in H;
             cbn [normalized_phones inferred_area_code processed_phones] in *.
           ++ now rewrite H, <- app_assoc.
           ++ intros c [->%elem_of_singleton|Hc]%elem_of_union.
              ** right. exists n. split; [exact Hn|].
                 apply elem_of_app. right. now left.
              ** destruct (Hinv c Hc) as [Hs|(n' & Hn' & Hin)]; [now left|].
                 right. exists n'. split; [exact Hn'|].
                 apply elem_of_app. now left.
           ++ intros c Hc Hs. apply elem_of_union. right. now apply Hrest.
      * now apply IH.
Qed.

Lemma add_new_spec (P : string -> Prop) (l : list string) :
  forall seen,
    Forall P l ->
    Forall P (add_new seen l) /\
    NoDup (add_new seen l) /\
    (forall x, x ∈ add_new seen l -> x ∉ seen).
Proof.
  induction l as [|x l IH]; intros seen Hl; cbn [add_new].
  - split; [constructor|]. split; [constructor|].
    intros x Hx. now apply elem_of_nil in Hx.
  - apply Forall_cons in Hl as [Hx Hl].
    destruct (Str.mem x seen) eqn:Hmem; [now apply IH|].
    destruct (IH (seen ++ [x]) Hl) as (H1 & H2 & H3).
    split; [now constructor|]. split.
    + constructor; [|exact H2]. intros Hin. apply (H3 x Hin).
      apply elem_of_app. right. now left.
    + intros y [->|Hy]%elem_of_cons; [now apply mem_false|].
      intros Hin. apply (H3 y Hy). apply elem_of_app. now left.
Qed.

Lemma first_numbers_canonical (l : list string) :
  Forall canonical (omap first_number l).
Proof.
  induction l as [|c l IH]; [constructor|]. rewrite omap_cons_eq.
  unfold first_number at 1.
  destruct (normalize_single_phone c None) as [[n|]|] eqn:Hn; try exact IH.
  constructor; [now apply (single_phone_canonical c None)|exact IH].
Qed.

Lemma second_numbers_canonical (inferred : option string) (l : list string) :
  Forall canonical (omap (second_number inferred) l).
Proof.
  induction l as [|c l IH]; [constructor|]. rewrite omap_cons_eq.
  unfold second_number at 1. destruct (first_number c); [exact IH|].
  destruct (normalize_single_phone c inferred) as [[n|]|] eqn:Hn; try exact IH.
  constructor; [now apply (single_phone_canonical c inferred)|exact IH].
Qed.

(** The result of an ASCII field, when there is one: the numbers of the
    first pass (one for each candidate that normalises on its own, in the
    order of the candidates, repeated when two candidates give the same
    number), followed by those of the second pass (the numbers that the
    remaining candidates give with the inferred area code, in order, without
    those already present), joined by a comma and a space; the empty string
    for no number.  Every number is canonical; those of the second pass are
    distinct from each other and from those of the first. *)
Theorem normalize_phone_output (phone_str out : string) :
  ascii_text phone_str = true ->
  normalize_phone phone_str = Ok out ->
  out = Str.join ", " (first_numbers phone_str ++ second_numbers phone_str) /\
  Forall canonical (first_numbers phone_str ++ second_numbers phone_str) /\
  NoDup (second_numbers phone_str) /\
  (forall x, x ∈ second_numbers phone_str -> x ∉ first_numbers phone_str).
Proof.
  intros _ Hout.
  assert (Hprops :
            Forall canonical (first_numbers phone_str ++ second_numbers phone_str) /\
            NoDup (second_numbers phone_str) /\
            (forall x, x ∈ second_numbers phone_str -> x ∉ first_numbers phone_str)).
  { unfold second_numbers.
    destruct (opt_truthy (inferred_from (first_numbers phone_str))).
    - destruct (add_new_spec canonical _ (first_numbers phone_str)
                  (second_numbers_canonical
                     (inferred_from (first_numbers phone_str))
                     (candidates phone_str))) as (H1 & H2 & H3).
      split; [|now split]. apply Forall_app.
      split; [apply first_numbers_canonical|exact H1].
    - rewrite app_nil_r. split; [apply first_numbers_canonical|].
      split; [constructor|]. intros x Hx. now apply elem_of_nil in Hx. }
  split; [|exact Hprops]. clear Hprops.
  rewrite normalize_phone_eq in Hout.
  destruct (negb (Str.truthy phone_str)) eqn:Hempty.
  { destruct phone_str; [|discriminate]. now injection Hout as <-. }
  unfold bind at 1 in Hout.
  destruct (first_pass _ _) as [acc|] eqn:Hf; [|discriminate].
  apply first_pass_exact in Hf as (Hnorm & Hinf & Hproc).
  cbn [normalized_phones inferred_area_code processed_phones app] in Hnorm, Hinf, Hproc.
  assert (Hjoin : forall l : list string,
             match l with [] => "" | x :: l' => Str.join ", " (x :: l') end
             = Str.join ", " l)
    by (now intros [|x l]).
  unfold second_numbers, first_numbers, inferred_from. rewrite <- Hinf.
  unfold bind in Hout. destruct (opt_truthy (inferred_area_code acc)).
  - destruct (second_pass _ acc) as [acc'|] eqn:Hs; [|discriminate].
    injection Hout as <-.
    apply second_pass_exact in Hs.
    + now rewrite Hjoin, Hs, Hnorm.
    + intros c [Hc|[_ Hc]]%Hproc; [now apply elem_of_empty in Hc|now left].
    + intros c Hc Hsome. apply Hproc. right. now split.
  - injection Hout as <-. now rewrite Hjoin, Hnorm, app_nil_r.
Qed.

Lemma normalize_phone_output_witness :
  "+971 26435556, +971 26435555"
  = Str.join ", " (first_numbers "6435555 / 02 6435556"
                   ++ second_numbers "6435555 / 02 6435556") /\
  Forall canonical (first_numbers "6435555 / 02 6435556"
                    ++ second_numbers "6435555 / 02 6435556") /\
  NoDup (second_numbers "6435555 / 02 6435556") /\
  (forall x, x ∈ second_numbers "6435555 / 02 6435556" ->
             x ∉ first_numbers "6435555 / 02 6435556").
Proof.
  apply (normalize_phone_output "6435555 / 02 6435556");
    vm_compute; reflexivity.
Defined.

(** ** Cleaned text *)

Lemma lstrip_by_head (p : ascii -> bool) (a : ascii) (s : string) :
  p a = false -> Str.lstrip_by p (String a s) = String a s.
Proof. intros H. simpl. now rewrite H. Qed.

Lemma lstrip_by_starts (s : string) :
  starts_with_space (Str.lstrip_by Str.is_space s) = false.
Proof.
  induction s as [|a s IH]; [reflexivity|]. simpl.
  destruct (Str.is_space a) eqn:E; [exact IH|]. simpl. exact E.
Qed.

Lemma lstrip_by_length (p : ascii -> bool) (s : string) :
  String.length (Str.lstrip_by p s) <= String.length s.
Proof.
  induction s as [|a s IH]; simpl; [lia|]. destruct (p a); simpl; lia.
Qed.

(** [rstrip_by] keeps the first character of a non-empty result. *)
Lemma rstrip_by_head (p : ascii -> bool) (a : ascii) (s : string) :
  Str.rstrip_by p (String a s) = EmptyString \/
  exists r, Str.rstrip_by p (String a s) = String a r.
Proof.
  simpl. destruct (Str.rstrip_by p s); [destruct (p a)|]; eauto.
Qed.

Lemma rstrip_by_keeps (p : ascii -> bool) (a : ascii) (s : string) :
  p a = false -> exists r, Str.rstrip_by p (String a s) = String a r.
Proof.
  intros H. simpl. destruct (Str.rstrip_by p s); [rewrite H|]; eauto.
Qed.

Lemma rstrip_by_idem (p : ascii -> bool) (s : string) :
  Str.rstrip_by p (Str.rstrip_by p s) = Str.rstrip_by p s.
Proof.
  induction s as [|a s IH]; [reflexivity|]. simpl.
  destruct (Str.rstrip_by p s) as [|b r] eqn:E.
  - destruct (p a) eqn:Ha; simpl; [reflexivity|now rewrite Ha].
  - change (Str.rstrip_by p (String a (String b r)))
      with (match Str.rstrip_by p (String b r) with
            | EmptyString => if p a then EmptyString else String a EmptyString
            | String c r' => String a (String c r')
            end).
    now rewrite IH.
Qed.

Lemma strip_idem (s : string) : Str.strip (Str.strip s) = Str.strip s.
Proof.
  unfold Str.strip.
  destruct (Str.lstrip_by Str.is_space s) as [|a t] eqn:E; [reflexivity|].
  assert (Ha : Str.is_space a = false).
  { pose proof (lstrip_by_starts s) as H. now rewrite E in H. }
  destruct (rstrip_by_keeps Str.is_space a t Ha) as [r Hr].
  rewrite Hr, (lstrip_by_head _ _ _ Ha), <- Hr. apply rstrip_by_idem.
Qed.

Lemma single_spaced_tail (a : ascii) (s : string) :
  single_spaced (String a s) = true -> single_spaced s = true.
Proof. simpl. now intros [_ H]%andb_true_iff. Qed.

Lemma single_spaced_lstrip (s : string) :
  single_spaced s = true -> single_spaced (Str.lstrip_by Str.is_space s) = true.
Proof.
  induction s as [|a s IH]; [reflexivity|]. intros H.
  cbn [Str.lstrip_by]. destruct (Str.is_space a); [|exact H].
  apply IH. now apply single_spaced_tail in H.
Qed.

Lemma single_spaced_rstrip (s : string) :
  single_spaced s = true -> single_spaced (Str.rstrip_by Str.is_space s) = true.
Proof.
  induction s as [|a s IH]; [reflexivity|]. intros H.
  pose proof (single_spaced_tail _ _ H) as Ht. specialize (IH Ht).
  cbn [Str.rstrip_by].
  destruct (Str.rstrip_by Str.is_space s) as [|b r] eqn:E.
  - destruct (Str.is_space a) eqn:Ha; [reflexivity|]. simpl. now rewrite Ha.
  - destruct s as [|b' s']; [discriminate E|].
    assert (b' = b) as ->.
    { destruct (rstrip_by_head Str.is_space b' s') as [H0|[r0 H0]];
        rewrite H0 in E; [discriminate|now injection E]. }
    assert (Hstep : forall t,
               single_spaced (String a (String b t))
               = (if Str.is_space a
                  then Ascii.eqb a " " && negb (Str.is_space b) else true)
                 && single_spaced (String b t)) by reflexivity.
    rewrite Hstep in H. rewrite Hstep, IH.
    apply andb_true_iff in H as [-> _]. reflexivity.
Qed.

(** Matching [\s+]. *)
Lemma star_space (s : string) :
  forall prev g,
    Re.star false Re.CSpace prev s g (fun _ s' g' => Some (s', g'))
    = Some (Str.lstrip_by Str.is_space s, g).
Proof.
  induction s as [|a s IH]; intros prev g; [reflexivity|].
  cbn [Re.star Re.cls_match Str.lstrip_by].
  destruct (Str.is_space a); [now rewrite IH|reflexivity].
Qed.

Lemma match_plus_space (prev : option ascii) (s : string) :
  Re.match_here false (Re.Plus Re.CSpace) prev s
  = match s with
    | String a s' =>
        if Str.is_space a then Some (Str.lstrip_by Str.is_space s', None) else None
    | EmptyString => None
    end.
Proof.
  unfold Re.match_here. destruct s as [|a s]; [reflexivity|].
  cbn [Re.run Re.cls_match]. destruct (Str.is_space a); [apply star_space|reflexivity].
Qed.

(** Passing over the rest of a run of whitespace. *)
Lemma sub_go_skip_spaces (t : list Re.tpl) (s : string) :
  forall prev,
    exists prev',
      Re.sub_go false (Re.Plus Re.CSpace) t prev s
                (String.length s - String.length (Str.lstrip_by Str.is_space s))
      = Re.sub_go false (Re.Plus Re.CSpace) t prev'
                  (Str.lstrip_by Str.is_space s) 0.
Proof.
  induction s as [|a s IH]; intros prev; [now exists prev|].
  cbn [Str.lstrip_by]. destruct (Str.is_space a).
  - pose proof (lstrip_by_length Str.is_space s) as Hl.
    cbn [String.length].
    replace (S (String.length s) - String.length (Str.lstrip_by Str.is_space s))
      with (S (String.length s - String.length (Str.lstrip_by Str.is_space s)))
      by lia.
    cbn [Re.sub_go]. apply IH.
  - exists prev. now rewrite Nat.sub_diag.
Qed.

(** Replacing [\s+] by a space gives a single-spaced text that starts with
    whitespace only if the input does. *)
Lemma collapse_single_spaced (n : nat) :
  forall s prev,
    String.length s <= n ->
    single_spaced (Re.sub_go false (Re.Plus Re.CSpace) [Re.TLit " "] prev s 0) = true /\
    starts_with_space (Re.sub_go false (Re.Plus Re.CSpace) [Re.TLit " "] prev s 0)
    = starts_with_space s.
Proof.
  induction n as [|n IH]; intros s prev Hn.
  - destruct s; [split; reflexivity|simpl in Hn; lia].
  - destruct s as [|a s]; [split; reflexivity|].
    cbn [Re.sub_go]. rewrite match_plus_space.
    destruct (Str.is_space a) eqn:Ha.
    + pose proof (lstrip_by_length Str.is_space s) as Hl.
      cbn [String.length].
      replace (S (String.length s) - String.length (Str.lstrip_by Str.is_space s))
        with (S (String.length s - String.length (Str.lstrip_by Str.is_space s)))
        by lia.
      destruct (sub_go_skip_spaces [Re.TLit " "] s (Some a)) as [prev' ->].
      destruct (IH (Str.lstrip_by Str.is_space s) prev') as [H1 H2];
        [simpl in Hn; lia|].
      cbn [Re.expand].
      set (out := Re.sub_go false (Re.Plus Re.CSpace) [Re.TLit " "] prev'
                            (Str.lstrip_by Str.is_space s) 0) in *.
      change ((" " +:+ "") +:+ out) with (String " " out).
      cbn [single_spaced starts_with_space].
      rewrite H1, H2, lstrip_by_starts, Ha. split; reflexivity.
    + destruct (IH s (Some a)) as [H1 _]; [simpl in Hn; lia|].
      cbn [single_spaced starts_with_space]. rewrite Ha, H1. split; reflexivity.
Qed.

(** For an ASCII text, the result of [clean_text] has no whitespace at either
    end ([strip] leaves it as it is), and every whitespace character in it
    is a single space between two other characters. *)
Theorem clean_text_spacing (text : string) :
  ascii_text text = true ->
  Str.strip (clean_text text) = clean_text text /\
  single_spaced (clean_text text) = true.
Proof.
  intros _. unfold clean_text.
  destruct (negb (Str.truthy text)); [split; reflexivity|].
  cbv zeta. split; [apply strip_idem|].
  unfold Str.strip. apply single_spaced_rstrip, single_spaced_lstrip.
  unfold Re.sub at 1. now apply (collapse_single_spaced _ _ None (Nat.le_refl _)).
Qed.

(** ** Locality found in the address *)

Lemma first_found_in (ic : bool) (pats : list (Re.regex * string)) (s v : string) :
  first_found ic pats s = Some v -> v ∈ pats.*2.
Proof.
  induction pats as [|[r u] pats IH]; simpl; [discriminate|].
  destruct (Re.found ic r s).
  - intros [= <-]. now left.
  - intros H. right. now apply IH.
Qed.

Lemma extract_emirate_locality (address e : string) :
  extract_emirate_from_address address = Some e -> e ∈ localities.
Proof.
  unfold extract_emirate_from_address.
  destruct (negb (Str.truthy address)); [discriminate|].
  intros H%first_found_in. exact H.
Qed.

Lemma locality_truthy (e : string) : e ∈ localities -> Str.truthy e = true.
Proof.
  unfold localities. intros H.
  repeat (apply elem_of_cons in H as [->|H]; [reflexivity|]).
  now apply elem_of_nil in H.
Qed.

(** For a non-blank ASCII address in which the search finds a locality, the
    name plays no part and the country is written ["UAE"] however the
    address spells it: with every name the result is one and the same text,
    which ends in a comma, the locality found (one of the seven, the first
    in the search order) and [", UAE"]. *)
Theorem add_emirate_from_address (address e : string) :
  ascii_text address = true ->
  Str.truthy (Str.strip address) = true ->
  extract_emirate_from_address address = Some e ->
  e ∈ localities /\
  exists x, forall name,
      add_emirate_to_address address name = x +:+ ", " +:+ e +:+ ", UAE".
Proof.
  intros _ Hstrip He.
  pose proof (extract_emirate_locality _ _ He) as Hloc.
  pose proof (locality_truthy _ Hloc) as Ht.
  pose proof (extract_emirate_nonempty _ _ He) as Hne.
  split; [exact Hloc|].
  exists (remove_emirate_and_country_from_address address).1.1. intros name.
  unfold add_emirate_to_address, remove_emirate_and_country_from_address.
  rewrite Hne, Hstrip, He. cbn [negb orb fst snd opt_truthy default].
  rewrite Ht. cbn [negb].
  destruct (extract_country_from_address address) as [c|] eqn:Hc.
  - apply extract_country_uae in Hc. subst c. reflexivity.
  - reflexivity.
Qed.

Lemma add_emirate_from_address_witness :
  "Sharjah" ∈ localities /\
  exists x, forall name,
      add_emirate_to_address "King Faisal St, Sharjah, U.A.E." name
      = x +:+ ", " +:+ "Sharjah" +:+ ", UAE".
Proof.
  apply (add_emirate_from_address "King Faisal St, Sharjah, U.A.E." "Sharjah");
    vm_compute; reflexivity.
Defined.

(** *** Ids stay distinct *)

Lemma left_as_ids (p : provider) (l l' : list clinic) :
  is_pass p -> Forall2 (left_as p) l l' -> id <$> l' = id <$> l.
Proof.
  intros Hp. induction 1 as [|c c' l l' Hc _ IH]; [reflexivity|].
  rewrite !fmap_cons, IH. f_equal.
  apply fields_id. now apply (same_but_left_as p c c' Hp).
Qed.

Lemma merge_new_distinct (p : provider) (items : list (Z * clinic)) :
  pass_ok p ->
  forall l d,
    (forall k c, (k, c) ∈ items -> id c = k) ->
    (forall k, is_Some (d !! k) <-> k ∈ id <$> l) ->
    NoDup (id <$> l) ->
    NoDup (id <$> merge_new p items l d).
Proof.
  intros Hp. induction items as [|[k c] items IH]; intros l d Hid Hd Hnd; simpl;
    [exact Hnd|].
  assert (Hid' : forall k' c', (k', c') ∈ items -> id c' = k')
    by (intros k' c' H; apply Hid; now right).
  destruct (d !! k) as [c1|] eqn:Hk; [now apply IH|].
  assert (Hidc : id (init p c) = k)
    by (rewrite (init_id p c Hp); apply Hid; now left).
  apply IH; [exact Hid'| |].
  - intros k'. rewrite lookup_insert_is_Some, fmap_app, elem_of_app, Hd.
    simpl. rewrite list_elem_of_singleton, Hidc.
    destruct (decide (k = k')) as [->|Hne]; [tauto|].
    split; [intros [?|[_ ?]]; [congruence|now left]|].
    intros [?|?]; [right; now split|congruence].
  - rewrite fmap_app. apply NoDup_app. split; [exact Hnd|]. split.
    + intros k' Hin [->|H]%elem_of_cons; [|now apply elem_of_nil in H].
      apply Hd in Hin. rewrite Hidc, Hk in Hin. now destruct Hin.
    + simpl. apply NoDup_singleton.
Qed.

(** A located file without repeated ids stays without repeated ids, however
    often the input repeats an id: the merge adds a record of the input at
    most once. *)
Theorem ids_stay_distinct (p : provider) (max_requests : option Z)
        (geocode : nat -> string -> option (pynum * pynum))
        (clinics located_clinics : list clinic) (r : run) :
  is_pass p ->
  located_clinics <> [] ->
  NoDup (id <$> located_clinics) ->
  main p max_requests geocode clinics located_clinics = Ok r ->
  NoDup (id <$> final r).
Proof.
  intros Hpass Hne Hnd Hmain. pose proof (is_pass_ok p Hpass) as Hp.
  unfold main, bind in Hmain.
  destruct (prepare p clinics located_clinics) as [located|] eqn:Hprep;
    [|discriminate].
  apply loop_spec in Hmain as (t & Hfin & Hleft & _). simpl in Hfin.
  rewrite Hfin, (left_as_ids p located t Hpass Hleft).
  unfold prepare in Hprep. destruct located_clinics as [|c0 st]; [congruence|].
  apply validate_spec in Hprep as [Hrel _].
  rewrite (revalidated_ids _ _ _ Hrel).
  apply merge_new_distinct; [exact Hp| | |exact Hnd].
  - intros k c H. now apply input_items_sound in H.
  - intros k. apply dict_by_id_lookup.
Qed.

Lemma ids_stay_distinct_witness :
  NoDup (id <$> final capped_opencage_run).
Proof.
  apply (ids_stay_distinct opencage (Some 1%Z) in_abu_dhabi
           [clinic_a; clinic_b; clinic_a] both_failed capped_opencage_run).
  - right. left. reflexivity.
  - discriminate.
  - apply (bool_decide_unpack _). vm_compute. reflexivity.
  - vm_compute. reflexivity.
Defined.

Lemma clean_text_spacing_witness :
  Str.strip (clean_text "  Al  Wasl Rd ,Jumeirah (  Dubai ) ,, ")
  = clean_text "  Al  Wasl Rd ,Jumeirah (  Dubai ) ,, " /\
  single_spaced (clean_text "  Al  Wasl Rd ,Jumeirah (  Dubai ) ,, ") = true.
Proof.
  apply (clean_text_spacing "  Al  Wasl Rd ,Jumeirah (  Dubai ) ,, ").
  reflexivity.
Defined.

(** *** No trailing comma *)

Lemma last_char_cons (a b : ascii) (s : string) :
  last_char (String a (String b s)) = last_char (String b s).
Proof. reflexivity. Qed.

Lemma last_char_nonempty (a : ascii) (s : string) :
  exists b, last_char (String a s) = Some b.
Proof.
  revert a. induction s as [|c s IH]; intros a; [now exists a|].
  rewrite last_char_cons. apply IH.
Qed.

Lemma rstrip_by_empty (p : ascii -> bool) (s : string) :
  Str.rstrip_by p s = EmptyString <-> all_chars p s = true.
Proof.
  induction s as [|a s IH]; [easy|]. simpl.
  destruct (Str.rstrip_by p s) as [|b r].
  - destruct IH as [IH _]. rewrite (IH eq_refl), andb_true_r.
    destruct (p a); easy.
  - split; [discriminate|]. intros [_ H]%andb_true_iff.
    destruct IH as [_ IH]. now specialize (IH H).
Qed.

(** [rstrip_by p] leaves a text that does not end in a [p] character. *)
Lemma rstrip_by_last (p : ascii -> bool) (s : string) :
  ends_in p (Str.rstrip_by p s) = false.
Proof.
  unfold ends_in. induction s as [|a s IH]; [reflexivity|]. simpl.
  destruct (Str.rstrip_by p s) as [|b r].
  - destruct (p a) eqn:Ha; simpl; [reflexivity|exact Ha].
  - rewrite last_char_cons. exact IH.
Qed.

Lemma rstrip_by_fix (p : ascii -> bool) (s : string) :
  ends_in p s = false -> Str.rstrip_by p s = s.
Proof.
  unfold ends_in. induction s as [|a s IH]; [reflexivity|].
  destruct s as [|b s].
  - simpl. now intros ->.
  - rewrite last_char_cons. intros H. specialize (IH H).
    change (Str.rstrip_by p (String a (String b s)))
      with (match Str.rstrip_by p (String b s) with
            | EmptyString => if p a then EmptyString else String a EmptyString
            | String c r' => String a (String c r')
            end).
    now rewrite IH.
Qed.

Lemma lstrip_by_last (p : ascii -> bool) (s : string) :
  ends_in p s = false ->
  last_char (Str.lstrip_by p s) = last_char s.
Proof.
  unfold ends_in. induction s as [|a s IH]; [reflexivity|].
  destruct s as [|b s].
  - simpl. now intros ->.
  - rewrite last_char_cons. intros H. specialize (IH H).
    cbn [Str.lstrip_by]. destruct (p a); [exact IH|now rewrite last_char_cons].
Qed.

(** Matching [[,\s]+$]: the class run must reach the end of the text. *)
Lemma star_eol (c : Re.cls) (s : string) :
  Re.cls_match false c (ascii_of_N 10) = true ->
  forall prev g,
    Re.star false c prev s g
            (fun p s' g' => Re.run false Re.Eol p s' g' (fun _ s'' g'' => Some (s'', g'')))
    = if all_chars (Re.cls_match false c) s then Some (EmptyString, g) else None.
Proof.
  intros Hnl. induction s as [|a s IH]; intros prev g; [reflexivity|].
  cbn [Re.star all_chars]. destruct (Re.cls_match false c a) eqn:Ha.
  - rewrite IH. cbn [andb].
    destruct (all_chars (Re.cls_match false c) s) eqn:Hs; [reflexivity|].
    cbn [Re.run Re.at_eol]. destruct s; [discriminate Hs|reflexivity].
  - cbn [andb Re.run Re.at_eol]. destruct s as [|b s]; [|reflexivity].
    destruct (N.eqb (Str.code a) 10) eqn:Hc; [|reflexivity].
    apply N.eqb_eq in Hc. unfold Str.code in Hc.
    rewrite <- (ascii_N_embedding a), Hc in Ha. congruence.
Qed.

Lemma match_trailing (c : Re.cls) (prev : option ascii) (s : string) :
  Re.cls_match false c (ascii_of_N 10) = true ->
  Re.match_here false (Re.Seq (Re.Plus c) Re.Eol) prev s
  = match s with
    | String _ _ =>
        if all_chars (Re.cls_match false c) s then Some (EmptyString, None) else None
    | EmptyString => None
    end.
Proof.
  intros Hnl. unfold Re.match_here. destruct s as [|a s]; [reflexivity|].
  cbn [Re.run all_chars]. destruct (Re.cls_match false c a); [|reflexivity].
  now rewrite star_eol.
Qed.

Lemma sub_go_skip_all (c : Re.cls) (s : string) :
  Re.cls_match false c (ascii_of_N 10) = true ->
  forall prev,
    Re.sub_go false (Re.Seq (Re.Plus c) Re.Eol) [] prev s (String.length s)
    = EmptyString.
Proof.
  intros Hnl. induction s as [|a s IH]; intros prev.
  - cbn [String.length Re.sub_go]. now rewrite (match_trailing c prev EmptyString Hnl).
  - cbn [String.length Re.sub_go]. apply IH.
Qed.

(** Deleting the matches of [[,\s]+$] removes the trailing run of the class. *)
Lemma sub_trailing (c : Re.cls) (s : string) :
  Re.cls_match false c (ascii_of_N 10) = true ->
  forall prev,
    Re.sub_go false (Re.Seq (Re.Plus c) Re.Eol) [] prev s 0
    = Str.rstrip_by (Re.cls_match false c) s.
Proof.
  intros Hnl. induction s as [|a s IH]; intros prev; [reflexivity|].
  cbn [Re.sub_go]. rewrite (match_trailing c prev (String a s) Hnl).
  destruct (all_chars (Re.cls_match false c) (String a s)) eqn:Hall.
  - cbn [Re.expand String.length Nat.sub String.append].
    rewrite (sub_go_skip_all c s Hnl).
    symmetry. now apply rstrip_by_empty.
  - rewrite IH. cbn [Str.rstrip_by].
    destruct (Str.rstrip_by (Re.cls_match false c) s) as [|b r] eqn:E; [|reflexivity].
    apply rstrip_by_empty in E. cbn [all_chars] in Hall. rewrite E, andb_true_r in Hall.
    now rewrite Hall.
Qed.

(** Replacing [\s+] by a space keeps a last character that is not whitespace. *)
Lemma collapse_last (n : nat) :
  forall s prev,
    String.length s <= n ->
    ends_in Str.is_space s = false ->
    last_char (Re.sub_go false (Re.Plus Re.CSpace) [Re.TLit " "] prev s 0)
    = last_char s.
Proof.
  induction n as [|n IH]; intros s prev Hn Hend.
  - destruct s; [reflexivity|simpl in Hn; lia].
  - destruct s as [|a s]; [reflexivity|].
    cbn [Re.sub_go]. rewrite match_plus_space.
    destruct (Str.is_space a) eqn:Ha.
    + pose proof (lstrip_by_length Str.is_space s) as Hl.
      cbn [String.length].
      replace (S (String.length s) - String.length (Str.lstrip_by Str.is_space s))
        with (S (String.length s - String.length (Str.lstrip_by Str.is_space s)))
        by lia.
      destruct (sub_go_skip_spaces [Re.TLit " "] s (Some a)) as [prev' ->].
      destruct s as [|b s]; [unfold ends_in in Hend; simpl in Hend; congruence|].
      assert (Hend' : ends_in Str.is_space (String b s) = false) by exact Hend.
      pose proof (lstrip_by_last Str.is_space (String b s) Hend') as Hlast.
      assert (Hend2 : ends_in Str.is_space (Str.lstrip_by Str.is_space (String b s)) = false)
        by (unfold ends_in; now rewrite Hlast).
      assert (Hlen : String.length (Str.lstrip_by Str.is_space (String b s)) <= n)
        by (cbn [String.length] in Hn, Hl; lia).
      pose proof (IH _ prev' Hlen Hend2) as Hout.
      cbn [Re.expand].
      set (out := Re.sub_go false (Re.Plus Re.CSpace) [Re.TLit " "] prev'
                            (Str.lstrip_by Str.is_space (String b s)) 0) in *.
      change ((" " +:+ "") +:+ out) with (String " " out).
      rewrite (last_char_cons a b s), <- Hlast, <- Hout.
      destruct out as [|x o]; [|reflexivity].
      destruct (last_char_nonempty b s) as [z Hz].
      rewrite Hlast, Hz in Hout. discriminate Hout.
    + destruct s as [|b s]; [reflexivity|].
      assert (Hlen : String.length (String b s) <= n)
        by (cbn [String.length] in Hn |- *; lia).
      pose proof (IH (String b s) (Some a) Hlen Hend) as Hout.
      rewrite (last_char_cons a b s), <- Hout.
      destruct (Re.sub_go false (Re.Plus Re.CSpace) [Re.TLit " "] (Some a) (String b s) 0)
        as [|x o]; [|reflexivity].
      destruct (last_char_nonempty b s) as [z Hz].
      rewrite Hz in Hout. discriminate Hout.
Qed.

Lemma newline_comma_or_space :
  Re.cls_match false (Re.CUnion (chr ",") ws) (ascii_of_N 10) = true.
Proof. reflexivity. Qed.

Lemma cls_comma_or_space (a : ascii) :
  Re.cls_match false (Re.CUnion (chr ",") ws) a = comma_or_space a.
Proof. reflexivity. Qed.

(** The last three steps of [clean_text]. *)
Lemma trailing_steps (t8 : string) :
  ends_in comma_or_space
    (Str.strip
       (Re.sub false (Re.Plus ws) [Re.TLit " "]
          (Re.sub false (Re.Seq (Re.Plus (Re.CUnion (chr ",") ws)) Re.Eol) [] t8)))
  = false.
Proof.
  unfold Re.sub.
  rewrite (sub_trailing _ _ newline_comma_or_space).
  pose proof (rstrip_by_last (Re.cls_match false (Re.CUnion (chr ",") ws)) t8) as Hend.
  set (t9 := Str.rstrip_by _ t8) in *.
  assert (Hsp : ends_in Str.is_space t9 = false).
  { unfold ends_in in *. destruct (last_char t9) as [a|]; [|reflexivity].
    rewrite cls_comma_or_space in Hend. unfold comma_or_space in Hend.
    now apply orb_false_iff in Hend. }
  pose proof (collapse_last _ t9 None (Nat.le_refl _) Hsp) as Hc.
  change Re.CSpace with ws in Hc.
  set (t10 := Re.sub_go false (Re.Plus ws) [Re.TLit " "] None t9 0) in *.
  assert (Hsp10 : ends_in Str.is_space t10 = false)
    by (unfold ends_in; now rewrite Hc).
  unfold Str.strip.
  assert (Hl : last_char (Str.lstrip_by Str.is_space t10) = last_char t9)
    by (now rewrite lstrip_by_last).
  rewrite rstrip_by_fix; [|unfold ends_in in *; now rewrite Hl].
  unfold ends_in in *. rewrite Hl.
  destruct (last_char t9) as [a|]; [|reflexivity].
  now rewrite cls_comma_or_space in Hend.
Qed.

(** For an ASCII text, the result of [clean_text] never ends in a comma or
    in whitespace. *)
Theorem clean_text_no_trailing_comma (text : string) :
  ascii_text text = true ->
  ends_in comma_or_space (clean_text text) = false.
Proof.
  intros _. unfold clean_text.
  destruct (negb (Str.truthy text)); [reflexivity|].
  cbv zeta. apply trailing_steps.
Qed.

Lemma clean_text_no_trailing_comma_witness :
  ends_in comma_or_space (clean_text "Corniche Rd , Abu Dhabi ,, ") = false.
Proof.
  apply (clean_text_no_trailing_comma "Corniche Rd , Abu Dhabi ,, ").
  reflexivity.
Defined.

(** ** Conversion of the rows *)

Lemma normalize_phone_ok_iff (phone_str : string) :
  (exists p, normalize_phone phone_str = Ok p) <->
  forall c, c ∈ candidates phone_str -> cleaned_digits c <> "971".
Proof.
  rewrite normalize_phone_eq.
  destruct (negb (Str.truthy phone_str)) eqn:Hempty.
  { split; [|eauto]. intros _ c Hc.
    destruct phone_str; [|discriminate]. now apply elem_of_nil in Hc. }
  unfold bind at 1.
  destruct (first_pass _ _) as [acc|e1] eqn:Hf.
  - assert (Hno : forall c, c ∈ candidates phone_str -> cleaned_digits c <> "971").
    { intros c Hc Hd.
      assert (Hr : first_pass (candidates phone_str)
                     {| normalized_phones := []; inferred_area_code := None;
                        processed_phones := ∅ |} = Raise IndexError)
        by (apply first_pass_raises; eauto).
      congruence. }
    split; [intros _; exact Hno|]. intros _. unfold bind.
    destruct (opt_truthy (inferred_area_code acc)); [|eauto].
    destruct (second_pass_ok _ Hno acc) as [acc' ->]. eauto.
  - split; [intros [p Hp]; discriminate|]. intros Hno.
    apply first_pass_raises in Hf as [_ (c & Hc & Hd)]. destruct (Hno c Hc Hd).
Qed.

Lemma convert_row_passable (r : row) :
  (exists o, convert_row r = Converted o) <-> passable r.
Proof.
  unfold convert_row, passable, phone_field, get.
  destruct (r !! "PROVIDER NUMBER") as [[number|]|] eqn:Hn.
  - rewrite <- normalize_phone_ok_iff.
    destruct (normalize_phone _) as [p|e].
    + split; [intros _; split; [discriminate|eauto]|]. intros _.
      destruct (py_int _); eauto.
    + split; [intros [o Ho]; discriminate|]. intros [_ [p Hp]]. discriminate.
  - split; [intros [o Ho]; discriminate|]. now intros [H _].
  - rewrite <- normalize_phone_ok_iff.
    destruct (normalize_phone _) as [p|e].
    + split; [intros _; split; [discriminate|eauto]|]. intros _.
      destruct (py_int _); eauto.
    + split; [intros [o Ho]; discriminate|]. intros [_ [p Hp]]. discriminate.
Qed.

Lemma convert_loop_passable (rows : list row) :
  forall results,
    (exists out, convert_loop rows results = Converted out) <-> Forall passable rows.
Proof.
  induction rows as [|r rows IH]; intros results; simpl.
  - split; [constructor|eauto].
  - rewrite Forall_cons, <- convert_row_passable.
    destruct (convert_row r) as [[c|]|s].
    + rewrite IH. split; [intros H; split; eauto|now intros [_ H]].
    + rewrite IH. split; [intros H; split; eauto|now intros [_ H]].
    + split; [intros [out H]; discriminate|]. intros [[o Ho] _]. discriminate.
Qed.

(** On rows of ASCII text the conversion writes its output exactly when
    every row is passable: one
    line too short for the provider number column, or one phone candidate
    that comes down to the digits ["971"], stops it, also in a row that the
    provider number would have left out. *)
Theorem conversion_completes_iff (rows : list row) :
  Forall ascii_row rows ->
  (exists results, convert_csv_to_json rows = Converted results) <->
  Forall passable rows.
Proof. intros _. apply convert_loop_passable. Qed.

Lemma conversion_completes_iff_witness :
  (exists results,
      convert_csv_to_json
        [row_of "1" "City Clinic" "Al Wasl Rd" "04-3456789";
         row_of "n/a" "Closed Clinic" "Main St" "+971"] = Converted results) <->
  Forall passable [row_of "1" "City Clinic" "Al Wasl Rd" "04-3456789";
                   row_of "n/a" "Closed Clinic" "Main St" "+971"].
Proof.
  apply (conversion_completes_iff
           [row_of "1" "City Clinic" "Al Wasl Rd" "04-3456789";
            row_of "n/a" "Closed Clinic" "Main St" "+971"]).
  repeat constructor.
Defined.

Lemma convert_row_id (r : row) (c : clinic) :
  convert_row r = Converted (Some c) ->
  provider_id r = Some (id c) /\ normalized c.
Proof.
  unfold convert_row, provider_id.
  destruct (get r "PROVIDER NUMBER") as [number|]; [|discriminate].
  destruct (normalize_phone _); [|discriminate].
  destruct (py_int _); [|discriminate].
  intros [= <-]. split; reflexivity.
Qed.

Lemma convert_row_skip (r : row) :
  convert_row r = Converted None -> provider_id r = None.
Proof.
  unfold convert_row, provider_id.
  destruct (get r "PROVIDER NUMBER") as [number|]; [|reflexivity].
  destruct (normalize_phone _); [|discriminate].
  destruct (py_int _); [discriminate|reflexivity].
Qed.

Lemma convert_loop_ids (rows : list row) :
  forall results out,
    convert_loop rows results = Converted out ->
    Forall normalized results ->
    id <$> out = (id <$> results) ++ omap provider_id rows /\
    Forall normalized out.
Proof.
  induction rows as [|r rows IH]; intros results out; simpl.
  - intros [= <-] Hn. now rewrite app_nil_r.
  - destruct (convert_row r) as [[c|]|s] eqn:Hr; [| |discriminate].
    + apply convert_row_id in Hr as [Hid Hnc]. intros H Hn.
      apply IH in H as [H1 H2].
      * change (omap provider_id (r :: rows))
          with (match provider_id r with
                | Some z => z :: omap provider_id rows
                | None => omap provider_id rows
                end).
        rewrite Hid, H1, fmap_app, <- app_assoc. now split.
      * apply Forall_app. split; [exact Hn|]. now constructor.
    + apply convert_row_skip in Hr. intros H Hn.
      change (omap provider_id (r :: rows))
        with (match provider_id r with
              | Some z => z :: omap provider_id rows
              | None => omap provider_id rows
              end).
      rewrite Hr. now apply IH.
Qed.

(** When the conversion of rows of ASCII text completes, it writes one
    record for each row whose
    provider number [int] accepts, in the order of the rows and with that
    number as id; the other rows are left out, a repeated number is written
    again, and no record carries a provider entry. *)
Theorem conversion_ids (rows : list row) (results : list clinic) :
  Forall ascii_row rows ->
  convert_csv_to_json rows = Converted results ->
  id <$> results = omap provider_id rows /\ Forall normalized results.
Proof.
  intros _ H. apply convert_loop_ids in H; [exact H|constructor].
Qed.

Lemma conversion_ids_witness :
  id <$> sample_results = [101%Z; 70%Z; 101%Z] /\ Forall normalized sample_results.
Proof.
  apply (conversion_ids sample_rows sample_results).
  - repeat constructor.
  - vm_compute. reflexivity.
Defined.

(** *** The country written *)

Lemma append_assoc (a b c : string) : (a +:+ b) +:+ c = a +:+ (b +:+ c).
Proof.
  induction a as [|x a IH]; [reflexivity|].
  change (String x ((a +:+ b) +:+ c) = String x (a +:+ (b +:+ c))).
  f_equal. exact IH.
Qed.

Lemma title_from_truthy (b : bool) (s : string) :
  Str.truthy (Str.title_from b s) = Str.truthy s.
Proof. destruct s as [|a s]; [reflexivity|]. simpl. now destruct (Str.is_alpha a), b. Qed.

Lemma normalize_emirate_truthy (raw : string) :
  Str.truthy raw = true -> Str.truthy (normalize_emirate_name raw) = true.
Proof.
  intros H. unfold normalize_emirate_name. rewrite H. cbn [negb].
  destruct (emirate_map !! _) as [v|] eqn:E.
  - unfold emirate_map in E. apply elem_of_list_to_map_2 in E.
    repeat (apply elem_of_cons in E as [[= _ ->]|E]; [reflexivity|]).
    now apply elem_of_nil in E.
  - unfold Str.title. now rewrite title_from_truthy.
Qed.

Lemma remove_found (address : string) :
  Str.truthy address = true ->
  (remove_emirate_and_country_from_address address).1.2
  = extract_emirate_from_address address /\
  (remove_emirate_and_country_from_address address).2
  = extract_country_from_address address.
Proof.
  intros H. unfold remove_emirate_and_country_from_address. rewrite H.
  split; reflexivity.
Qed.

(** On ASCII text: whenever [add_emirate_to_address] adds a locality, the
    text ends in [", UAE"], however the address spells the country; it adds
    none only when neither the address nor the name gives one, and then
    returns the address as it is (blank) or what
    [remove_emirate_and_country_from_address] leaves of it. *)
Theorem add_emirate_country (address name : string) :
  ascii_text address = true ->
  ascii_text name = true ->
  (exists x, add_emirate_to_address address name = x +:+ ", UAE") \/
  (opt_truthy (extract_emirate_from_name name) = false /\
   (blank address = false -> extract_emirate_from_address address = None) /\
   add_emirate_to_address address name
   = if blank address then address
     else (remove_emirate_and_country_from_address address).1.1).
Proof.
  intros _ _. unfold add_emirate_to_address, blank.
  destruct (negb (Str.truthy address) || negb (Str.truthy (Str.strip address)))
    eqn:Hb.
  - destruct (extract_emirate_from_name name) as [raw|]; cbn [opt_truthy];
      [|right; repeat split; discriminate].
    destruct (Str.truthy raw) eqn:Ht; [|right; repeat split; discriminate].
    left. destruct (Str.eqb raw "AL AIN"); [now exists "Al Ain, Abu Dhabi"|].
    rewrite (normalize_emirate_truthy raw Ht). now eexists.
  - apply orb_false_iff in Hb as [Hne _]. apply negb_false_iff in Hne.
    destruct (remove_found address Hne) as [He Hc].
    destruct (remove_emirate_and_country_from_address address)
      as [[cleaned fe] fc]. cbn [fst snd] in He, Hc |- *. subst fe fc.
    assert (Hcountry :
              (if opt_truthy (extract_country_from_address address)
               then default "" (extract_country_from_address address)
               else "UAE") = "UAE").
    { destruct (extract_country_from_address address) as [c|] eqn:E;
        [|reflexivity].
      apply extract_country_uae in E. now subst c. }
    rewrite Hcountry.
    assert (Hfin : forall e, Str.truthy e = true ->
               exists x, cleaned +:+ ", " +:+ e +:+ ", " +:+ "UAE" = x +:+ ", UAE").
    { intros e _. exists (cleaned +:+ ", " +:+ e). now rewrite !append_assoc. }
    destruct (extract_emirate_from_address address) as [e|] eqn:Hfound.
    + pose proof (locality_truthy e (extract_emirate_locality _ _ Hfound)) as Ht.
      cbn [opt_truthy default]. rewrite Ht. cbn [negb]. left. now apply Hfin.
    + cbn [opt_truthy negb default].
      destruct (extract_emirate_from_name name) as [raw|]; cbn [opt_truthy];
        [|right; repeat split; reflexivity].
      destruct (Str.truthy raw) eqn:Ht; [|right; repeat split; reflexivity].
      left. destruct (Str.eqb raw "AL AIN").
      * match goal with
        | |- exists x, ?X +:+ _ = _ => exists (X +:+ ", Abu Dhabi")
        end.
        now rewrite append_assoc.
      * cbn [opt_truthy default]. rewrite (normalize_emirate_truthy raw Ht).
        cbn [negb]. apply Hfin. now apply normalize_emirate_truthy.
Qed.

Lemma add_emirate_country_witness :
  (exists x, add_emirate_to_address "Main St, U.A.E." "Care Pharmacy (Ajman)"
             = x +:+ ", UAE") \/
  (opt_truthy (extract_emirate_from_name "Care Pharmacy (Ajman)") = false /\
   (blank "Main St, U.A.E." = false ->
    extract_emirate_from_address "Main St, U.A.E." = None) /\
   add_emirate_to_address "Main St, U.A.E." "Care Pharmacy (Ajman)"
   = if blank "Main St, U.A.E." then "Main St, U.A.E."
     else (remove_emirate_and_country_from_address "Main St, U.A.E.").1.1).
Proof.
  apply (add_emirate_country "Main St, U.A.E." "Care Pharmacy (Ajman)");
    reflexivity.
Defined.

(** ** Cleaned names *)

Section RunClosed.
Context {R : Type} (ic : bool) (P : R -> Prop).

(** What the matcher returns, its continuation returned. *)
Lemma lit_closed (l : string) :
  forall prev s g (k : @Re.cont R),
    (forall p s' g' x, k p s' g' = Some x -> P x) ->
    forall x, Re.lit ic l prev s g k = Some x -> P x.
Proof.
  induction l as [|b l IH]; intros prev s g k Hk x; simpl; [apply Hk|].
  destruct s as [|a s]; [discriminate|].
  destruct (Re.char_eq ic b a); [now apply IH|discriminate].
Qed.

Lemma star_closed (c : Re.cls) (s : string) :
  forall prev g (k : @Re.cont R),
    (forall p s' g' x, k p s' g' = Some x -> P x) ->
    forall x, Re.star ic c prev s g k = Some x -> P x.
Proof.
  induction s as [|a s IH]; intros prev g k Hk x; simpl; [apply Hk|].
  destruct (Re.cls_match ic c a); [|apply Hk].
  destruct (Re.star ic c (Some a) s g k) as [r|] eqn:E.
  - intros [= <-]. exact (IH _ _ _ Hk r E).
  - apply Hk.
Qed.

Lemma run_closed (r : Re.regex) :
  forall prev s g (k : @Re.cont R),
    (forall p s' g' x, k p s' g' = Some x -> P x) ->
    forall x, Re.run ic r prev s g k = Some x -> P x.
Proof.
  induction r as [|l|c|c|c|c|r1 IH1 r2 IH2|r1 IH1 r2 IH2|r IH| |];
    intros prev s g k Hk x; cbn [Re.run].
  - apply Hk.
  - now apply lit_closed.
  - destruct s as [|a s]; [discriminate|].
    destruct (Re.cls_match ic c a); [apply Hk|discriminate].
  - now apply star_closed.
  - destruct s as [|a s]; [discriminate|].
    destruct (Re.cls_match ic c a); [now apply star_closed|discriminate].
  - destruct s as [|a s]; [apply Hk|].
    destruct (Re.cls_match ic c a); [|apply Hk].
    destruct (k (Some a) s g) as [y|] eqn:E; [|apply Hk].
    intros [= <-]. exact (Hk _ _ _ _ E).
  - apply IH1. intros p s' g' y. now apply IH2.
  - destruct (Re.run ic r1 prev s g k) as [y|] eqn:E.
    + intros [= <-]. exact (IH1 _ _ _ _ Hk y E).
    + now apply IH2.
  - apply IH. intros p s' g' y. apply Hk.
  - destruct (Re.at_eol s); [apply Hk|discriminate].
  - destruct (xorb _ _); [apply Hk|discriminate].
Qed.

Lemma seq_closed (r tail : Re.regex) (k : @Re.cont R) :
  (forall p s g x, Re.run ic tail p s g k = Some x -> P x) ->
  forall prev s g x, Re.run ic (Re.Seq r tail) prev s g k = Some x -> P x.
Proof. intros H prev s g x. cbn [Re.run]. now apply run_closed. Qed.
End RunClosed.

(** A match of the pattern of [clean_name] runs to the end of the text. *)
Lemma clean_name_match (prev : option ascii) (s rest : string) (g : option string) :
  Re.match_here false
    (Re.seq [Re.Star Re.CSpace; Re.Lit "("; Re.Plus (Re.CNot (Re.CChar ")"));
             Re.Lit ")"; Re.Star Re.CSpace; Re.Eol]) prev s = Some (rest, g) ->
  rest = EmptyString.
Proof.
  unfold Re.match_here. cbn [Re.seq].
  set (P := fun x : string * option string => x.1 = EmptyString).
  change (rest = EmptyString) with (P (rest, g)).
  generalize (rest, g). generalize (@None string). revert prev s.
  do 4 apply (seq_closed false P).
  intros p s g0 x. cbn [Re.run].
  rewrite (star_eol Re.CSpace s eq_refl).
  destruct (all_chars _ s); [|discriminate]. now intros [= <-].
Qed.

Lemma clean_name_no_match (prev : option ascii) :
  Re.match_here false
    (Re.seq [Re.Star Re.CSpace; Re.Lit "("; Re.Plus (Re.CNot (Re.CChar ")"));
             Re.Lit ")"; Re.Star Re.CSpace; Re.Eol]) prev EmptyString = None.
Proof. reflexivity. Qed.

(** Deleting matches that all run to the end of the text leaves a prefix. *)
Lemma sub_go_to_end (r : Re.regex) :
  (forall prev s rest g, Re.match_here false r prev s = Some (rest, g) ->
                         rest = EmptyString) ->
  (forall prev, Re.match_here false r prev EmptyString = None) ->
  forall s,
    (forall prev, Re.sub_go false r [] prev s (String.length s) = EmptyString) /\
    (forall prev, String.prefix (Re.sub_go false r [] prev s 0) s = true).
Proof.
  intros Hend Hnil. induction s as [|a s [IH1 IH2]].
  - split; intros prev; cbn [String.length Re.sub_go]; now rewrite Hnil.
  - split; intros prev; [cbn [String.length Re.sub_go]; apply IH1|].
    cbn [Re.sub_go].
    destruct (Re.match_here false r prev (String a s)) as [[rest g]|] eqn:E.
    + apply Hend in E. subst rest.
      cbn [Re.expand String.length Nat.sub String.append]. now rewrite IH1.
    + cbn [String.prefix]. destruct (ascii_dec a a); [apply IH2|congruence].
Qed.

(** [clean_name] only removes from the end: what it returns is a prefix of
    the name. *)
Theorem clean_name_prefix (name : string) :
  String.prefix (Build.clean_name name) name = true.
Proof.
  unfold Build.clean_name, Re.sub.
  apply (sub_go_to_end _ clean_name_match clean_name_no_match name).
Qed.

(** *** When a run raises *)

Lemma validate_raise_inv (k : string) (l : list clinic) (e : exn) :
  validate k l = Raise e -> exists c, c ∈ l /\ revalidate k c = Raise e.
Proof.
  induction l as [|c0 l IH]; simpl; [discriminate|]. unfold bind.
  destruct (revalidate k c0) as [c0'|e0] eqn:H0.
  - destruct (validate k l) as [r|e1]; [discriminate|].
    intros [= <-]. destruct (IH eq_refl) as (c & Hin & Hc).
    exists c. split; [now right|exact Hc].
  - intros [= <-]. exists c0. split; [now left|exact H0].
Qed.

Lemma revalidate_raise_inv (k : string) (c : clinic) (e : exn) :
  revalidate k c = Raise e ->
  exists lat lng,
    attempts c !! k = Some (JList [lat; lng]) /\
    is_valid_uae_coordinates lat lng = Raise e.
Proof.
  unfold revalidate.
  destruct (attempts c !! k) as [[| | | |[|lat [|lng [|]]]|]|]; try discriminate.
  unfold bind.
  destruct (is_valid_uae_coordinates lat lng) as [ok|e1] eqn:Hv; [discriminate|].
  intros [= <-]. now exists lat, lng.
Qed.

(** A run on a normalised input raises exactly when the located file holds,
    under the pass's own key, a two-element list on which the bounds test
    raises; the exception is [TypeError] and comes before any lookup or
    save.  Neither the cap nor any answer of the geocoder makes a run
    raise. *)
Theorem run_raises_iff (p : provider) (max_requests : option Z)
        (geocode : nat -> string -> option (pynum * pynum))
        (clinics located_clinics : list clinic) (e : exn) :
  is_pass p ->
  Forall normalized clinics ->
  main p max_requests geocode clinics located_clinics = Raise e <->
  e = TypeError /\
  exists c lat lng,
    c ∈ located_clinics /\
    attempts c !! key p = Some (JList [lat; lng]) /\
    is_valid_uae_coordinates lat lng = Raise TypeError.
Proof.
  intros Hp%is_pass_ok Hn. unfold main, prepare.
  destruct located_clinics as [|c0 st].
  { cbn [bind]. split.
    - intros H. destruct (loop_total p max_requests geocode (init p <$> clinics)
                            [] 0 [] []) as [r Hr]. congruence.
    - intros [_ (c & _ & _ & Hin & _)]. now apply elem_of_nil in Hin. }
  destruct (merge_new_spec p (input_items clinics) Hp (c0 :: st)
              (dict_by_id (c0 :: st))) as (extra & -> & Hex & _).
  { intros k c1 H. now apply input_items_sound in H. }
  { intros k H. now apply dict_by_id_lookup. }
  split.
  - unfold bind. destruct (validate (key p) _) as [located|e1] eqn:Hv.
    { intros H. destruct (loop_total p max_requests geocode located [] 0 [] [])
        as [r Hr]. congruence. }
    intros [= <-]. apply validate_raise_inv in Hv as (c & Hin & Hc).
    pose proof (revalidate_raises _ _ _ Hc) as ->. split; [reflexivity|].
    apply elem_of_app in Hin as [Hin|Hin].
    + apply revalidate_raise_inv in Hc as (lat & lng & Hpair & Hraise).
      now exists c, lat, lng.
    + rewrite Forall_forall in Hex. destruct (Hex c Hin) as (k & c1 & Hitem & ->).
      apply input_items_sound in Hitem as [Hc1 _].
      rewrite Forall_forall in Hn.
      rewrite (revalidate_valid (key p) (init p c1)) in Hc; [discriminate|].
      apply (init_key_valid p Hp). now apply Hn.
  - intros [-> (c & lat & lng & Hin & Hpair & Hraise)].
    rewrite (validate_raises (key p) _ c); [reflexivity| |].
    + apply elem_of_app. now left.
    + unfold revalidate. rewrite Hpair. now rewrite Hraise.
Qed.

Lemma run_raises_iff_witness :
  main opencage None in_abu_dhabi [clinic_a] [clinic_b; text_pair] = Raise TypeError <->
  TypeError = TypeError /\
  exists c lat lng,
    c ∈ [clinic_b; text_pair] /\
    attempts c !! key opencage = Some (JList [lat; lng]) /\
    is_valid_uae_coordinates lat lng = Raise TypeError.
Proof.
  apply (run_raises_iff opencage None in_abu_dhabi [clinic_a]
           [clinic_b; text_pair] TypeError).
  - right. left. reflexivity.
  - repeat constructor.
Defined.

(** ** The Dubai suffix *)



(** A match of a pattern without anchors stays a match when text is added
    at the end, whatever follows the pattern. *)
Section Extend.
Context {R R' : Type} (ic : bool) (e : string).




End Extend.
























(** *** The clean-up of [street -] *)
















